(** * salticidae/queue.h: lock-free free list, MPMC queue and MPSC queue

    A shallow embedding of [include/salticidae/queue.h].  Every member
    function is written once, as a program over the atomic accesses it
    performs, in the order the source performs them.  Three semantics read
    these programs: [exec] runs one program alone (a quiet queue), [cstep]
    interleaves the atomic accesses of several threads over one shared
    memory, and [run] relates a program to what it sees and returns,
    whatever the other threads do.

    Modelling decisions:
    - all atomic accesses are sequentially consistent; the
      [std::memory_order] arguments are not represented;
    - [compare_exchange_weak] may fail spuriously: a schedule (or, for a
      program run alone, an oracle) says at each weak CAS whether it does;
    - [size_t] is 64 bits wide and wraps around;
    - the payload type [T] is copied by [std::move] (as for [int]);
    - a pointer is [None] (nullptr) or [Some i], the [i]-th block that was
      allocated; dereferencing anything else is undefined behaviour. *)

From Stdlib Require Import ZArith List Lia Bool.
From stdpp Require Import base option list.

Open Scope Z_scope.

(** ** Memory *)

Abbreviation ptr := (option nat).

(** [T()] for the payload slot of [new Block()]. *)
Class ValueInit (T : Type) := value_init : T.

#[global] Instance Z_value_init : ValueInit Z := 0.

(** [size_t] arithmetic. *)
Definition size_mod : Z := 2 ^ 64.
Definition wrap (z : Z) : Z := z mod size_mod.

(** [struct Block : FreeList::Node { T elem; std::atomic<Block *> next; }]
    on top of [struct Node { std::atomic<Node *> next; std::atomic<size_t>
    refcnt; }].  [Block] declares a member [next] of its own, so a block has
    two links: [node_next] is [FreeList::Node::next] and [block_next] is
    [Block::next]. *)
Record block (T : Type) : Type := Block {
  node_next : ptr;
  refcnt : Z;
  elem : T;
  block_next : ptr
}.
Arguments Block {T}.
Arguments node_next {T}.
Arguments refcnt {T}.
Arguments elem {T}.
Arguments block_next {T}.

(** The memory of one queue object: its blocks, [FreeList::top],
    [MPMCQueue::head] and [MPMCQueue::tail]. *)
Record state (T : Type) : Type := State {
  heap : list (block T);
  top : ptr;
  head : ptr;
  tail : ptr
}.
Arguments State {T}.
Arguments heap {T}.
Arguments top {T}.
Arguments head {T}.
Arguments tail {T}.

Section Memory.
Context {T : Type} `{ValueInit T}.

Definition set_node_next (p : ptr) (b : block T) : block T :=
  Block p (refcnt b) (elem b) (block_next b).
Definition set_refcnt (z : Z) (b : block T) : block T :=
  Block (node_next b) z (elem b) (block_next b).
Definition set_elem (e : T) (b : block T) : block T :=
  Block (node_next b) (refcnt b) e (block_next b).
Definition set_block_next (p : ptr) (b : block T) : block T :=
  Block (node_next b) (refcnt b) (elem b) p.

Definition set_top (p : ptr) (s : state T) : state T :=
  State (heap s) p (head s) (tail s).
Definition set_head (p : ptr) (s : state T) : state T :=
  State (heap s) (top s) p (tail s).
Definition set_tail (p : ptr) (s : state T) : state T :=
  State (heap s) (top s) (head s) p.
Definition set_heap (h : list (block T)) (s : state T) : state T :=
  State h (top s) (head s) (tail s).

Definition ptr_eqb (p q : ptr) : bool :=
  match p, q with
  | None, None => true
  | Some a, Some b => Nat.eqb a b
  | _, _ => false
  end.

(** [*u]; [None] when [u] is null or dangling. *)
Definition deref (s : state T) (u : ptr) : option (block T) :=
  match u with
  | Some a => heap s !! a
  | None => None
  end.

(** A write through [u]. *)
Definition modify (u : ptr) (f : block T -> block T) (s : state T)
  : option (state T) :=
  match u with
  | Some a =>
      match heap s !! a with
      | Some b => Some (set_heap (<[a := f b]> (heap s)) s)
      | None => None
      end
  | None => None
  end.

(** [Node(): next(nullptr), refcnt(1) {}] and the value-initialised members
    of [Block]. *)
Definition new_block : block T := Block None 1 value_init None.

(** ** Atomic accesses *)

Inductive action : Type -> Type :=
| TopLoad : action ptr
| TopCas (expected desired : ptr) : action bool
| HeadLoad : action ptr
| HeadStore (p : ptr) : action unit
| HeadCas (expected desired : ptr) : action bool
| TailStore (p : ptr) : action unit
| TailExchange (p : ptr) : action ptr
| RefLoad (u : ptr) : action Z
| RefFetchSub (u : ptr) : action Z
| RefStore (u : ptr) (z : Z) : action unit
| RefCas (u : ptr) (expected desired : Z) : action bool
| NodeNextLoad (u : ptr) : action ptr
| NodeNextStore (u : ptr) (p : ptr) : action unit
| BlockNextLoad (u : ptr) : action ptr
| BlockNextStore (u : ptr) (p : ptr) : action unit
| ElemRead (u : ptr) : action T
| ElemWrite (u : ptr) (e : T) : action unit
| NewBlock : action ptr.

(** The accesses that are a [compare_exchange_weak]. *)
Definition weak_cas {X} (a : action X) : bool :=
  match a with
  | TopCas _ _ | HeadCas _ _ | RefCas _ _ _ => true
  | _ => false
  end.

(** [perform a spur s]: the value [a] yields on [s] and the memory after it;
    [None] is undefined behaviour.  [spur] makes a weak CAS fail
    spuriously. *)
Definition perform {X} (a : action X) (spur : bool) (s : state T)
  : option (X * state T) :=
  match a in action X return option (X * state T) with
  | TopLoad => Some (top s, s)
  | TopCas e d =>
      if negb spur && ptr_eqb (top s) e then Some (true, set_top d s)
      else Some (false, s)
  | HeadLoad => Some (head s, s)
  | HeadStore p => Some (tt, set_head p s)
  | HeadCas e d =>
      if negb spur && ptr_eqb (head s) e then Some (true, set_head d s)
      else Some (false, s)
  | TailStore p => Some (tt, set_tail p s)
  | TailExchange p => Some (tail s, set_tail p s)
  | RefLoad u => b ← deref s u; Some (refcnt b, s)
  | RefFetchSub u =>
      b ← deref s u;
      s' ← modify u (set_refcnt (wrap (refcnt b - 1))) s;
      Some (refcnt b, s')
  | RefStore u z => s' ← modify u (set_refcnt z) s; Some (tt, s')
  | RefCas u e d =>
      b ← deref s u;
      if negb spur && (refcnt b =? e)
      then s' ← modify u (set_refcnt d) s; Some (true, s')
      else Some (false, s)
  | NodeNextLoad u => b ← deref s u; Some (node_next b, s)
  | NodeNextStore u p => s' ← modify u (set_node_next p) s; Some (tt, s')
  | BlockNextLoad u => b ← deref s u; Some (block_next b, s)
  | BlockNextStore u p => s' ← modify u (set_block_next p) s; Some (tt, s')
  | ElemRead u => b ← deref s u; Some (elem b, s)
  | ElemWrite u e => s' ← modify u (set_elem e) s; Some (tt, s')
  | NewBlock =>
      Some (Some (length (heap s)), set_heap (heap s ++ [new_block]) s)
  end.

(** ** Programs *)

(** A program is a tree of atomic accesses; [Spin] is a loop that has used
    up its iteration bound. *)
Inductive prog (R : Type) : Type :=
| Ret (r : R)
| Act {X : Type} (a : action X) (k : X -> prog R)
| Spin.

Fixpoint bind {A B} (p : prog A) (f : A -> prog B) : prog B :=
  match p with
  | Ret _ r => f r
  | Act _ a k => Act _ a (fun x => bind (k x) f)
  | Spin _ => Spin _
  end.

Definition atomic {X} (a : action X) : prog X := Act _ a (Ret _).

End Memory.

Arguments action : clear implicits.
Arguments prog : clear implicits.
Arguments Ret {T R}.
Arguments Act {T R X}.
Arguments Spin {T R}.
Arguments set_node_next {T} p b /.
Arguments set_refcnt {T} z b /.
Arguments set_elem {T} e b /.
Arguments set_block_next {T} p b /.
Arguments set_top {T} p s /.
Arguments set_head {T} p s /.
Arguments set_tail {T} p s /.
Arguments set_heap {T} h s /.
Arguments wrap : simpl never.

Notation "x <- p ;; q" := (bind p (fun x => q))
  (at level 100, p at next level, right associativity).
Notation "p ;; q" := (bind p (fun _ => q))
  (at level 100, right associativity).

Definition is_null (p : ptr) : bool :=
  match p with None => true | Some _ => false end.

(** ** The member functions *)

(** In every function [fuel] bounds the iterations of each loop; a loop that
    would need more ends in [Spin]. *)

Module FreeList.
Section Ops.
Context {T : Type}.

(** The [for (;;)] of [release_ref]. *)
Fixpoint release_loop (fuel : nat) (u : ptr) : prog T unit :=
  match fuel with
  | O => Spin
  | S fuel' =>
      t <- atomic TopLoad ;;
      atomic (NodeNextStore u t) ;;
      ok <- atomic (TopCas t u) ;;
      if ok then atomic (RefStore u 1)
      else release_loop fuel' u
  end.

Definition release_ref (fuel : nat) (u : ptr) : prog T unit :=
  old <- atomic (RefFetchSub u) ;;
  if negb (old =? 1) then Ret tt
  else release_loop fuel u.

Definition push (fuel : nat) (u : ptr) : prog T bool :=
  release_ref fuel u ;;
  Ret true.

(** [bool pop(Node *&r)]: [Some u] is [true] with [r = u]; [None] is
    [false], which leaves [r] alone. *)
Fixpoint pop (fuel : nat) : prog T (option ptr) :=
  match fuel with
  | O => Spin
  | S fuel' =>
      u <- atomic TopLoad ;;
      if is_null u then Ret None
      else
        t <- atomic (RefLoad u) ;;
        if t =? 0 then pop fuel'
        else
          ok <- atomic (RefCas u t (wrap (t + 1))) ;;
          if ok then
            nv <- atomic (NodeNextLoad u) ;;
            popped <- atomic (TopCas u nv) ;;
            release_ref fuel u ;;
            if popped then Ret (Some u) else pop fuel'
          else pop fuel'
  end.

End Ops.
End FreeList.

Module MPMCQueue.
Section Ops.
Context {T : Type}.

Definition _enqueue (nblk : ptr) (e : T) : prog T unit :=
  atomic (ElemWrite nblk e) ;;
  atomic (BlockNextStore nblk None) ;;
  prev <- atomic (TailExchange nblk) ;;
  atomic (BlockNextStore prev nblk).

(** The [while (capacity--)] of the constructor. *)
Fixpoint fill (fuel : nat) (capacity : nat) : prog T unit :=
  match capacity with
  | O => Ret tt
  | S capacity' =>
      n <- atomic NewBlock ;;
      FreeList.push fuel n ;;
      fill fuel capacity'
  end.

(** [MPMCQueue(size_t capacity)], on the memory in which [blks] has been
    constructed ([top] is null). *)
Definition construct (fuel : nat) (capacity : nat) : prog T unit :=
  d <- atomic NewBlock ;;
  atomic (HeadStore d) ;;
  h <- atomic HeadLoad ;;
  atomic (TailStore h) ;;
  h' <- atomic HeadLoad ;;
  atomic (BlockNextStore h' None) ;;
  fill fuel capacity.

Definition enqueue (fuel : nat) (e : T) : prog T bool :=
  r <- FreeList.pop fuel ;;
  nblk <- match r with
          | Some n => Ret n
          | None => atomic NewBlock
          end ;;
  _enqueue nblk e ;;
  Ret true.

Definition try_enqueue (fuel : nat) (e : T) : prog T bool :=
  r <- FreeList.pop fuel ;;
  match r with
  | None => Ret false
  | Some nblk =>
      _enqueue nblk e ;;
      Ret true
  end.

(** [bool try_dequeue(T &e)]: takes the value of [e] at the call, returns
    the result and the value of [e] at the return. *)
Fixpoint try_dequeue (fuel : nat) (e : T) : prog T (bool * T) :=
  match fuel with
  | O => Spin
  | S fuel' =>
      h <- atomic HeadLoad ;;
      t <- atomic (RefLoad h) ;;
      if t =? 0 then try_dequeue fuel' e
      else
        ok <- atomic (RefCas h t (wrap (t + 1))) ;;
        if ok then
          nh <- atomic (BlockNextLoad h) ;;
          if is_null nh then
            FreeList.release_ref fuel h ;;
            Ret (false, e)
          else
            e' <- atomic (ElemRead nh) ;;
            moved <- atomic (HeadCas h nh) ;;
            if moved then
              FreeList.release_ref fuel h ;;
              FreeList.push fuel h ;;
              Ret (true, e')
            else
              FreeList.release_ref fuel h ;;
              try_dequeue fuel' e'
        else try_dequeue fuel' e
  end.

(** The first loop of the destructor,
    [for (FreeList::Node *ptr; blks.pop(ptr); ) delete ptr;].  A [delete]
    is recorded as the pointer it is applied to; the result is the
    pointers deleted, in order. *)
Fixpoint delete_pool (fuel : nat) : prog T (list ptr) :=
  match fuel with
  | O => Spin
  | S fuel' =>
      r <- FreeList.pop fuel ;;
      match r with
      | None => Ret []
      | Some p =>
          ds <- delete_pool fuel' ;;
          Ret (p :: ds)
      end
  end.

(** The second loop,
    [for (Block *ptr = head.load(), *nptr; ptr; ptr = nptr)]. *)
Fixpoint delete_chain (fuel : nat) (p : ptr) : prog T (list ptr) :=
  match fuel with
  | O => Spin
  | S fuel' =>
      if is_null p then Ret []
      else
        nptr <- atomic (BlockNextLoad p) ;;
        ds <- delete_chain fuel' nptr ;;
        Ret (p :: ds)
  end.

(** [~MPMCQueue()]: the pointers it deletes, in order. *)
Definition destroy (fuel : nat) : prog T (list ptr) :=
  ds <- delete_pool fuel ;;
  h <- atomic HeadLoad ;;
  ds' <- delete_chain fuel h ;;
  Ret (ds ++ ds').

End Ops.
End MPMCQueue.

(** [struct MPSCQueue : public MPMCQueue<T>]: the producers use the
    inherited [enqueue] and [try_enqueue]; one thread calls the two
    functions below. *)
Module MPSCQueue.
Section Ops.
Context {T : Type}.

Definition try_dequeue (fuel : nat) (e : T) : prog T (bool * T) :=
  h <- atomic HeadLoad ;;
  nh <- atomic (BlockNextLoad h) ;;
  if is_null nh then Ret (false, e)
  else
    e' <- atomic (ElemRead nh) ;;
    atomic (HeadStore nh) ;;
    FreeList.push fuel h ;;
    Ret (true, e').

Definition rewind (fuel : nat) (e : T) : prog T bool :=
  r <- FreeList.pop fuel ;;
  nblk <- match r with
          | Some n => Ret n
          | None => atomic NewBlock
          end ;;
  h <- atomic HeadLoad ;;
  atomic (ElemWrite h e) ;;
  atomic (BlockNextStore nblk h) ;;
  atomic (HeadStore nblk) ;;
  Ret true.

End Ops.
End MPSCQueue.

(** ** Running one program alone *)

Inductive outcome (T R : Type) : Type :=
| Returned (r : R) (o : list bool) (s : state T)
| Undefined
| OutOfFuel.
Arguments Returned {T R}.
Arguments Undefined {T R}.
Arguments OutOfFuel {T R}.

Section Exec.
Context {T : Type} `{ValueInit T}.

(** [exec p o s] runs [p] on [s] with nothing else running.  The oracle
    [o] is consumed one entry per weak CAS: [true] makes that CAS fail
    spuriously; when [o] is used up no CAS does. *)
Fixpoint exec {R} (p : prog T R) (o : list bool) (s : state T)
  : outcome T R :=
  match p with
  | Ret r => Returned r o s
  | Spin => OutOfFuel
  | Act a k =>
      let spur := if weak_cas a then hd false o else false in
      let o' := if weak_cas a then tl o else o in
      match perform a spur s with
      | Some (x, s') => exec (k x) o' s'
      | None => Undefined
      end
  end.

(** Memory before the constructor runs. *)
Definition empty_state : state T := State [] None None None.

(** What a run returned. *)
Definition returned {R} (x : outcome T R) : option R :=
  match x with
  | Returned r _ _ => Some r
  | _ => None
  end.

End Exec.

(** ** Running several threads *)

Record config (T R : Type) : Type := Config {
  mem : state T;
  threads : list (prog T R)
}.
Arguments Config {T R}.
Arguments mem {T R}.
Arguments threads {T R}.

Section Interleaving.
Context {T : Type} `{ValueInit T} {R : Type}.

(** Thread [i] performs its next atomic access; [None] when it has none
    left, or when the access is undefined behaviour. *)
Definition cstep (i : nat) (spur : bool) (c : config T R)
  : option (config T R) :=
  match threads c !! i with
  | Some (Act a k) =>
      match perform a spur (mem c) with
      | Some (x, s') => Some (Config s' (<[i := k x]> (threads c)))
      | None => None
      end
  | _ => None
  end.

(** A schedule names, step by step, the thread that moves and whether its
    weak CAS (if the step is one) fails spuriously. *)
Fixpoint crun (sched : list (nat * bool)) (c : config T R)
  : option (config T R) :=
  match sched with
  | [] => Some c
  | (i, spur) :: sched' =>
      match cstep i spur c with
      | Some c' => crun sched' c'
      | None => None
      end
  end.

(** What thread [i] returned, once it has. *)
Definition result (c : config T R) (i : nat) : option R :=
  match threads c !! i with
  | Some (Ret r) => Some r
  | _ => None
  end.

End Interleaving.

(** ** Runs that return *)

(** An atomic access, without its result type. *)
Definition access (T : Type) : Type := { X : Type & action T X }.

Definition acc {T X} (a : action T X) : access T := existT X a.

Section Observing.
Context {T : Type} `{ValueInit T}.

(** [p], run alone on [s] under the oracle [o], returns [r] and leaves the
    memory [s']. *)
Definition returns {R} (p : prog T R) (o : list bool) (s : state T)
    (r : R) (s' : state T) : Prop :=
  exists o', (length o' <= length o)%nat /\ exec p o s = Returned r o' s'.

End Observing.

(** ** Quiet states *)

Section Shape.
Context {T : Type}.

(** Field [f] of the block at address [a]. *)
Definition field {X} (f : block T -> X) (hp : list (block T)) (a : nat)
  : option X :=
  f <$> hp !! a.

(** The blocks at [l], in order, lead from [p] to [q] along the link
    [nxt]. *)
Fixpoint lseg (nxt : block T -> ptr) (hp : list (block T))
    (p : ptr) (l : list nat) (q : ptr) : Prop :=
  match l with
  | [] => p = q
  | a :: l' =>
      p = Some a /\ exists p', field nxt hp a = Some p' /\ lseg nxt hp p' l' q
  end.


(** [queue_rep s d qs vs fl]: no operation is in progress on [s]; the queue
    is the dummy block [d] followed along [Block::next] by the blocks [qs],
    which carry the values [vs], oldest first; the pool is the blocks [fl]
    along [Node::next], from [top] down. *)
Record queue_rep (s : state T) (d : nat) (qs : list nat) (vs : list T)
    (fl : list nat) : Prop := {
  rep_head : head s = Some d;
  rep_chain : lseg block_next (heap s) (Some d) (d :: qs) None;
  rep_tail : tail s = last (d :: qs);
  rep_elems : Forall2 (fun a v => field elem (heap s) a = Some v) qs vs;
  rep_pool : lseg node_next (heap s) (top s) fl None;
  rep_nodup : NoDup (d :: qs ++ fl);
  rep_refcnt : Forall (fun a => field refcnt (heap s) a = Some 1)
                 (d :: qs ++ fl)
}.

End Shape.

(** ** Callers *)

Section Callers.
Context {T : Type}.

(** [enqueue] called once per value, in order. *)
Fixpoint enqueue_all (fuel : nat) (vs : list T) : prog T unit :=
  match vs with
  | [] => Ret tt
  | v :: vs' =>
      MPMCQueue.enqueue fuel v ;;
      enqueue_all fuel vs'
  end.

(** [n] successive calls [try_dequeue(e)] on one variable [e]; the results
    and the value of [e] after each call. *)
Fixpoint dequeue_n (deq : nat -> T -> prog T (bool * T))
    (fuel : nat) (n : nat) (e : T) : prog T (list (bool * T)) :=
  match n with
  | O => Ret []
  | S n' =>
      r <- deq fuel e ;;
      rs <- dequeue_n deq fuel n' (snd r) ;;
      Ret (r :: rs)
  end.

End Callers.

(** ** What one thread sees *)

(** An atomic access and the value it yielded. *)
Inductive observation (T : Type) : Type :=
| Obs {X : Type} (a : action T X) (x : X).
Arguments Obs {T X}.

Section Seen.
Context {T : Type}.

(** [run p tr r]: [p] performs the accesses of [tr], which yield the values
    of [tr], and returns [r].  Nothing is said of the memory: the values
    are whatever the other threads make them. *)
Fixpoint run {R} (p : prog T R) (tr : list (observation T)) (r : R) : Prop :=
  match p with
  | Ret r0 => tr = [] /\ r = r0
  | Spin => False
  | Act a k => exists x tr', tr = Obs a x :: tr' /\ run (k x) tr' r
  end.

(** The value the last load of a [Block::next] yielded. *)
Fixpoint last_block_next (tr : list (observation T)) : option ptr :=
  match tr with
  | [] => None
  | Obs a x :: tr' =>
      match last_block_next tr' with
      | Some p => Some p
      | None =>
          match a in action _ X return X -> option ptr with
          | BlockNextLoad _ => fun p => Some p
          | _ => fun _ => None
          end x
      end
  end.

(** The observation is a load of [top] that yielded null. *)
Definition saw_empty_pool (ob : observation T) : bool :=
  match ob with
  | Obs a x =>
      match a in action _ X return X -> bool with
      | TopLoad => is_null
      | _ => fun _ => false
      end x
  end.

(** The last thing seen is a null [top]. *)
Fixpoint ends_on_empty_pool (tr : list (observation T)) : bool :=
  match tr with
  | [] => false
  | ob :: tr' =>
      match tr' with
      | [] => saw_empty_pool ob
      | _ :: _ => ends_on_empty_pool tr'
      end
  end.

(** The number of exchanges of [tail], each of which appends a block to
    the queue. *)
Fixpoint exchanges (tr : list (observation T)) : nat :=
  match tr with
  | [] => O
  | Obs a _ :: tr' =>
      match a with
      | TailExchange _ => S (exchanges tr')
      | _ => exchanges tr'
      end
  end.

(** The accesses of the loop of [release_ref(u)]: rounds whose CAS fails,
    then the round whose CAS succeeds, then the store of 1. *)
Inductive push_trace (u : ptr) : list (observation T) -> Prop :=
| push_trace_done (t : ptr) :
    push_trace u [Obs TopLoad t; Obs (NodeNextStore u t) tt;
                  Obs (TopCas t u) true; Obs (RefStore u 1) tt]
| push_trace_retry (t : ptr) (tr : list (observation T)) :
    push_trace u tr ->
    push_trace u (Obs TopLoad t :: Obs (NodeNextStore u t) tt ::
                  Obs (TopCas t u) false :: tr).

End Seen.

(** ** Memories that the properties name *)

Section Described.
Context {T : Type} `{ValueInit T}.

(** What a completed push of block [a] leaves: [a] at [top], with
    [refcnt] 1 and [Node::next] the previous top. *)
Definition pushed (s : state T) (a : nat) (b : block T) : state T :=
  State (<[a := Block (top s) 1 (elem b) (block_next b)]> (heap s))
    (Some a) (head s) (tail s).

(** What [fetch_sub] alone leaves. *)
Definition dropped (s : state T) (a : nat) (b : block T) : state T :=
  State (<[a := Block (node_next b) (wrap (refcnt b - 1)) (elem b)
                  (block_next b)]> (heap s))
    (top s) (head s) (tail s).

(** The memory after a [pop] that succeeds on a quiet state whose pool
    below the top is [fl]. *)
Definition popped (s : state T) (fl : list nat) : state T :=
  State (heap s) (hd_error fl) (head s) (tail s).

(** The memory after [new Block()]. *)
Definition allocated (s : state T) : state T :=
  State (heap s ++ [new_block]) (top s) (head s) (tail s).

(** The memory after [_enqueue(n, e)] when the tail is [t]. *)
Definition linked (s : state T) (t : nat) (bt : block T) (n : nat)
    (bn : block T) (e : T) : state T :=
  State (<[t := set_block_next (Some n) bt]>
           (<[n := set_block_next None (set_elem e bn)]> (heap s)))
    (top s) (head s) (Some n).

(** The memory once the constructor has set up the dummy, which is the
    whole of a queue constructed with capacity 0. *)
Definition dummy_only : state T :=
  State [new_block] None (Some 0%nat) (Some 0%nat).

(** [head->next != nullptr]: the queue is not empty. *)
Definition non_empty (s : state T) : bool :=
  match head s with
  | Some h =>
      match heap s !! h with
      | Some b => bool_decide (block_next b <> None)
      | None => false
      end
  | None => false
  end.

(** The expected value of a [refcnt] CAS is not zero. *)
Definition cas_guarded {X} (a : action T X) : Prop :=
  match a with
  | RefCas _ e _ => e <> 0
  | _ => True
  end.

(** Every [refcnt] CAS a program can come to perform, whatever the
    accesses before it yield, is guarded. *)
Fixpoint guarded {R} (p : prog T R) : Prop :=
  match p with
  | Act a k => cas_guarded a /\ forall x, guarded (k x)
  | _ => True
  end.

(** The access thread [i] performs next. *)
Definition next_access {R} (c : config T R) (i : nat) : option (access T) :=
  match threads c !! i with
  | Some (Act a _) => Some (acc a)
  | _ => None
  end.

End Described.

(** ** Histories of a FIFO queue *)

(** A completed call with what it returned. *)
Inductive call (T : Type) : Type :=
| Enqueued (v : T)
| Dequeued (r : bool * T).
Arguments Enqueued {T}.
Arguments Dequeued {T}.

Section Histories.
Context {T : Type}.

(** [fifo q h]: the calls [h], made one after the other on a queue that
    holds [q], return what a FIFO queue may return.  A [try_dequeue] that
    returns a value returns the oldest one; one that returns [false] is
    accepted whatever the queue holds, since a dequeuer treats a value
    whose [prev.next] store is still to come as absent. *)
Fixpoint fifo (q : list T) (h : list (call T)) : Prop :=
  match h with
  | [] => True
  | Enqueued v :: h' => fifo (q ++ [v]) h'
  | Dequeued (true, v) :: h' =>
      match q with
      | x :: q' => x = v /\ fifo q' h'
      | [] => False
      end
  | Dequeued (false, _) :: h' => fifo q h'
  end.

Fixpoint enqueues (h : list (call T)) : nat :=
  match h with
  | [] => O
  | Enqueued _ :: h' => S (enqueues h')
  | Dequeued _ :: h' => enqueues h'
  end.

(** The calls of [try_dequeue] that returned a value. *)
Fixpoint deliveries (h : list (call T)) : nat :=
  match h with
  | [] => O
  | Dequeued (true, _) :: h' => S (deliveries h')
  | _ :: h' => deliveries h'
  end.

End Histories.

(** ** Scenarios *)

Module Scenario.

(** A thread returns the results of its [try_dequeue] calls. *)
Definition results : Type := list (bool * Z).

Definition producer (vs : list Z) : prog Z results :=
  enqueue_all 3 vs ;;
  Ret [].

Definition consumer (n : nat) : prog Z results :=
  dequeue_n MPMCQueue.try_dequeue 3 n 0.

(** [(i, n)] is [n] accesses of thread [i] in a row, no weak CAS failing
    spuriously. *)
Definition steps (phases : list (nat * nat)) : list (nat * bool) :=
  flat_map (fun '(i, n) => repeat (i, false) n) phases.

(** Thread 0 enqueues 1 and 2, thread 1 dequeues twice, thread 2 once, on
    a queue constructed with capacity 0. *)
Definition aba_start : config Z results :=
  Config dummy_only [producer [1; 2]; consumer 2; consumer 1].

(** Thread 2 loads [head] and stalls; [enqueue(1)]; thread 1 dequeues 1 and
    pushes the old dummy; thread 2 takes its reference on that block, which
    is now in the pool, and reads its stale [next]; [enqueue(2)] pops the
    block and links it; thread 1 dequeues 2, which makes the block the head
    again; the head CAS of thread 2 succeeds. *)
Definition aba_phases : list (nat * nat) :=
  [(2, 1); (0, 6); (1, 12); (2, 4); (0, 10); (1, 12); (2, 7)]%nat.

(** The memory [aba_phases] ends in: blocks 0 and 1 are both in the pool
    ([top] is block 0, whose [Node::next] is block 1) and both in the queue
    ([head] is block 1, whose [Block::next] is block 0). *)
Definition aba_end : state Z :=
  State [Block (Some 1%nat) 1 2 None; Block None 1 1 (Some 0%nat)]
    (Some 0%nat) (Some 1%nat) (Some 0%nat).

Definition aba_calls : list (call Z) :=
  [Enqueued 1; Enqueued 2;
   Dequeued (true, 1); Dequeued (true, 2); Dequeued (true, 1)].

(** Thread 0 enqueues 1, 2 and 3, thread 1 dequeues four times, thread 2
    once. *)
Definition underflow_start : config Z results :=
  Config dummy_only [producer [1; 2; 3]; consumer 4; consumer 1].

(** As [aba_phases] up to the head CAS of thread 2, which then gives its
    reference back and stalls before [push(h)]; thread 1 dequeues 2 again;
    [enqueue(3)]; thread 1 dequeues 3 from the block thread 2 is about to
    push, and in its own [push(h)] brings the [refcnt] to 0. *)
Definition underflow_phases : list (nat * nat) :=
  [(2, 1); (0, 6); (1, 12); (2, 4); (0, 10); (1, 12); (2, 2);
   (1, 12); (0, 10); (1, 8)]%nat.



(** Thread 0 enqueues 10, 20, 30 and 7, threads 1 and 2 dequeue once
    each, on a queue constructed with capacity 0. *)
Definition stale_head_start : config Z results :=
  Config dummy_only [producer [10; 20; 30; 7]; consumer 1; consumer 1].

(** [enqueue(10)], [enqueue(20)], [enqueue(30)]; thread 2 loads [head],
    which is block 0, and stalls; thread 1 dequeues 10 and pushes block 0;
    [enqueue(7)] pops block 0, stores null in its [next] and links it
    behind block 3; thread 2 takes its reference on block 0, whose
    [refcnt] is 1 again, reads its [next], gives the reference back and
    returns [false]. *)
Definition stale_head_phases : list (nat * nat) :=
  [(0, 18); (2, 1); (1, 12); (0, 10); (2, 4)]%nat.

(** The memory [stale_head_phases] ends in: a quiet queue that holds 20,
    30 and 7, the last in block 0. *)
Definition stale_head_end : state Z :=
  State [Block None 1 7 None; Block None 1 10 (Some 2%nat);
         Block None 1 20 (Some 3%nat); Block None 1 30 (Some 0%nat)]
    None (Some 1%nat) (Some 0%nat).

(** A quiet queue that holds 5. *)
Definition one_pending : state Z :=
  State [Block None 1 0 (Some 1%nat); Block None 1 5 None]
    None (Some 0%nat) (Some 1%nat).

(** A quiet queue that holds 10, 20 and 30. *)
Definition three_pending : state Z :=
  State [Block None 1 0 (Some 1%nat); Block None 1 10 (Some 2%nat);
         Block None 1 20 (Some 3%nat); Block None 1 30 None]
    None (Some 0%nat) (Some 3%nat).

(** An empty queue and a block that is in neither the queue nor the
    pool. *)
Definition spare_block : state Z :=
  State [new_block; new_block] None (Some 0%nat) (Some 0%nat).

(** A queue constructed with capacity 2, after [enqueue(5)] and a
    [try_dequeue]: block 0, the first dummy, is at the top of the pool. *)
Definition recycled_dummy : state Z :=
  State [Block (Some 1%nat) 1 0 (Some 2%nat); Block None 1 0 None;
         Block (Some 1%nat) 1 5 None]
    (Some 0%nat) (Some 2%nat) (Some 2%nat).

End Scenario.
(** ** The free list on its own *)

Section Pool.
Context {T : Type}.

(** [pool_rep s fl]: no operation is in progress on the free list of [s],
    which holds the blocks [fl] along [Node::next], from [top] down. *)
Definition pool_rep (s : state T) (fl : list nat) : Prop :=
  lseg node_next (heap s) (top s) fl None /\
  NoDup fl /\
  Forall (fun a => field refcnt (heap s) a = Some 1) fl.

(** [push] called once per block, in order. *)
Fixpoint push_all (fuel : nat) (us : list nat) : prog T unit :=
  match us with
  | [] => Ret tt
  | u :: us' =>
      FreeList.push fuel (Some u) ;;
      push_all fuel us'
  end.

(** [n] successive calls of [pop] and what each returned. *)
Fixpoint pop_n (fuel : nat) (n : nat) : prog T (list (option ptr)) :=
  match n with
  | O => Ret []
  | S n' =>
      r <- FreeList.pop fuel ;;
      rs <- pop_n fuel n' ;;
      Ret (r :: rs)
  end.

(** The memory in which a [push] of block [a] has swung [top] to [a] and
    has yet to store its [refcnt]. *)
Definition half_pushed (s : state T) (a : nat) (b : block T) : state T :=
  State (<[a := Block (top s) 0 (elem b) (block_next b)]> (heap s))
    (Some a) (head s) (tail s).

(** [n] successive calls [release_ref(u)]. *)
Fixpoint release_n (fuel : nat) (u : ptr) (n : nat) : prog T unit :=
  match n with
  | O => Ret tt
  | S n' =>
      FreeList.release_ref fuel u ;;
      release_n fuel u n'
  end.

(** The memory in which block [a] is outside the pool with [refcnt]
    [z]. *)
Definition held_back (s : state T) (a : nat) (b : block T) (z : Z)
  : state T :=
  State (<[a := Block (node_next b) z (elem b) (block_next b)]> (heap s))
    (top s) (head s) (tail s).

End Pool.

(** ** A client of the queue and the queue it expects *)

(** A call of one of the five public member functions. *)
Inductive request (T : Type) : Type :=
| Enqueue (v : T)
| TryEnqueue (v : T)
| TryDequeue
| ConsumerTryDequeue
| Rewind (v : T).
Arguments Enqueue {T}.
Arguments TryEnqueue {T}.
Arguments TryDequeue {T}.
Arguments ConsumerTryDequeue {T}.
Arguments Rewind {T}.

(** What a client can tell of a quiet queue: the values it holds, oldest
    first, the number of blocks in the pool, and the number of blocks
    allocated so far. *)
Record bounded_fifo (T : Type) : Type := Fifo {
  held : list T;
  spare : nat;
  made : nat
}.
Arguments Fifo {T}.
Arguments held {T}.
Arguments spare {T}.
Arguments made {T}.

Section Client.
Context {T : Type}.

(** One call with the variable [e] for the value: what the call returned
    and [e] after it.  [TryDequeue] is [MPMCQueue::try_dequeue],
    [ConsumerTryDequeue] is [MPSCQueue::try_dequeue]. *)
Definition serve (fuel : nat) (c : request T) (e : T) : prog T (bool * T) :=
  match c with
  | Enqueue v => r <- MPMCQueue.enqueue fuel v ;; Ret (r, e)
  | TryEnqueue v => r <- MPMCQueue.try_enqueue fuel v ;; Ret (r, e)
  | TryDequeue => MPMCQueue.try_dequeue fuel e
  | ConsumerTryDequeue => MPSCQueue.try_dequeue fuel e
  | Rewind v => r <- MPSCQueue.rewind fuel v ;; Ret (r, e)
  end.

(** The calls [cs], one after the other. *)
Fixpoint serve_all (fuel : nat) (cs : list (request T)) (e : T)
  : prog T (list (bool * T)) :=
  match cs with
  | [] => Ret []
  | c :: cs' =>
      r <- serve fuel c e ;;
      rs <- serve_all fuel cs' (snd r) ;;
      Ret (r :: rs)
  end.

(** A block for one more value: from the pool, or a new one. *)
Definition take_block (m : bounded_fifo T) : nat * nat :=
  match spare m with
  | O => (O, S (made m))
  | S k => (k, made m)
  end.

(** The same call on the list. *)
Definition fifo_serve (c : request T) (e : T) (m : bounded_fifo T)
  : (bool * T) * bounded_fifo T :=
  match c with
  | Enqueue v =>
      ((true, e), Fifo (held m ++ [v]) (fst (take_block m)) (snd (take_block m)))
  | TryEnqueue v =>
      match spare m with
      | O => ((false, e), m)
      | S k => ((true, e), Fifo (held m ++ [v]) k (made m))
      end
  | TryDequeue | ConsumerTryDequeue =>
      match held m with
      | [] => ((false, e), m)
      | x :: q => ((true, x), Fifo q (S (spare m)) (made m))
      end
  | Rewind v =>
      ((true, e), Fifo (v :: held m) (fst (take_block m)) (snd (take_block m)))
  end.

Fixpoint fifo_serve_all (cs : list (request T)) (e : T) (m : bounded_fifo T)
  : list (bool * T) * bounded_fifo T :=
  match cs with
  | [] => ([], m)
  | c :: cs' =>
      let (r, m1) := fifo_serve c e m in
      let (rs, m') := fifo_serve_all cs' (snd r) m1 in
      (r :: rs, m')
  end.

End Client.

(** ** Allocations *)

Section Allocations.
Context {T : Type}.

(** The access is a [new Block()]. *)
Definition is_alloc {X} (a : action T X) : bool :=
  match a with
  | NewBlock => true
  | _ => false
  end.

(** The number of blocks a thread allocated. *)
Fixpoint allocations (tr : list (observation T)) : nat :=
  match tr with
  | [] => O
  | Obs a _ :: tr' =>
      if is_alloc a then S (allocations tr') else allocations tr'
  end.

(** [p] allocates at most [n] blocks, whatever its accesses yield. *)
Fixpoint allocs_at_most {R} (n : nat) (p : prog T R) : Prop :=
  match p with
  | Act a k =>
      if is_alloc a then
        match n with
        | O => False
        | S n' => forall x, allocs_at_most n' (k x)
        end
      else forall x, allocs_at_most n (k x)
  | _ => True
  end.

End Allocations.

(** ** Producers in flight *)

(** [merge wss l]: [l] is the lists [wss] shuffled together, each list
    keeping its order. *)
Inductive merge {A : Type} : list (list A) -> list A -> Prop :=
| merge_done (wss : list (list A)) :
    Forall (fun ws => ws = []) wss -> merge wss []
| merge_next (wss : list (list A)) (i : nat) (x : A) (ws l : list A) :
    wss !! i = Some (x :: ws) ->
    merge (<[i := ws]> wss) l ->
    merge wss (x :: l).

(** How far a producer is into a call [enqueue(e)].  In [pop], whose
    loop has [k] rounds left after this one: before the load of [top];
    after it, which yielded [u]; after the load of the [refcnt], which
    yielded [t]; after the CAS that took a reference; after the load of
    [u->next], which yielded [nv]; after the CAS of [top].  Then: after a
    [pop] that found the pool empty; with the block [a] in hand; after the
    construction of [elem]; after the store of [nblk->next]; after the
    exchange of [tail], which yielded [p]. *)
Inductive stage (T : Type) : Type :=
| Idle
| Popping (k : nat) (e : T)
| Loaded (k : nat) (u : nat) (e : T)
| Counted (k : nat) (u : nat) (t : Z) (e : T)
| Reffed (k : nat) (u : nat) (e : T)
| Nexted (k : nat) (u : nat) (nv : ptr) (e : T)
| Tried (k : nat) (u : nat) (popped : bool) (e : T)
| Popped (e : T)
| Fresh (a : nat) (e : T)
| Written (a : nat) (e : T)
| Cleared (a : nat) (e : T)
| Swapped (p a : nat).
Arguments Idle {T}.
Arguments Popping {T}.
Arguments Loaded {T}.
Arguments Counted {T}.
Arguments Reffed {T}.
Arguments Nexted {T}.
Arguments Tried {T}.
Arguments Popped {T}.
Arguments Fresh {T}.
Arguments Written {T}.
Arguments Cleared {T}.
Arguments Swapped {T}.

Section InFlight.
Context {T : Type}.

(** The rest of a round of [pop] from each of its accesses on. *)
Definition pop_tried (k : nat) (u : ptr) (popped : bool)
  : prog T (option ptr) :=
  FreeList.release_ref (S k) u ;;
  if popped then Ret (Some u) else FreeList.pop k.

Definition pop_nexted (k : nat) (u nv : ptr) : prog T (option ptr) :=
  popped <- atomic (TopCas u nv) ;;
  pop_tried k u popped.

Definition pop_reffed (k : nat) (u : ptr) : prog T (option ptr) :=
  nv <- atomic (NodeNextLoad u) ;;
  pop_nexted k u nv.

Definition pop_counted (k : nat) (u : ptr) (t : Z) : prog T (option ptr) :=
  ok <- atomic (RefCas u t (wrap (t + 1))) ;;
  if ok then pop_reffed k u else FreeList.pop k.

Definition pop_loaded (k : nat) (u : ptr) : prog T (option ptr) :=
  t <- atomic (RefLoad u) ;;
  if t =? 0 then FreeList.pop k else pop_counted k u t.

(** What [enqueue(e)] does with the result of its [pop]. *)
Definition after_pop (e : T) (r : option ptr) : prog T bool :=
  nblk <- match r with
          | Some n => Ret n
          | None => atomic NewBlock
          end ;;
  MPMCQueue._enqueue nblk e ;;
  Ret true.

(** What is left to run of [enqueue_all fuel (e :: rest)] at each stage
    of [enqueue(e)], and of [enqueue_all fuel rest] between two calls. *)
Definition stage_prog (fuel : nat) (th : stage T * list T) : prog T unit :=
  let k := fun _ : bool => enqueue_all fuel (snd th) in
  match fst th with
  | Idle => enqueue_all fuel (snd th)
  | Popping n e => bind (bind (FreeList.pop n) (after_pop e)) k
  | Loaded n u e => bind (bind (pop_loaded n (Some u)) (after_pop e)) k
  | Counted n u t e =>
      bind (bind (pop_counted n (Some u) t) (after_pop e)) k
  | Reffed n u e => bind (bind (pop_reffed n (Some u)) (after_pop e)) k
  | Nexted n u nv e =>
      bind (bind (pop_nexted n (Some u) nv) (after_pop e)) k
  | Tried n u popped e =>
      bind (bind (pop_tried n (Some u) popped) (after_pop e)) k
  | Popped e => bind (after_pop e None) k
  | Fresh a e =>
      bind (MPMCQueue._enqueue (Some a) e ;; Ret true) k
  | Written a e =>
      bind (atomic (BlockNextStore (Some a) None) ;;
            prev <- atomic (TailExchange (Some a)) ;;
            atomic (BlockNextStore prev (Some a)) ;;
            Ret true) k
  | Cleared a e =>
      bind (prev <- atomic (TailExchange (Some a)) ;;
            atomic (BlockNextStore prev (Some a)) ;;
            Ret true) k
  | Swapped p a =>
      bind (atomic (BlockNextStore (Some p) (Some a)) ;; Ret true) k
  end.

(** The values a producer has yet to put behind the tail. *)
Definition remaining (th : stage T * list T) : list T :=
  match fst th with
  | Idle | Swapped _ _ => snd th
  | Popping _ e | Loaded _ _ e | Counted _ _ _ e | Reffed _ _ e
  | Nexted _ _ _ e | Tried _ _ _ e | Popped e | Fresh _ e | Written _ e
  | Cleared _ e => e :: snd th
  end.

(** The block a producer has taken from the pool or allocated, and has
    not yet put behind the tail. *)
Definition holds (st : stage T) : option nat :=
  match st with
  | Tried _ u true _ => Some u
  | Fresh a _ | Written a _ | Cleared a _ => Some a
  | _ => None
  end.

(** The block a producer has a reference to. *)
Definition refers (st : stage T) : option nat :=
  match st with
  | Reffed _ u _ | Nexted _ u _ _ | Tried _ u _ _ => Some u
  | _ => None
  end.

(** The block a producer in [pop] has read from [top]. *)
Definition aims (st : stage T) : option nat :=
  match st with
  | Loaded _ u _ | Counted _ u _ _ | Reffed _ u _ | Nexted _ u _ _
  | Tried _ u _ _ => Some u
  | _ => None
  end.

(** The number of references the producers have to block [a]. *)
Fixpoint references (ths : list (stage T * list T)) (a : nat) : nat :=
  match ths with
  | [] => O
  | th :: ths' =>
      if decide (refers (fst th) = Some a) then S (references ths' a)
      else references ths' a
  end.


(** The blocks the queue had when the producers started, [known0], and
    the blocks allocated since, from address [base] on. *)
Definition known (known0 : list nat) (base : nat) (hp : list (block T))
    (a : nat) : Prop :=
  a ∈ known0 \/ (base <= a < length hp)%nat.

(** What a producer at stage [st] relies on: the [Node::next] it has
    read is the block's, the fields it has written are as it wrote them;
    for a producer that has exchanged the tail, [p] and [a] are
    neighbours in the chain. *)
Definition stage_ok (hp : list (block T)) (chain : list nat)
    (st : stage T) : Prop :=
  match st with
  | Nexted _ u nv _ => field node_next hp u = Some nv
  | Written a e => field elem hp a = Some e
  | Cleared a e =>
      field elem hp a = Some e /\ field block_next hp a = Some None
  | Swapped p a =>
      exists j, chain !! j = Some p /\ chain !! S j = Some a
  | _ => True
  end.

(** [in_flight known0 base s d ch cv fl ths]: producers at the stages
    [ths] are running on the memory [s].  The chain is the dummy [d] and
    the blocks [ch], in the order of their exchanges of [tail], with the
    values [cv]; a link of the chain is in place, or its store is what a
    producer does next.  The pool is [fl].  The [refcnt] of a block is 1
    and the references the producers have to it. *)
Record in_flight (known0 : list nat) (base : nat) (s : state T) (d : nat)
    (ch : list nat) (cv : list T) (fl : list nat)
    (ths : list (stage T * list T)) : Prop := {
  fly_head : head s = Some d;
  fly_base : (base <= length (heap s))%nat;
  fly_tail : tail s = last (d :: ch);
  fly_pool : lseg node_next (heap s) (top s) fl None;
  fly_nodup : NoDup (d :: ch ++ fl);
  fly_known : forall a, a ∈ d :: ch ++ fl -> known known0 base (heap s) a;
  fly_refcnt : forall a, known known0 base (heap s) a ->
    field refcnt (heap s) a = Some (1 + Z.of_nat (references ths a));
  fly_bound : Z.of_nat (length ths) + 1 < size_mod;
  fly_elems : Forall2 (fun a v => field elem (heap s) a = Some v) ch cv;
  fly_last :
    exists t, last (d :: ch) = Some t /\
      field block_next (heap s) t = Some None;
  fly_links : forall j p a,
    (d :: ch) !! j = Some p -> (d :: ch) !! S j = Some a ->
    field block_next (heap s) p = Some (Some a) \/
    exists i rest, ths !! i = Some (Swapped p a, rest);
  fly_stages : forall i th,
    ths !! i = Some th -> stage_ok (heap s) (d :: ch) (fst th);
  fly_aims : forall i th u,
    ths !! i = Some th -> aims (fst th) = Some u ->
    known known0 base (heap s) u;
  fly_held : forall i th a,
    ths !! i = Some th -> holds (fst th) = Some a ->
    known known0 base (heap s) a /\ (a ∉ d :: ch ++ fl);
  fly_unique : forall i j thi thj a,
    ths !! i = Some thi -> ths !! j = Some thj ->
    holds (fst thi) = Some a -> holds (fst thj) = Some a -> i = j
}.

End InFlight.

(** ** More scenarios *)

Module Instance.

(** A pool that holds block 0, and two blocks outside it. *)
Definition small_pool : state Z :=
  State [new_block; new_block; new_block] (Some 0%nat) None None.

(** One block, outside the pool; a thread that pushes it and a thread
    that pops. *)
Definition push_and_pop : config Z unit :=
  Config (State [new_block] None None None)
    [FreeList.push 1 (Some 0%nat) ;; Ret tt; FreeList.pop 2 ;; Ret tt].

(** The pusher up to its CAS of [top], then three accesses of the
    popper. *)
Definition stalled_push : list (nat * bool) :=
  repeat (0%nat, false) 4 ++ repeat (1%nat, false) 3.

(** A queue that holds 5, with one reference to its head block
    outstanding. *)
Definition referenced_head : state Z :=
  State [Block None 2 0 (Some 1%nat); Block None 1 5 None]
    None (Some 0%nat) (Some 1%nat).

(** A pool whose top block has two references outstanding. *)
Definition referenced_top : state Z :=
  State [Block None 3 0 None] (Some 0%nat) None None.

(** Calls of every kind. *)
Definition session : list (request Z) :=
  [TryEnqueue 1; Enqueue 2; Enqueue 3; TryDequeue; Rewind 9;
   ConsumerTryDequeue; TryEnqueue 4; TryDequeue; TryDequeue; TryDequeue;
   ConsumerTryDequeue].

(** Two producers on [Scenario.recycled_dummy], whose pool holds blocks
    0 and 1: thread 0 enqueues 1 and 3, thread 1 enqueues 2. *)
Definition two_producers : config Z unit :=
  Config Scenario.recycled_dummy [enqueue_all 3 [1; 3]; enqueue_all 3 [2]].

(** Both threads load [top] and the [refcnt] of block 0, and thread 0
    takes its reference first. *)
Definition contention : list (nat * nat) :=
  [(1, 1); (0, 2); (1, 1); (0, 1)]%nat.

(** Then the CAS of thread 1 fails; thread 0 pops block 0; thread 1 goes
    round again and pops block 1; [enqueue(1)] and [enqueue(2)] link
    their blocks; [enqueue(3)] finds the pool empty and allocates. *)
Definition turns : list (nat * bool) :=
  Scenario.steps (contention ++ [(1, 1); (0, 3); (1, 6); (0, 4); (1, 4); (0, 6)]%nat).

(** The configuration a schedule leads to. *)
Definition after {R} (sched : list (nat * bool)) (c : config Z R)
  : config Z R :=
  default c (crun sched c).

End Instance.


(** * Properties *)

Arguments FreeList.release_ref : simpl never.
Arguments FreeList.push : simpl never.

Section Basics.
Context {T : Type} `{ValueInit T}.

Lemma exec_bind {A B} (p : prog T A) (f : A -> prog T B) o s :
  exec (bind p f) o s =
  match exec p o s with
  | Returned r o' s' => exec (f r) o' s'
  | Undefined => Undefined
  | OutOfFuel => OutOfFuel
  end.
Proof.
  revert o s. induction p as [r | X a k IH |]; intros o s; cbn; try reflexivity.
  destruct (perform a _ s) as [[x s'] |]; [apply IH | reflexivity].
Qed.

Lemma ptr_eqb_refl (p : ptr) : ptr_eqb p p = true.
Proof. destruct p; cbn; [apply Nat.eqb_refl | reflexivity]. Qed.

Lemma size_mod_val : size_mod = 18446744073709551616.
Proof. reflexivity. Qed.

(** A reference taken with [t + 1] and given back with [fetch_sub]. *)
Lemma wrap_bump_release t :
  0 <= t < size_mod -> wrap (wrap (t + 1) - 1) = t.
Proof.
  intros Ht. unfold wrap. rewrite size_mod_val in *.
  destruct (decide (t = 18446744073709551615)) as [-> | Hne].
  - reflexivity.
  - rewrite (Z.mod_small (t + 1)) by lia.
    replace (t + 1 - 1) with t by lia. apply Z.mod_small. lia.
Qed.

Lemma wrap_bump_not_last t :
  0 < t < size_mod -> (wrap (t + 1) =? 1) = false.
Proof.
  intros Ht. apply Z.eqb_neq. unfold wrap. rewrite size_mod_val in *.
  destruct (decide (t = 18446744073709551615)) as [-> | Hne].
  - discriminate.
  - rewrite Z.mod_small by lia. lia.
Qed.

(** *** Composing runs *)

Lemma returns_ret {R} (r : R) o s : returns (Ret r) o s r s.
Proof. exists o. split; [lia | reflexivity]. Qed.

Lemma returns_bind {A B} (p : prog T A) (f : A -> prog T B) o s r s1 r' s' :
  returns p o s r s1 ->
  (forall o1, (length o1 <= length o)%nat -> returns (f r) o1 s1 r' s') ->
  returns (bind p f) o s r' s'.
Proof.
  intros (o1 & Hlen & Hp) Hf.
  destruct (Hf o1 Hlen) as (o2 & Hlen2 & Hfr).
  exists o2. split; [lia |]. by rewrite exec_bind, Hp.
Qed.

Lemma returns_atomic {X} (a : action T X) o s x s' :
  weak_cas a = false ->
  perform a false s = Some (x, s') ->
  returns (atomic a) o s x s'.
Proof.
  intros Hw Hp. exists o. split; [lia |]. cbn. by rewrite Hw, Hp.
Qed.

End Basics.

(** *** The free list on an arbitrary memory *)

Section FreeListSpec.
Context {T : Type} `{ValueInit T}.
Import FreeList.

Lemma release_loop_spec o : forall fuel s a b,
  heap s !! a = Some b ->
  (length o < fuel)%nat ->
  returns (release_loop fuel (Some a)) o s tt (pushed s a b).
Proof.
  unfold returns, pushed.
  induction o as [| spur o IH]; intros fuel [hp tp hd tl] a b Hb Hfuel;
    cbn in Hb; (destruct fuel as [| fuel]; [cbn in Hfuel; lia |]).
  - exists []. split; [done |]. cbn.
    rewrite Hb. cbn. rewrite ptr_eqb_refl. cbn.
    rewrite list_lookup_insert_eq by (by eapply lookup_lt_Some).
    cbn. by rewrite list_insert_insert_eq.
  - cbn. rewrite Hb. cbn. destruct spur; cbn.
    + destruct (IH fuel (State (<[a := set_node_next tp b]> hp) tp hd tl)
                  a (set_node_next tp b)) as (o' & Hlen & Hex).
      { apply list_lookup_insert_eq. by eapply lookup_lt_Some. }
      { cbn in Hfuel. lia. }
      exists o'. split; [lia |]. cbn in Hex. rewrite Hex.
      by rewrite list_insert_insert_eq.
    + exists o. split; [lia |]. rewrite ptr_eqb_refl. cbn.
      rewrite list_lookup_insert_eq by (by eapply lookup_lt_Some).
      cbn. by rewrite list_insert_insert_eq.
Qed.

Lemma release_ref_spec o fuel s a b :
  heap s !! a = Some b ->
  (length o < fuel)%nat ->
  returns (release_ref fuel (Some a)) o s tt
    (if refcnt b =? 1 then pushed s a b else dropped s a b).
Proof.
  intros Hb Hfuel. unfold release_ref.
  destruct (refcnt b =? 1) eqn:Hone.
  - destruct (release_loop_spec o fuel (dropped s a b) a
                (Block (node_next b) (wrap (refcnt b - 1)) (elem b)
                   (block_next b))) as (o' & Hlen & Hex).
    { destruct s; cbn in *. apply list_lookup_insert_eq.
      by eapply lookup_lt_Some. }
    { done. }
    exists o'. split; [done |].
    destruct s as [hp tp hd tl]; unfold pushed, dropped in *; cbn in *.
    rewrite Hb. cbn. rewrite Hone. cbn. rewrite Hex.
    by rewrite list_insert_insert_eq.
  - exists o. split; [lia |].
    destruct s as [hp tp hd tl]; cbn in *. rewrite Hb. cbn.
    by rewrite Hone.
Qed.

Lemma pop_spec_none o fuel s :
  top s = None ->
  (length o < fuel)%nat ->
  returns (pop fuel) o s None s.
Proof.
  intros Htop Hfuel. destruct fuel as [| fuel]; [lia |].
  exists o. split; [lia |]. cbn. by rewrite Htop.
Qed.

(** Giving back a reference that was taken with a CAS [t -> t + 1] on a
    live block restores the memory. *)
Lemma release_after_bump o fuel hp tp hd tl u nx t e qn :
  hp !! u = Some (Block nx t e qn) ->
  0 < t < size_mod ->
  (length o < fuel)%nat ->
  returns (release_ref fuel (Some u)) o
    (State (<[u := Block nx (wrap (t + 1)) e qn]> hp) tp hd tl) tt
    (State hp tp hd tl).
Proof.
  intros Hb Ht Hfuel.
  assert (Hlt : (u < length hp)%nat) by (by eapply lookup_lt_Some).
  destruct (release_ref_spec o fuel
              (State (<[u := Block nx (wrap (t + 1)) e qn]> hp) tp hd tl) u
              (Block nx (wrap (t + 1)) e qn)) as (o2 & Hlen2 & Hex);
    [by apply list_lookup_insert_eq | done |].
  exists o2. split; [done |]. rewrite Hex. cbn.
  rewrite (wrap_bump_not_last t Ht). unfold dropped. cbn.
  rewrite (wrap_bump_release t) by lia.
  by rewrite list_insert_insert_eq, list_insert_id.
Qed.

Lemma pop_spec_some o : forall fuel s u b,
  top s = Some u ->
  heap s !! u = Some b ->
  0 < refcnt b < size_mod ->
  (length o < fuel)%nat ->
  returns (pop fuel) o s (Some (Some u))
    (State (heap s) (node_next b) (head s) (tail s)).
Proof.
  induction o as [o IH] using (induction_ltof1 _ (@length bool)).
  unfold ltof in IH.
  intros fuel [hp tp hd tl] u [nx t e qn] Htop Hb Ht Hfuel. cbn in *. subst tp.
  destruct fuel as [| fuel]; [lia |].
  assert (Hz : (t =? 0) = false) by (apply Z.eqb_neq; lia).
  assert (Hlt : (u < length hp)%nat) by (by eapply lookup_lt_Some).
  pose proof (fun o1 tp1 => release_after_bump o1 (S fuel) hp tp1 hd tl
                              u nx t e qn Hb Ht) as Hrel.
  set (hp1 := <[u := Block nx (wrap (t + 1)) e qn]> hp) in *.
  assert (Hb1 : hp1 !! u = Some (Block nx (wrap (t + 1)) e qn))
    by (by apply list_lookup_insert_eq).
  unfold returns. cbn. rewrite Hb. cbn. rewrite Hz. cbn. rewrite Hb. cbn.
  rewrite Z.eqb_refl.
  destruct o as [| [|] o]; cbn.
  - (* no spurious failure left *)
    fold hp1. rewrite Hb1. cbn. rewrite Nat.eqb_refl. cbn.
    rewrite exec_bind.
    destruct (Hrel [] nx ltac:(cbn; lia)) as (o2 & Hlen2 & ->).
    exists o2. split; [done |]. reflexivity.
  - (* the refcnt CAS fails spuriously *)
    destruct (IH o ltac:(cbn; lia) fuel (State hp (Some u) hd tl) u
                (Block nx t e qn) eq_refl Hb Ht ltac:(cbn in Hfuel; lia))
      as (o2 & Hlen2 & Hex).
    exists o2. split; [lia |]. exact Hex.
  - fold hp1. rewrite Hb1. cbn.
    destruct o as [| [|] o]; cbn.
    + rewrite Nat.eqb_refl. cbn. rewrite exec_bind.
      destruct (Hrel [] nx ltac:(cbn; lia)) as (o2 & Hlen2 & ->).
      exists o2. split; [cbn in *; lia |]. reflexivity.
    + (* the top CAS fails spuriously *)
      rewrite exec_bind.
      destruct (Hrel o (Some u) ltac:(cbn in *; lia)) as (o2 & Hlen2 & ->).
      destruct (IH o2 ltac:(cbn; lia) fuel (State hp (Some u) hd tl) u
                  (Block nx t e qn) eq_refl Hb Ht ltac:(cbn in Hfuel; lia))
        as (o3 & Hlen3 & Hex).
      exists o3. split; [cbn; lia |]. exact Hex.
    + rewrite Nat.eqb_refl. cbn. rewrite exec_bind.
      destruct (Hrel o nx ltac:(cbn in *; lia)) as (o2 & Hlen2 & ->).
      exists o2. split; [cbn in *; lia |]. reflexivity.
Qed.

End FreeListSpec.

(** *** The queues on an arbitrary memory *)

Section QueueSpec.
Context {T : Type} `{ValueInit T}.
Import FreeList.

Lemma push_spec o fuel s a b :
  heap s !! a = Some b ->
  (length o < fuel)%nat ->
  returns (push fuel (Some a)) o s true
    (if refcnt b =? 1 then pushed s a b else dropped s a b).
Proof.
  intros Hb Hfuel. unfold push.
  eapply returns_bind; [by apply release_ref_spec |].
  intros o1 _. apply returns_ret.
Qed.

Lemma mpmc_try_dequeue_empty o : forall fuel e s d b,
  head s = Some d ->
  heap s !! d = Some b ->
  0 < refcnt b < size_mod ->
  block_next b = None ->
  (length o < fuel)%nat ->
  returns (MPMCQueue.try_dequeue fuel e) o s (false, e) s.
Proof.
  induction o as [| spur o IH];
    intros fuel e [hp tp hd tl] d [nx t x qn] Hhd Hb Ht Hqn Hfuel;
    cbn in *; subst hd qn; (destruct fuel as [| fuel]; [lia |]).
  all: assert (Hz : (t =? 0) = false) by (apply Z.eqb_neq; lia).
  all: pose proof (fun o1 => release_after_bump o1 (S fuel) hp tp (Some d) tl
                               d nx t x None Hb Ht) as Hrel.
  all: assert (Hlt : (d < length hp)%nat) by (by eapply lookup_lt_Some).
  all: unfold returns; cbn; rewrite Hb; cbn; rewrite Hz; cbn; rewrite Hb; cbn;
    rewrite Z.eqb_refl; cbn.
  - rewrite list_lookup_insert_eq by done. cbn. rewrite exec_bind.
    destruct (Hrel [] ltac:(cbn; lia)) as (o2 & Hlen2 & ->).
    exists o2. split; [done |]. reflexivity.
  - destruct spur; cbn.
    + destruct (IH fuel e (State hp tp (Some d) tl) d (Block nx t x None)
                  eq_refl Hb Ht eq_refl ltac:(lia)) as (o2 & Hlen2 & Hex).
      exists o2. split; [lia |]. exact Hex.
    + rewrite list_lookup_insert_eq by done. cbn. rewrite exec_bind.
      destruct (Hrel o ltac:(lia)) as (o2 & Hlen2 & ->).
      exists o2. split; [lia |]. reflexivity.
Qed.

Lemma mpmc_try_dequeue_some o : forall fuel e s d b n bn,
  head s = Some d ->
  heap s !! d = Some b ->
  0 < refcnt b < size_mod ->
  block_next b = Some n ->
  heap s !! n = Some bn ->
  (length o < fuel)%nat ->
  returns (MPMCQueue.try_dequeue fuel e) o s (true, elem bn)
    (let s1 := State (heap s) (top s) (Some n) (tail s) in
     if refcnt b =? 1 then pushed s1 d b else dropped s1 d b).
Proof.
  induction o as [o IH] using (induction_ltof1 _ (@length bool)).
  unfold ltof in IH.
  intros fuel e [hp tp hd tl] d [nx t x qn] n bn Hhd Hb Ht Hqn Hbn Hfuel.
  cbn in *. subst hd qn. destruct fuel as [| fuel]; [lia |].
  assert (Hz : (t =? 0) = false) by (apply Z.eqb_neq; lia).
  assert (Hlt : (d < length hp)%nat) by (by eapply lookup_lt_Some).
  pose proof (fun o1 hd1 => release_after_bump o1 (S fuel) hp tp hd1 tl
                              d nx t x (Some n) Hb Ht) as Hrel.
  set (hp1 := <[d := Block nx (wrap (t + 1)) x (Some n)]> hp) in *.
  assert (Hb1 : hp1 !! d = Some (Block nx (wrap (t + 1)) x (Some n)))
    by (by apply list_lookup_insert_eq).
  assert (Hbn1 : exists bn1, hp1 !! n = Some bn1 /\ elem bn1 = elem bn).
  { destruct (decide (d = n)) as [<- | Hne].
    - eexists. split; [exact Hb1 |]. rewrite Hb in Hbn. by inversion Hbn.
    - exists bn. unfold hp1. by rewrite list_lookup_insert_ne. }
  destruct Hbn1 as (bn1 & Hbn1 & Helem).
  assert (Hdone : forall o1, (length o1 < S fuel)%nat ->
            exists o2, (length o2 <= length o1)%nat /\
              exec (release_ref (S fuel) (Some d);;
                    push (S fuel) (Some d);; Ret (true, elem bn1)) o1
                (State hp1 tp (Some n) tl) =
              Returned (true, elem bn) o2
                (if t =? 1 then pushed (State hp tp (Some n) tl) d
                                  (Block nx t x (Some n))
                 else dropped (State hp tp (Some n) tl) d
                        (Block nx t x (Some n)))).
  { intros o1 Hlen1. rewrite exec_bind.
    destruct (Hrel o1 (Some n) Hlen1) as (o2 & Hlen2 & ->).
    rewrite exec_bind.
    destruct (push_spec o2 (S fuel) (State hp tp (Some n) tl) d
                (Block nx t x (Some n)) Hb ltac:(lia)) as (o3 & Hlen3 & ->).
    exists o3. split; [lia |]. cbn. by rewrite Helem. }
  unfold returns. cbn. rewrite Hb. cbn. rewrite Hz. cbn. rewrite Hb. cbn.
  rewrite Z.eqb_refl.
  destruct o as [| [|] o]; cbn.
  - fold hp1. rewrite Hb1. cbn. rewrite Hbn1. cbn. rewrite Nat.eqb_refl. cbn.
    destruct (Hdone [] ltac:(cbn; lia)) as (o2 & Hlen2 & ->).
    by exists o2.
  - (* the refcnt CAS fails spuriously *)
    destruct (IH o ltac:(cbn; lia) fuel e (State hp tp (Some d) tl) d
                (Block nx t x (Some n)) n bn eq_refl Hb Ht eq_refl Hbn
                ltac:(cbn in Hfuel; lia)) as (o2 & Hlen2 & Hex).
    exists o2. split; [lia |]. exact Hex.
  - fold hp1. rewrite Hb1. cbn. rewrite Hbn1. cbn.
    destruct o as [| [|] o]; cbn.
    + rewrite Nat.eqb_refl. cbn.
      destruct (Hdone [] ltac:(cbn; lia)) as (o2 & Hlen2 & ->).
      exists o2. split; [cbn in *; lia | done].
    + (* the head CAS fails spuriously *)
      rewrite exec_bind.
      destruct (Hrel o (Some d) ltac:(cbn in *; lia)) as (o2 & Hlen2 & ->).
      destruct (IH o2 ltac:(cbn; lia) fuel (elem bn1)
                  (State hp tp (Some d) tl) d
                  (Block nx t x (Some n)) n bn eq_refl Hb Ht eq_refl Hbn
                  ltac:(cbn in Hfuel; lia)) as (o3 & Hlen3 & Hex).
      exists o3. split; [cbn; lia |]. exact Hex.
    + rewrite Nat.eqb_refl. cbn.
      destruct (Hdone o ltac:(cbn in *; lia)) as (o2 & Hlen2 & ->).
      exists o2. split; [cbn in *; lia | done].
Qed.

End QueueSpec.


(** *** A quiet run is an interleaving of one thread *)

Section OneThread.
Context {T : Type} `{ValueInit T}.

Lemma exec_as_schedule {R} (p : prog T R) : forall o s r o' s',
  exec p o s = Returned r o' s' ->
  exists sched, Forall (fun step => fst step = 0%nat) sched /\
    crun sched (Config s [p]) = Some (Config s' [Ret r]).
Proof.
  induction p as [r0 | X a k IH |]; intros o s r o' s' Hex; cbn in Hex.
  - injection Hex as -> _ ->. by exists [].
  - destruct (perform a _ s) as [[x s1] |] eqn:Hp; [| done].
    destruct (IH x _ _ _ _ _ Hex) as (sched & Hall & Hrun).
    eexists ((0%nat, _) :: sched). split; [by constructor |].
    cbn. unfold cstep. cbn. rewrite Hp. exact Hrun.
  - done.
Qed.

End OneThread.

(** *** What one thread sees, whatever the others do *)

Section SeenFacts.
Context {T : Type} `{ValueInit T}.

Lemma run_bind {A B} (p : prog T A) (f : A -> prog T B) : forall tr r,
  run (bind p f) tr r <->
  exists tr1 tr2 r1, tr = tr1 ++ tr2 /\ run p tr1 r1 /\ run (f r1) tr2 r.
Proof.
  induction p as [r0 | X a k IH |]; intros tr r; cbn.
  - split.
    + intros Hf. by exists [], tr, r0.
    + by intros (tr1 & tr2 & r1 & -> & [-> ->] & Hf).
  - split.
    + intros (x & tr' & -> & (tr1 & tr2 & r1 & -> & Hp & Hf)%IH).
      exists (Obs a x :: tr1), tr2, r1. split; [done |]. split; [| done].
      by exists x, tr1.
    + intros (tr1 & tr2 & r1 & -> & (x & tr' & -> & Hp) & Hf).
      exists x, (tr' ++ tr2). split; [done |]. apply IH.
      by exists tr', tr2, r1.
  - split; [done | by intros (? & ? & ? & _ & [] & _)].
Qed.

(** A program run alone sees a run. *)
Lemma exec_run {R} (p : prog T R) : forall o s r o' s',
  exec p o s = Returned r o' s' -> exists tr, run p tr r.
Proof.
  induction p as [r0 | X a k IH |]; intros o s r o' s' Hex; cbn in Hex.
  - injection Hex as -> _ _. by exists [].
  - destruct (perform a _ s) as [[x s1] |]; [| done].
    destruct (IH x _ _ _ _ _ Hex) as (tr & Hrun).
    exists (Obs a x :: tr). cbn. by exists x, tr.
  - done.
Qed.

(** So does a thread that returns in an interleaving. *)
Lemma crun_run {R} sched : forall (c c' : config T R) i p r,
  crun sched c = Some c' ->
  threads c !! i = Some p ->
  threads c' !! i = Some (Ret r) ->
  exists tr, run p tr r.
Proof.
  induction sched as [| [j spur] sched IH]; intros c c' i p r Hrun Hp Hr;
    cbn in Hrun.
  - injection Hrun as <-. rewrite Hp in Hr. injection Hr as ->. by exists [].
  - destruct (cstep j spur c) as [c1 |] eqn:Hstep; [| done].
    unfold cstep in Hstep.
    destruct (threads c !! j) as [[r0 | X a k |] |] eqn:Hj; try done.
    destruct (perform a spur (mem c)) as [[x s1] |]; [| done].
    injection Hstep as <-.
    destruct (decide (j = i)) as [-> | Hne].
    + rewrite Hp in Hj. injection Hj as ->.
      destruct (IH _ c' i (k x) r Hrun) as (tr & Htr); [| done |].
      * cbn. apply list_lookup_insert_eq. by eapply lookup_lt_Some.
      * exists (Obs a x :: tr). cbn. by exists x, tr.
    + eapply (IH _ c' i p r Hrun); [| done].
      cbn. by rewrite list_lookup_insert_ne.
Qed.

Lemma last_block_next_app (tr1 tr2 : list (observation T)) :
  last_block_next (tr1 ++ tr2) =
  match last_block_next tr2 with
  | Some p => Some p
  | None => last_block_next tr1
  end.
Proof.
  induction tr1 as [| [X a x] tr1 IH]; cbn.
  - by destruct (last_block_next tr2).
  - rewrite IH. by destruct (last_block_next tr2).
Qed.

(** [release_ref], whatever it sees: a [fetch_sub], and when that yields 1
    the loop. *)
Lemma release_loop_run fuel u : forall tr r,
  run (FreeList.release_loop (T:=T) fuel u) tr r -> push_trace u tr.
Proof.
  induction fuel as [| fuel IH]; intros tr r; cbn; [done |].
  intros (t & tr1 & -> & [] & tr2 & -> & ok & tr3 & -> & Hrest).
  destruct ok.
  - cbn in Hrest. destruct Hrest as ([] & tr4 & -> & -> & _). constructor.
  - constructor. by eapply IH.
Qed.

Lemma release_ref_run fuel u tr r :
  run (FreeList.release_ref (T:=T) fuel u) tr r ->
  exists old, (old <> 1 /\ tr = [Obs (RefFetchSub u) old]) \/
    (old = 1 /\ exists tr', tr = Obs (RefFetchSub u) 1 :: tr' /\
       push_trace u tr').
Proof.
  unfold FreeList.release_ref. cbn.
  intros (old & tr1 & -> & Hrest). exists old.
  destruct (old =? 1) eqn:Hone; cbn in Hrest.
  - apply Z.eqb_eq in Hone as ->. right. split; [done |].
    exists tr1. split; [done |]. by eapply release_loop_run.
  - apply Z.eqb_neq in Hone. left. by destruct Hrest as [-> _].
Qed.

Lemma push_trace_no_block_next u (tr : list (observation T)) :
  push_trace u tr -> last_block_next tr = None.
Proof. induction 1 as [t | t tr _ IH]; cbn; [done | by rewrite IH]. Qed.

Lemma release_ref_no_block_next fuel u tr r :
  run (FreeList.release_ref (T:=T) fuel u) tr r -> last_block_next tr = None.
Proof.
  intros (old & [[_ ->] | [_ (tr' & -> & Htr)]])%release_ref_run; [done |].
  cbn. by rewrite (push_trace_no_block_next u tr').
Qed.

(** The MPMC [try_dequeue], whatever it sees, returns [false] exactly when
    its last load of [h->next] yielded null. *)
Lemma mpmc_try_dequeue_run fuel : forall (e : T) tr b x,
  run (MPMCQueue.try_dequeue fuel e) tr (b, x) ->
  exists nh, last_block_next tr = Some nh /\ (b = false <-> nh = None).
Proof.
  induction fuel as [| fuel IH]; intros e tr b x; cbn; [done |].
  intros (h & tr1 & -> & t & tr2 & -> & Hrest).
  assert (Hlift : forall (tr' : list (observation T)) nh,
            last_block_next tr' = Some nh ->
            last_block_next (Obs HeadLoad h :: Obs (RefLoad h) t :: tr') =
            Some nh).
  { intros tr' nh Hnh. cbn. by rewrite Hnh. }
  destruct (t =? 0).
  { destruct (IH _ _ _ _ Hrest) as (nh & Hnh & Hiff).
    exists nh. split; [by apply Hlift | done]. }
  cbn in Hrest. destruct Hrest as (ok & tr3 & -> & Hrest).
  assert (Hlift2 : forall (tr' : list (observation T)) nh,
            last_block_next tr' = Some nh ->
            last_block_next (Obs HeadLoad h :: Obs (RefLoad h) t ::
              Obs (RefCas h t (wrap (t + 1))) ok :: tr') = Some nh).
  { intros tr' nh Hnh. cbn. by rewrite Hnh. }
  destruct ok; cbn in Hrest.
  2: { destruct (IH _ _ _ _ Hrest) as (nh & Hnh & Hiff).
       exists nh. split; [by apply Hlift2 | done]. }
  destruct Hrest as (nh & tr4 & -> & Hrest).
  destruct nh as [n |]; cbn in Hrest.
  - destruct Hrest as (e' & tr5 & -> & moved & tr6 & -> & Hrest).
    destruct moved.
    + apply run_bind in Hrest
        as (ta & tb & [] & -> & Hrel%release_ref_no_block_next & Hrest).
      apply run_bind in Hrest as (tc & td & r1 & -> & Hpush & [-> [= -> ->]]).
      apply run_bind in Hpush
        as (te & tf & [] & -> & Hrel2%release_ref_no_block_next & [-> _]).
      exists (Some n). split; [| done].
      apply Hlift2. cbn.
      rewrite !last_block_next_app, Hrel, Hrel2. done.
    + apply run_bind in Hrest as (ta & tb & [] & -> & Hrel & Hrest).
      destruct (IH _ _ _ _ Hrest) as (nh & Hnh & Hiff).
      exists nh. split; [| done]. apply Hlift2. cbn.
      by rewrite last_block_next_app, Hnh.
  - apply run_bind in Hrest
      as (ta & tb & [] & -> & Hrel%release_ref_no_block_next & [-> [= -> ->]]).
    exists None. split; [| done]. apply Hlift2. cbn.
    rewrite last_block_next_app, Hrel. done.
Qed.

Lemma mpsc_try_dequeue_run fuel (e : T) tr b x :
  run (MPSCQueue.try_dequeue fuel e) tr (b, x) ->
  exists nh, last_block_next tr = Some nh /\ (b = false <-> nh = None).
Proof.
  unfold MPSCQueue.try_dequeue. cbn.
  intros (h & tr1 & -> & nh & tr2 & -> & Hrest).
  exists nh. destruct nh as [n |]; cbn in Hrest.
  - destruct Hrest as (e' & tr3 & -> & [] & tr4 & -> & Hrest).
    apply run_bind in Hrest as (ta & tb & r1 & -> & Hpush & [-> [= -> ->]]).
    apply run_bind in Hpush
      as (tc & td & [] & -> & Hrel%release_ref_no_block_next & [-> _]).
    split; [| done]. cbn. rewrite !last_block_next_app, Hrel. done.
  - destruct Hrest as [-> [= -> ->]]. done.
Qed.

Lemma ends_on_empty_pool_app (tr1 tr2 : list (observation T)) :
  tr2 <> [] -> ends_on_empty_pool (tr1 ++ tr2) = ends_on_empty_pool tr2.
Proof.
  intros Hne. induction tr1 as [| ob tr1 IH]; [done |].
  cbn [app ends_on_empty_pool]. rewrite IH.
  destruct (tr1 ++ tr2) eqn:Happ; [| done].
  by apply app_eq_nil in Happ as [_ ->].
Qed.

Lemma exchanges_app (tr1 tr2 : list (observation T)) :
  exchanges (tr1 ++ tr2) = (exchanges tr1 + exchanges tr2)%nat.
Proof.
  induction tr1 as [| [X a x] tr1 IH]; [done |].
  cbn. rewrite IH. by destruct a.
Qed.

Lemma push_trace_quiet u (tr : list (observation T)) :
  push_trace u tr ->
  tr <> [] /\ ends_on_empty_pool tr = false /\ exchanges tr = 0%nat.
Proof.
  induction 1 as [t | t tr Htr (Hne & Hend & Hex)]; [done |].
  split; [done |]. split; [| done].
  change (ends_on_empty_pool ([Obs TopLoad t; Obs (NodeNextStore u t) tt;
            Obs (TopCas t u) false] ++ tr) = false).
  by rewrite ends_on_empty_pool_app.
Qed.

Lemma release_ref_quiet fuel u tr r :
  run (FreeList.release_ref (T:=T) fuel u) tr r ->
  tr <> [] /\ ends_on_empty_pool tr = false /\ exchanges tr = 0%nat.
Proof.
  intros (old & [[_ ->] | [_ (tr' & -> & Htr)]])%release_ref_run; [done |].
  destruct (push_trace_quiet u tr' Htr) as (Hne & Hend & Hex).
  split; [done |]. split; [| done].
  change (ends_on_empty_pool ([Obs (RefFetchSub u) 1] ++ tr') = false).
  by rewrite ends_on_empty_pool_app.
Qed.

(** [pop], whatever it sees, returns [false] exactly when the last thing
    it saw is a null [top]. *)
Lemma pop_run fuel : forall tr r,
  run (FreeList.pop (T:=T) fuel) tr r ->
  tr <> [] /\ exchanges tr = 0%nat /\
  (r = None <-> ends_on_empty_pool tr = true).
Proof.
  induction fuel as [| fuel IH]; intros tr r; cbn; [done |].
  intros (u & tr1 & -> & Hrest). destruct u as [n |]; cbn in Hrest.
  2: { destruct Hrest as [-> ->]. done. }
  destruct Hrest as (t & tr2 & -> & Hrest).
  assert (Hlift : forall tr' : list (observation T),
            tr' <> [] -> exchanges tr' = 0%nat ->
            (r = None <-> ends_on_empty_pool tr' = true) ->
            Obs TopLoad (Some n) :: Obs (RefLoad (Some n)) t :: tr' <> [] /\
            exchanges (Obs TopLoad (Some n) :: Obs (RefLoad (Some n)) t :: tr')
              = 0%nat /\
            (r = None <->
             ends_on_empty_pool
               (Obs TopLoad (Some n) :: Obs (RefLoad (Some n)) t :: tr')
               = true)).
  { intros tr' Hne Hex Hiff. split; [done |]. split; [done |].
    change (r = None <->
            ends_on_empty_pool ([Obs TopLoad (Some n);
              Obs (RefLoad (Some n)) t] ++ tr') = true).
    by rewrite ends_on_empty_pool_app. }
  destruct (t =? 0).
  { destruct (IH _ _ Hrest) as (Hne & Hex & Hiff). by apply Hlift. }
  cbn in Hrest. destruct Hrest as (ok & tr3 & -> & Hrest).
  destruct ok; cbn in Hrest.
  2: { destruct (IH _ _ Hrest) as (Hne & Hex & Hiff).
       apply Hlift; [done | done |].
       change (r = None <->
               ends_on_empty_pool
                 ([Obs (RefCas (Some n) t (wrap (t + 1))) false] ++ tr3)
                 = true).
       by rewrite ends_on_empty_pool_app. }
  destruct Hrest as (nv & tr4 & -> & popped & tr5 & -> & Hrest).
  apply run_bind in Hrest as (ta & tb & [] & -> & Hrel & Hrest).
  destruct (release_ref_quiet _ _ _ _ Hrel) as (Hne & Hend & Hex).
  set (pre := [Obs (RefCas (Some n) t (wrap (t + 1))) true;
               Obs (NodeNextLoad (Some n)) nv;
               Obs (TopCas (Some n) nv) popped] : list (observation T)).
  destruct popped.
  - destruct Hrest as [-> ->]. rewrite app_nil_r.
    apply Hlift; [done | done |].
    change (Some (Some n) = None <-> ends_on_empty_pool (pre ++ ta) = true).
    rewrite ends_on_empty_pool_app, Hend by done. done.
  - destruct (IH _ _ Hrest) as (Hne' & Hex' & Hiff).
    apply Hlift.
    + done.
    + change (exchanges (pre ++ ta ++ tb) = 0%nat).
      rewrite !exchanges_app, Hex, Hex'. done.
    + change (r = None <-> ends_on_empty_pool (pre ++ ta ++ tb) = true).
      rewrite !ends_on_empty_pool_app; [done | done |].
      intros [_ ?]%app_eq_nil. done.
Qed.

Lemma link_run nblk (e : T) tr r :
  run (MPMCQueue._enqueue nblk e) tr r ->
  tr <> [] /\ ends_on_empty_pool tr = false /\ exchanges tr = 1%nat.
Proof.
  unfold MPMCQueue._enqueue. cbn.
  intros ([] & tr1 & -> & [] & tr2 & -> & prev & tr3 & -> & [] & tr4 & -> &
          -> & _).
  done.
Qed.

(** [try_enqueue], whatever it sees, returns [false] exactly when the last
    thing it saw is a null [top], and then has appended nothing; when it
    returns [true] it has appended one block. *)
Lemma try_enqueue_run fuel (e : T) tr b :
  run (MPMCQueue.try_enqueue fuel e) tr b ->
  (b = false <-> ends_on_empty_pool tr = true) /\
  exchanges tr = (if b then 1 else 0)%nat.
Proof.
  unfold MPMCQueue.try_enqueue.
  intros (tr1 & tr2 & r & -> & Hpop%pop_run & Hrest)%run_bind.
  destruct Hpop as (Hne & Hex & Hiff).
  destruct r as [nblk |].
  - apply run_bind in Hrest as (ta & tb & [] & -> & Henq%link_run & [-> ->]).
    destruct Henq as (Hne' & Hend' & Hex').
    rewrite app_nil_r, exchanges_app, Hex, Hex'.
    rewrite ends_on_empty_pool_app, Hend' by done. done.
  - destruct Hrest as [-> ->]. rewrite app_nil_r.
    split; [| done]. split; [intros _; by apply Hiff | done].
Qed.

(** [enqueue], whatever it sees, returns [true] and has appended one
    block. *)
Lemma enqueue_run fuel (e : T) tr b :
  run (MPMCQueue.enqueue fuel e) tr b ->
  b = true /\ exchanges tr = 1%nat.
Proof.
  unfold MPMCQueue.enqueue.
  intros (tr1 & tr2 & r & -> & Hpop%pop_run & Hrest)%run_bind.
  destruct Hpop as (Hne & Hex & Hiff).
  apply run_bind in Hrest as (ta & tb & nblk & -> & Hget & Hrest).
  apply run_bind in Hrest as (tc & td & [] & -> & Henq%link_run & [-> ->]).
  destruct Henq as (Hne' & Hend' & Hex').
  split; [done |]. rewrite app_nil_r, !exchanges_app, Hex, Hex'.
  destruct r as [n |]; cbn in Hget.
  - by destruct Hget as [-> _].
  - by destruct Hget as (x & tr' & -> & -> & _).
Qed.

End SeenFacts.

(** *** Linked shapes under updates *)

Section ShapeFacts.
Context {T : Type}.
Implicit Types (hp : list (block T)) (l : list nat) (p q : ptr).

Lemma field_insert {X} (f : block T -> X) hp a b' a' :
  (a < length hp)%nat ->
  field f (<[a := b']> hp) a' =
  if decide (a' = a) then Some (f b') else field f hp a'.
Proof.
  intros Hlt. unfold field. destruct (decide (a' = a)) as [-> | Hne].
  - by rewrite list_lookup_insert_eq.
  - by rewrite list_lookup_insert_ne.
Qed.

Lemma field_app_old {X} (f : block T -> X) hp b a :
  (a < length hp)%nat -> field f (hp ++ [b]) a = field f hp a.
Proof. intros Hlt. unfold field. by rewrite lookup_app_l. Qed.

Lemma field_is_Some {X} (f : block T -> X) hp a x :
  field f hp a = Some x -> exists b, hp !! a = Some b /\ f b = x.
Proof.
  unfold field. destruct (hp !! a) as [b |]; cbn; [| done].
  intros [= <-]. by exists b.
Qed.

Lemma field_lt {X} (f : block T -> X) hp a x :
  field f hp a = Some x -> (a < length hp)%nat.
Proof.
  intros (b & Hb & _)%field_is_Some. by eapply lookup_lt_Some.
Qed.

Lemma lseg_ext nxt hp hp' l : forall p q,
  (forall a, a ∈ l -> field nxt hp' a = field nxt hp a) ->
  lseg nxt hp p l q -> lseg nxt hp' p l q.
Proof.
  induction l as [| a l IH]; intros p q Hsame; cbn; [done |].
  intros (-> & p' & Hp' & Hrest). split; [done |]. exists p'. split.
  - rewrite Hsame; [done | apply elem_of_cons; by left].
  - apply IH; [| done]. intros a' Ha'. apply Hsame, elem_of_cons. by right.
Qed.

Lemma lseg_app nxt hp l1 l2 : forall p q,
  lseg nxt hp p (l1 ++ l2) q <->
  exists m, lseg nxt hp p l1 m /\ lseg nxt hp m l2 q.
Proof.
  induction l1 as [| a l1 IH]; intros p q; cbn.
  - split; [intros Hl; by exists p | by intros (m & -> & Hl)].
  - split.
    + intros (-> & p' & Hp' & (m & H1 & H2)%IH). exists m. split; [| done].
      split; [done |]. by exists p'.
    + intros (m & (-> & p' & Hp' & H1) & H2). split; [done |].
      exists p'. split; [done |]. apply IH. by exists m.
Qed.

Lemma lseg_snoc nxt hp l a p q :
  lseg nxt hp p (l ++ [a]) q <->
  lseg nxt hp p l (Some a) /\ field nxt hp a = Some q.
Proof.
  rewrite lseg_app. cbn. split.
  - intros (m & Hl & -> & p' & Hp' & ->). done.
  - intros (Hl & Ha). exists (Some a). split; [done |]. split; [done |].
    by exists q.
Qed.

Lemma Forall2_impl_in {A B} (P Q : A -> B -> Prop) (l : list A) (k : list B) :
  Forall2 P l k ->
  (forall a b, a ∈ l -> P a b -> Q a b) ->
  Forall2 Q l k.
Proof.
  induction 1 as [| a b l k Hab Hlk IH]; intros Himp; constructor.
  - apply Himp; [apply elem_of_cons; by left | done].
  - apply IH. intros a' b' Ha'. apply Himp, elem_of_cons. by right.
Qed.

End ShapeFacts.

(** Membership in the lists of a shape. *)
Ltac mem :=
  repeat first [rewrite elem_of_cons in * | rewrite elem_of_app in *
               | rewrite elem_of_nil in *];
  tauto.



(** *** Quiet states under the effect of each operation *)

Section RepFacts.
Context {T : Type} `{ValueInit T}.
Implicit Types (s : state T) (qs fl : list nat) (vs : list T).

Lemma rep_allocated s d qs vs fl a :
  queue_rep s d qs vs fl -> a ∈ d :: qs ++ fl ->
  exists b, heap s !! a = Some b /\ refcnt b = 1.
Proof.
  intros Hrep Ha. pose proof (rep_refcnt _ _ _ _ _ Hrep) as Href.
  rewrite Forall_forall in Href. by apply field_is_Some, Href.
Qed.

(** Memory changes that the shape does not see. *)
Lemma rep_transfer s s' d qs vs fl :
  queue_rep s d qs vs fl ->
  head s' = head s -> tail s' = tail s -> top s' = top s ->
  (forall a, a ∈ d :: qs ++ fl ->
     field block_next (heap s') a = field block_next (heap s) a /\
     field node_next (heap s') a = field node_next (heap s) a /\
     field elem (heap s') a = field elem (heap s) a /\
     field refcnt (heap s') a = field refcnt (heap s) a) ->
  queue_rep s' d qs vs fl.
Proof.
  intros [Hhd Hch Htl Hel Hpool Hnd Href] Hhd' Htl' Htop' Hsame.
  split.
  - congruence.
  - eapply lseg_ext; [| done]. intros a Ha. apply Hsame. mem.
  - congruence.
  - eapply Forall2_impl_in; [done |].
    intros a v Ha Hav. destruct (Hsame a) as (_ & _ & -> & _); [mem | done].
  - rewrite Htop'. eapply lseg_ext; [| done]. intros a Ha.
    apply Hsame. mem.
  - done.
  - rewrite Forall_forall in *. intros a Ha.
    destruct (Hsame a Ha) as (_ & _ & _ & ->). by apply Href.
Qed.

(** A block outside the shape enters the pool. *)
Lemma rep_push s d qs vs fl a b :
  queue_rep s d qs vs fl ->
  a ∉ d :: qs ++ fl ->
  heap s !! a = Some b ->
  queue_rep (pushed s a b) d qs vs (a :: fl).
Proof.
  intros [Hhd Hch Htl Hel Hpool Hnd Href] Hout Hb.
  assert (Hlt : (a < length (heap s))%nat) by (by eapply lookup_lt_Some).
  assert (Hother : forall {X} (f : block T -> X) a', a' ∈ d :: qs ++ fl ->
            field f (heap (pushed s a b)) a' = field f (heap s) a').
  { intros X f a' Ha'. cbn. rewrite field_insert by done.
    destruct (decide (a' = a)) as [-> | _]; [done | reflexivity]. }
  split; cbn [head tail top pushed].
  - done.
  - eapply lseg_ext; [| done]. intros a' Ha'. apply Hother. mem.
  - done.
  - eapply Forall2_impl_in; [done |]. intros a' v Ha' Hv.
    rewrite Hother; [done | mem].
  - cbn [lseg]. split; [done |]. exists (top s). split.
    + cbn. rewrite field_insert by done. by rewrite decide_True.
    + eapply lseg_ext; [| done]. intros a' Ha'. apply Hother. mem.
  - change (NoDup ((d :: qs) ++ a :: fl)). rewrite <- Permutation_middle.
    apply NoDup_cons. split; [| done]. intros Ha. apply Hout. mem.
  - rewrite Forall_forall in *. intros a' Ha'.
    destruct (decide (a' = a)) as [-> | Hne].
    + cbn. rewrite field_insert by done. by rewrite decide_True.
    + rewrite Hother; [apply Href |]; mem.
Qed.

(** The top of the pool leaves it. *)
Lemma rep_pop s d qs vs u fl :
  queue_rep s d qs vs (u :: fl) ->
  exists b, top s = Some u /\ heap s !! u = Some b /\ refcnt b = 1 /\
    (u ∉ d :: qs ++ fl) /\
    queue_rep (State (heap s) (node_next b) (head s) (tail s)) d qs vs fl.
Proof.
  intros Hrep.
  destruct (rep_allocated s d qs vs (u :: fl) u Hrep) as (b & Hb & Hone);
    [mem |].
  destruct Hrep as [Hhd Hch Htl Hel Hpool Hnd Href].
  cbn in Hpool. destruct Hpool as (Htop & p' & Hp' & Hrest).
  unfold field in Hp'. rewrite Hb in Hp'. simplify_eq/=.
  change (NoDup ((d :: qs) ++ u :: fl)) in Hnd.
  rewrite <- Permutation_middle in Hnd. apply NoDup_cons in Hnd as [Hout Hnd].
  exists b. do 4 (split; [done |]).
  split; cbn [heap head tail top]; try done.
  rewrite Forall_forall in *. intros a Ha. apply Href. mem.
Qed.

(** The head moves to the oldest value's block; the old dummy leaves the
    shape. *)
Lemma rep_advance s d n qs x vs fl :
  queue_rep s d (n :: qs) (x :: vs) fl ->
  exists b bn, heap s !! d = Some b /\ refcnt b = 1 /\
    block_next b = Some n /\ heap s !! n = Some bn /\ elem bn = x /\
    (d ∉ n :: qs ++ fl) /\
    queue_rep (State (heap s) (top s) (Some n) (tail s)) n qs vs fl.
Proof.
  intros Hrep.
  destruct (rep_allocated s d (n :: qs) (x :: vs) fl d Hrep)
    as (b & Hb & Hone); [mem |].
  destruct Hrep as [Hhd Hch Htl Hel Hpool Hnd Href].
  cbn in Hch. destruct Hch as (_ & p' & Hp' & -> & Hch).
  unfold field in Hp'. rewrite Hb in Hp'. simplify_eq/=.
  apply Forall2_cons in Hel as [(bn & Hbn & Hx)%field_is_Some Hel].
  apply NoDup_cons in Hnd as [Hout Hnd].
  exists b, bn. do 6 (split; [done |]).
  split; cbn [heap head tail top]; try done.
  rewrite Forall_forall in *. intros a Ha. apply Href. mem.
Qed.

(** [new Block()] adds a block outside the shape. *)
Lemma rep_alloc s d qs vs fl :
  queue_rep s d qs vs fl ->
  (length (heap s) ∉ d :: qs ++ fl) /\
  queue_rep (State (heap s ++ [new_block]) (top s) (head s) (tail s))
    d qs vs fl.
Proof.
  intros Hrep.
  assert (Hlt : forall a, a ∈ d :: qs ++ fl -> (a < length (heap s))%nat).
  { intros a Ha. destruct (rep_allocated _ _ _ _ _ a Hrep Ha) as (b & Hb & _).
    by eapply lookup_lt_Some. }
  split.
  - intros Hin%Hlt. lia.
  - eapply rep_transfer; [done | done | done | done |].
    intros a Ha%Hlt. cbn. by rewrite !field_app_old.
Qed.

(** [_enqueue] links a block from outside the shape behind the tail. *)
Lemma rep_link s d qs vs fl n bn e :
  queue_rep s d qs vs fl ->
  n ∉ d :: qs ++ fl ->
  heap s !! n = Some bn ->
  refcnt bn = 1 ->
  exists t bt, tail s = Some t /\ t <> n /\ heap s !! t = Some bt /\
    queue_rep
      (State (<[t := set_block_next (Some n) bt]>
                (<[n := set_block_next None (set_elem e bn)]> (heap s)))
         (top s) (head s) (Some n))
      d (qs ++ [n]) (vs ++ [e]) fl.
Proof.
  intros Hrep Hout Hbn Hone.
  pose proof Hrep as [Hhd Hch Htl Hel Hpool Hnd Href].
  destruct (last (d :: qs)) as [t |] eqn:Hlast;
    [| by apply last_None in Hlast].
  pose proof Hlast as [l0 Hl0]%last_Some.
  assert (Htin : t ∈ d :: qs) by (rewrite Hl0; mem).
  assert (Htn : t <> n) by (intros ->; apply Hout; mem).
  destruct (rep_allocated _ _ _ _ _ t Hrep) as (bt & Hbt & _); [mem |].
  exists t, bt. do 3 (split; [done |]).
  assert (Hltn : (n < length (heap s))%nat) by (by eapply lookup_lt_Some).
  assert (Hltt : (t < length (<[n := set_block_next None (set_elem e bn)]>
                               (heap s)))%nat).
  { rewrite length_insert. by eapply lookup_lt_Some. }
  set (hp' := <[t := set_block_next (Some n) bt]>
                (<[n := set_block_next None (set_elem e bn)]> (heap s))).
  assert (Hfld : forall {X} (f : block T -> X) a,
            field f hp' a =
            if decide (a = t) then Some (f (set_block_next (Some n) bt))
            else if decide (a = n)
                 then Some (f (set_block_next None (set_elem e bn)))
                 else field f (heap s) a).
  { intros X f a. unfold hp'. rewrite field_insert by done.
    destruct (decide (a = t)); [done |]. by rewrite field_insert. }
  assert (Hkeep : forall {X} (f : block T -> X) a,
            (forall p b, f (set_block_next p b) = f b) ->
            a ∈ d :: qs ++ fl -> field f hp' a = field f (heap s) a).
  { intros X f a Hf Ha. rewrite Hfld.
    destruct (decide (a = t)) as [-> | _].
    - unfold field. by rewrite Hbt, Hf.
    - destruct (decide (a = n)) as [-> | _]; [done | reflexivity]. }
  assert (Hnd0 : NoDup (l0 ++ [t])).
  { rewrite <- Hl0. apply NoDup_cons in Hnd as [? Hnd].
    apply NoDup_cons. split; [mem |]. by apply NoDup_app in Hnd as (? & _). }
  split; cbn [heap head tail top].
  - done.
  - rewrite Hl0 in Hch. apply lseg_snoc in Hch as [Hch Hend].
    enough (lseg block_next hp' (Some d) ((l0 ++ [t]) ++ [n]) None) as Hgoal
      by (by rewrite <- Hl0 in Hgoal).
    apply lseg_snoc. split; [apply lseg_snoc; split |].
    + eapply lseg_ext; [| done]. intros a Ha. rewrite Hfld.
      destruct (decide (a = t)) as [-> | _].
      * apply NoDup_app in Hnd0 as (_ & Hdisj & _).
        destruct (Hdisj t Ha). mem.
      * destruct (decide (a = n)) as [-> | _]; [| done].
        destruct Hout. assert (n ∈ d :: qs) by (rewrite Hl0; mem). mem.
    + rewrite Hfld. by rewrite decide_True.
    + rewrite Hfld. rewrite decide_False by done. by rewrite decide_True.
  - symmetry. apply (last_snoc n (d :: qs)).
  - apply Forall2_app; [| repeat constructor].
    + eapply Forall2_impl_in; [done |]. intros a v Ha Hv.
      rewrite Hkeep; [done | done | mem].
    + rewrite Hfld. rewrite decide_False by done. by rewrite decide_True.
  - eapply lseg_ext; [| done]. intros a Ha. apply Hkeep; [done | mem].
  - assert (Hperm : d :: (qs ++ [n]) ++ fl ≡ₚ n :: d :: qs ++ fl).
    { rewrite <- (assoc_L (++)). cbn.
      change (d :: qs ++ n :: fl) with ((d :: qs) ++ n :: fl).
      by rewrite <- Permutation_middle. }
    rewrite Hperm. by apply NoDup_cons.
  - rewrite Forall_forall in *. intros a Ha.
    destruct (decide (a = n)) as [-> | Hne].
    + rewrite Hfld. rewrite decide_False by done. rewrite decide_True by done.
      cbn. by rewrite Hone.
    + rewrite Hkeep; [apply Href | done |]; mem.
Qed.

(** [rewind] puts a block from outside the shape in front of the dummy,
    which takes the value. *)
Lemma rep_relink s d qs vs fl n bn e :
  queue_rep s d qs vs fl ->
  n ∉ d :: qs ++ fl ->
  heap s !! n = Some bn ->
  refcnt bn = 1 ->
  exists b, heap s !! d = Some b /\
    queue_rep
      (State (<[n := set_block_next (Some d) bn]>
                (<[d := set_elem e b]> (heap s)))
         (top s) (Some n) (tail s))
      n (d :: qs) (e :: vs) fl.
Proof.
  intros Hrep Hout Hbn Hone.
  pose proof Hrep as [Hhd Hch Htl Hel Hpool Hnd Href].
  destruct (rep_allocated _ _ _ _ _ d Hrep) as (b & Hb & Hbone); [mem |].
  assert (Hdn : d <> n) by (intros ->; apply Hout; mem).
  exists b. split; [done |].
  assert (Hltd : (d < length (heap s))%nat) by (by eapply lookup_lt_Some).
  assert (Hltn : (n < length (<[d := set_elem e b]> (heap s)))%nat).
  { rewrite length_insert. by eapply lookup_lt_Some. }
  set (hp' := <[n := set_block_next (Some d) bn]>
                (<[d := set_elem e b]> (heap s))).
  assert (Hfld : forall {X} (f : block T -> X) a,
            field f hp' a =
            if decide (a = n) then Some (f (set_block_next (Some d) bn))
            else if decide (a = d) then Some (f (set_elem e b))
                 else field f (heap s) a).
  { intros X f a. unfold hp'. rewrite field_insert by done.
    destruct (decide (a = n)); [done |]. by rewrite field_insert. }
  assert (Hkeep : forall {X} (f : block T -> X) a,
            (forall x b, f (set_elem x b) = f b) ->
            a ∈ d :: qs ++ fl -> field f hp' a = field f (heap s) a).
  { intros X f a Hf Ha. rewrite Hfld.
    destruct (decide (a = n)) as [-> | _]; [done |].
    destruct (decide (a = d)) as [-> | _]; [| done].
    unfold field. by rewrite Hb, Hf. }
  split; cbn [heap head tail top].
  - done.
  - assert (Hd : lseg block_next hp' (Some d) (d :: qs) None).
    { eapply lseg_ext; [| exact Hch]. intros a Ha. apply Hkeep; [done | mem]. }
    split; [done |]. exists (Some d). split; [| exact Hd].
    rewrite Hfld. by rewrite decide_True.
  - done.
  - constructor.
    + rewrite Hfld. rewrite decide_False by done. by rewrite decide_True.
    + eapply Forall2_impl_in; [done |]. intros a v Ha Hv.
      rewrite Hfld. destruct (decide (a = n)) as [-> | _]; [destruct Hout; mem |].
      destruct (decide (a = d)) as [-> | _]; [| done].
      apply NoDup_cons in Hnd as [Hd _]. destruct Hd. mem.
  - eapply lseg_ext; [| done]. intros a Ha. apply Hkeep; [done | mem].
  - by apply NoDup_cons.
  - rewrite Forall_forall in *. intros a Ha.
    destruct (decide (a = n)) as [-> | Hne].
    + rewrite Hfld. rewrite decide_True by done. cbn. by rewrite Hone.
    + rewrite Hkeep; [apply Href | done |]; mem.
Qed.

End RepFacts.

(** *** The operations on a quiet queue *)

Section QuietOps.
Context {T : Type} `{ValueInit T}.
Implicit Types (s : state T) (qs fl : list nat) (vs : list T).

Lemma size_t_one : 0 < 1 < size_mod.
Proof. rewrite size_mod_val. lia. Qed.

Lemma lseg_start nxt (hp : list (block T)) p l :
  lseg nxt hp p l None -> p = hd_error l.
Proof. destruct l; cbn; [done | by intros [-> _]]. Qed.

Lemma pop_rep_none o fuel s d qs vs :
  queue_rep s d qs vs [] ->
  (length o < fuel)%nat ->
  returns (FreeList.pop fuel) o s None s.
Proof.
  intros Hrep Hfuel. apply pop_spec_none; [| done].
  by destruct Hrep as [_ _ _ _ Hpool _ _].
Qed.

Lemma pop_rep_some o fuel s d qs vs u fl :
  queue_rep s d qs vs (u :: fl) ->
  (length o < fuel)%nat ->
  returns (FreeList.pop fuel) o s (Some (Some u)) (popped s fl) /\
  queue_rep (popped s fl) d qs vs fl /\
  (u ∉ d :: qs ++ fl) /\
  exists b, heap s !! u = Some b /\ refcnt b = 1.
Proof.
  intros Hrep Hfuel.
  destruct (rep_pop _ _ _ _ _ _ Hrep) as (b & Htop & Hb & Hone & Hout & Hrep').
  assert (Hnext : node_next b = hd_error fl).
  { destruct Hrep' as [_ _ _ _ Hpool _ _]. by apply lseg_start in Hpool. }
  unfold popped. rewrite <- Hnext.
  split; [| split; [done | split; [done | by exists b]]].
  apply pop_spec_some; try done. rewrite Hone. apply size_t_one.
Qed.

Lemma _enqueue_spec o s n bn t bt e :
  heap s !! n = Some bn ->
  tail s = Some t ->
  t <> n ->
  heap s !! t = Some bt ->
  returns (MPMCQueue._enqueue (Some n) e) o s tt (linked s t bt n bn e).
Proof.
  intros Hbn Htl Hne Hbt. exists o. split; [lia |].
  destruct s as [hp tp hd tl]. unfold linked. cbn in *. subst tl.
  rewrite Hbn. cbn.
  rewrite list_lookup_insert_eq by (by eapply lookup_lt_Some). cbn.
  rewrite list_insert_insert_eq.
  rewrite list_lookup_insert_ne by done. rewrite Hbt. reflexivity.
Qed.

(** [enqueue] on a quiet queue: the block comes from the pool if there is
    one, from [new] otherwise, and goes behind the tail. *)
Lemma enqueue_rep o fuel s d qs vs fl e :
  queue_rep s d qs vs fl ->
  (length o < fuel)%nat ->
  exists n s', returns (MPMCQueue.enqueue fuel e) o s true s' /\
    queue_rep s' d (qs ++ [n]) (vs ++ [e]) (tl fl) /\
    (n ∉ d :: qs ++ tl fl) /\
    match fl with
    | [] => n = length (heap s) /\ length (heap s') = S (length (heap s))
    | u :: _ => n = u /\ length (heap s') = length (heap s)
    end.
Proof.
  intros Hrep Hfuel. unfold MPMCQueue.enqueue. destruct fl as [| u fl].
  - destruct (rep_alloc _ _ _ _ _ Hrep) as [Hout Hrep1].
    assert (Hbn : heap (allocated s) !! length (heap s) = Some new_block).
    { cbn. by rewrite lookup_app_r, Nat.sub_diag. }
    destruct (rep_link _ _ _ _ _ _ _ e Hrep1 Hout Hbn eq_refl)
      as (t & bt & Htl & Hne & Hbt & Hrep2).
    eexists _, _. split; [| split; [exact Hrep2 | split; [done |]]].
    + eapply returns_bind; [by eapply pop_rep_none |]. intros o1 _.
      eapply returns_bind; [by apply returns_atomic |]. intros o2 _.
      eapply returns_bind; [by apply (_enqueue_spec o2 (allocated s)) |].
      intros o3 _. apply returns_ret.
    + split; [done |]. cbn. rewrite !length_insert, length_app. cbn. lia.
  - destruct (pop_rep_some o fuel _ _ _ _ _ _ Hrep Hfuel)
      as (Hpop & Hrep1 & Hout & b & Hb & Hone).
    destruct (rep_link (popped s fl) _ _ _ _ _ _ e Hrep1 Hout Hb Hone)
      as (t & bt & Htl & Hne & Hbt & Hrep2).
    eexists _, _. split; [| split; [exact Hrep2 | split; [done |]]].
    + eapply returns_bind; [done |]. intros o1 _.
      eapply returns_bind; [apply returns_ret |]. intros o2 _.
      eapply returns_bind; [by apply (_enqueue_spec o2 (popped s fl)) |].
      intros o3 _. apply returns_ret.
    + split; [done |]. cbn. by rewrite !length_insert.
Qed.

Lemma try_enqueue_rep_none o fuel s d qs vs e :
  queue_rep s d qs vs [] ->
  (length o < fuel)%nat ->
  returns (MPMCQueue.try_enqueue fuel e) o s false s.
Proof.
  intros Hrep Hfuel. unfold MPMCQueue.try_enqueue.
  eapply returns_bind; [by eapply pop_rep_none |].
  intros o1 _. apply returns_ret.
Qed.

Lemma try_enqueue_rep_some o fuel s d qs vs u fl e :
  queue_rep s d qs vs (u :: fl) ->
  (length o < fuel)%nat ->
  exists s', returns (MPMCQueue.try_enqueue fuel e) o s true s' /\
    queue_rep s' d (qs ++ [u]) (vs ++ [e]) fl.
Proof.
  intros Hrep Hfuel. unfold MPMCQueue.try_enqueue.
  destruct (pop_rep_some o fuel _ _ _ _ _ _ Hrep Hfuel)
    as (Hpop & Hrep1 & Hout & b & Hb & Hone).
  destruct (rep_link (popped s fl) _ _ _ _ _ _ e Hrep1 Hout Hb Hone)
    as (t & bt & Htl & Hne & Hbt & Hrep2).
  eexists. split; [| exact Hrep2].
  eapply returns_bind; [done |]. intros o1 _.
  eapply returns_bind; [by apply (_enqueue_spec o1 (popped s fl)) |].
  intros o2 _. apply returns_ret.
Qed.

Lemma rep_head_block s d qs vs fl :
  queue_rep s d qs vs fl ->
  exists b, head s = Some d /\ heap s !! d = Some b /\ refcnt b = 1 /\
    block_next b = hd_error qs.
Proof.
  intros Hrep.
  destruct (rep_allocated _ _ _ _ _ d Hrep) as (b & Hb & Hone); [mem |].
  destruct Hrep as [Hhd Hch _ _ _ _ _].
  cbn in Hch. destruct Hch as (_ & p' & Hp' & Hch%lseg_start).
  unfold field in Hp'. rewrite Hb in Hp'. simplify_eq/=. by exists b.
Qed.

Lemma mpmc_try_dequeue_rep_empty o fuel s d fl e :
  queue_rep s d [] [] fl ->
  (length o < fuel)%nat ->
  returns (MPMCQueue.try_dequeue fuel e) o s (false, e) s.
Proof.
  intros Hrep Hfuel.
  destruct (rep_head_block _ _ _ _ _ Hrep) as (b & Hhd & Hb & Hone & Hnext).
  eapply mpmc_try_dequeue_empty; try done. rewrite Hone. apply size_t_one.
Qed.

Lemma mpmc_try_dequeue_rep_some o fuel s d n qs x vs fl e :
  queue_rep s d (n :: qs) (x :: vs) fl ->
  (length o < fuel)%nat ->
  exists s', returns (MPMCQueue.try_dequeue fuel e) o s (true, x) s' /\
    queue_rep s' n qs vs (d :: fl).
Proof.
  intros Hrep Hfuel.
  destruct (rep_advance _ _ _ _ _ _ _ Hrep)
    as (b & bn & Hb & Hone & Hnext & Hbn & Hx & Hout & Hrep1).
  pose proof (mpmc_try_dequeue_some o fuel e s d b n bn) as Hdeq.
  rewrite Hone, Hx in Hdeq. cbn in Hdeq.
  eexists. split.
  - apply Hdeq; [by destruct Hrep | done | apply size_t_one | done..].
  - by apply (rep_push (State (heap s) (top s) (Some n) (tail s))).
Qed.

(** The single-consumer dequeue on an arbitrary memory. *)
Lemma mpsc_try_dequeue_empty o fuel e s d b :
  head s = Some d ->
  heap s !! d = Some b ->
  block_next b = None ->
  returns (MPSCQueue.try_dequeue fuel e) o s (false, e) s.
Proof.
  intros Hhd Hb Hnext. exists o. split; [lia |].
  destruct s as [hp tp hd tl]. cbn in Hhd, Hb. subst hd. cbn.
  rewrite Hb. cbn. by rewrite Hnext.
Qed.

Lemma mpsc_try_dequeue_some o fuel e s d b n bn :
  head s = Some d ->
  heap s !! d = Some b ->
  block_next b = Some n ->
  heap s !! n = Some bn ->
  (length o < fuel)%nat ->
  returns (MPSCQueue.try_dequeue fuel e) o s (true, elem bn)
    (let s1 := State (heap s) (top s) (Some n) (tail s) in
     if refcnt b =? 1 then pushed s1 d b else dropped s1 d b).
Proof.
  intros Hhd Hb Hnext Hbn Hfuel.
  destruct (push_spec o fuel (State (heap s) (top s) (Some n) (tail s)) d b
              Hb Hfuel) as (o1 & Hlen & Hex).
  exists o1. split; [done |].
  destruct s as [hp tp hd tl]. cbn in Hhd, Hb, Hbn, Hex. subst hd. cbn.
  rewrite Hb. cbn. rewrite Hnext. cbn. rewrite Hbn. cbn.
  rewrite exec_bind, Hex. reflexivity.
Qed.

Lemma mpsc_try_dequeue_rep_empty o fuel s d fl e :
  queue_rep s d [] [] fl ->
  (length o < fuel)%nat ->
  returns (MPSCQueue.try_dequeue fuel e) o s (false, e) s.
Proof.
  intros Hrep Hfuel.
  destruct (rep_head_block _ _ _ _ _ Hrep) as (b & Hhd & Hb & Hone & Hnext).
  by eapply mpsc_try_dequeue_empty.
Qed.

Lemma mpsc_try_dequeue_rep_some o fuel s d n qs x vs fl e :
  queue_rep s d (n :: qs) (x :: vs) fl ->
  (length o < fuel)%nat ->
  exists s', returns (MPSCQueue.try_dequeue fuel e) o s (true, x) s' /\
    queue_rep s' n qs vs (d :: fl).
Proof.
  intros Hrep Hfuel.
  destruct (rep_advance _ _ _ _ _ _ _ Hrep)
    as (b & bn & Hb & Hone & Hnext & Hbn & Hx & Hout & Hrep1).
  pose proof (mpsc_try_dequeue_some o fuel e s d b n bn) as Hdeq.
  rewrite Hone, Hx in Hdeq. cbn in Hdeq.
  eexists. split.
  - apply Hdeq; [by destruct Hrep | done..].
  - by apply (rep_push (State (heap s) (top s) (Some n) (tail s))).
Qed.

(** The last four accesses of [rewind]. *)
Lemma relink_spec o s n bn d b e :
  head s = Some d ->
  heap s !! d = Some b ->
  heap s !! n = Some bn ->
  d <> n ->
  returns (h <- atomic HeadLoad ;;
           atomic (ElemWrite h e) ;;
           atomic (BlockNextStore (Some n) h) ;;
           atomic (HeadStore (Some n)) ;;
           Ret true) o s true
    (State (<[n := set_block_next (Some d) bn]>
              (<[d := set_elem e b]> (heap s)))
       (top s) (Some n) (tail s)).
Proof.
  intros Hhd Hb Hbn Hne. exists o. split; [lia |].
  destruct s as [hp tp hd tl]. cbn in Hhd, Hb, Hbn. subst hd. cbn.
  rewrite Hb. cbn. rewrite list_lookup_insert_ne by done.
  rewrite Hbn. reflexivity.
Qed.

Lemma rewind_rep o fuel s d qs vs fl e :
  queue_rep s d qs vs fl ->
  (length o < fuel)%nat ->
  exists n s', returns (MPSCQueue.rewind fuel e) o s true s' /\
    queue_rep s' n (d :: qs) (e :: vs) (tl fl).
Proof.
  intros Hrep Hfuel. unfold MPSCQueue.rewind. destruct fl as [| u fl].
  - destruct (rep_alloc _ _ _ _ _ Hrep) as [Hout Hrep1].
    assert (Hbn : heap (allocated s) !! length (heap s) = Some new_block).
    { cbn. by rewrite lookup_app_r, Nat.sub_diag. }
    destruct (rep_relink _ _ _ _ _ _ _ e Hrep1 Hout Hbn eq_refl)
      as (b & Hb & Hrep2).
    eexists _, _. split; [| exact Hrep2].
    eapply returns_bind; [by eapply pop_rep_none |]. intros o1 _.
    eapply returns_bind; [by apply returns_atomic |]. intros o2 _.
    apply (relink_spec o2 (allocated s)); try done.
    + by destruct Hrep1.
    + intros ->. apply Hout. mem.
  - destruct (pop_rep_some o fuel _ _ _ _ _ _ Hrep Hfuel)
      as (Hpop & Hrep1 & Hout & bu & Hbu & Hone).
    destruct (rep_relink (popped s fl) _ _ _ _ _ _ e Hrep1 Hout Hbu Hone)
      as (b & Hb & Hrep2).
    eexists _, _. split; [| exact Hrep2].
    eapply returns_bind; [done |]. intros o1 _.
    eapply returns_bind; [apply returns_ret |]. intros o2 _.
    apply (relink_spec o2 (popped s fl)); try done.
    + by destruct Hrep1.
    + intros ->. apply Hout. mem.
Qed.

End QuietOps.

(** *** Construction and sequences of calls *)

Section Construction.
Context {T : Type} `{ValueInit T}.
Implicit Types (s : state T) (qs fl : list nat) (vs : list T).

Lemma rep_dummy_only : queue_rep dummy_only 0 [] [] [].
Proof.
  split; cbn; try done.
  - split; [done |]. by exists None.
  - apply NoDup_singleton.
  - by repeat constructor.
Qed.

Lemma fill_rep fuel capacity : forall o s d qs vs fl,
  queue_rep s d qs vs fl ->
  (length o < fuel)%nat ->
  exists s' fl', returns (MPMCQueue.fill fuel capacity) o s tt s' /\
    queue_rep s' d qs vs fl' /\
    length fl' = (capacity + length fl)%nat.
Proof.
  induction capacity as [| capacity IH]; intros o s d qs vs fl Hrep Hfuel.
  - exists s, fl. split; [apply returns_ret | done].
  - destruct (rep_alloc _ _ _ _ _ Hrep) as [Hout Hrep1].
    assert (Hbn : heap (allocated s) !! length (heap s) = Some new_block).
    { cbn. by rewrite lookup_app_r, Nat.sub_diag. }
    pose proof (rep_push _ _ _ _ _ _ _ Hrep1 Hout Hbn) as Hrep2.
    assert (Hrun : forall o1, (length o1 <= length o)%nat ->
              exists s' fl', returns (MPMCQueue.fill fuel capacity) o1
                  (pushed (allocated s) (length (heap s)) new_block) tt s' /\
                queue_rep s' d qs vs fl' /\
                length fl' = (capacity + S (length fl))%nat).
    { intros o1 Hlen.
      apply (IH o1 _ d qs vs (length (heap s) :: fl)); [done | lia]. }
    destruct (push_spec o fuel (allocated s) (length (heap s)) new_block
                Hbn Hfuel) as (o1 & Hlen1 & Hpush).
    destruct (Hrun o1 Hlen1) as (s' & fl' & (o2 & Hlen2 & Hfill) & Hrep' & Hlen').
    exists s', fl'. split; [| split; [done | lia]].
    exists o2. split; [lia |]. cbn [MPMCQueue.fill].
    rewrite exec_bind. cbn [atomic exec weak_cas perform].
    change (set_heap (heap s ++ [new_block]) s) with (allocated s).
    rewrite exec_bind, Hpush. exact Hfill.
Qed.

Lemma construct_rep o fuel capacity :
  (length o < fuel)%nat ->
  exists s fl, returns (MPMCQueue.construct fuel capacity) o empty_state tt s /\
    queue_rep s 0 [] [] fl /\ length fl = capacity.
Proof.
  intros Hfuel.
  destruct (fill_rep fuel capacity o dummy_only 0 [] [] [] rep_dummy_only
              Hfuel) as (s & fl & Hfill & Hrep & Hlen).
  exists s, fl. split; [| split; [done | by rewrite Hlen, Nat.add_0_r]].
  exact Hfill.
Qed.

Lemma enqueue_all_rep fuel vs' : forall o s d qs vs fl,
  queue_rep s d qs vs fl ->
  (length o < fuel)%nat ->
  exists s' qs' fl', returns (enqueue_all fuel vs') o s tt s' /\
    queue_rep s' d (qs ++ qs') (vs ++ vs') fl'.
Proof.
  induction vs' as [| v vs' IH]; intros o s d qs vs fl Hrep Hfuel.
  - exists s, [], fl. split; [apply returns_ret |]. by rewrite !app_nil_r.
  - destruct (enqueue_rep o fuel s d qs vs fl v Hrep Hfuel)
      as (n & s1 & Henq & Hrep1 & _).
    assert (Hrest : forall o1, (length o1 <= length o)%nat ->
              exists s' qs' fl', returns (enqueue_all fuel vs') o1 s1 tt s' /\
                queue_rep s' d ((qs ++ [n]) ++ qs') ((vs ++ [v]) ++ vs') fl').
    { intros o1 Hlen. eapply IH; [done | lia]. }
    destruct Henq as (o1 & Hlen1 & Henq).
    destruct (Hrest o1 Hlen1) as (s' & qs' & fl' & (o2 & Hlen2 & Hall) & Hrep').
    exists s', (n :: qs'), fl'. split.
    + exists o2. split; [lia |]. cbn [enqueue_all].
      by rewrite exec_bind, Henq.
    + by rewrite <- !(assoc_L (++)) in Hrep'.
Qed.

Lemma rep_values_nil s d qs fl : queue_rep s d qs [] fl -> qs = [].
Proof. intros [_ _ _ Hel _ _ _]. by inversion Hel. Qed.

Lemma rep_values_cons s d qs x vs fl :
  queue_rep s d qs (x :: vs) fl -> exists n qs', qs = n :: qs'.
Proof. intros [_ _ _ Hel _ _ _]. inversion Hel; subst. eauto. Qed.

Lemma last_cons_default {A} (x : A) l e : List.last (x :: l) e = List.last l x.
Proof.
  revert x e. induction l as [| y l IH]; intros x e; [done |].
  change (List.last (y :: l) e = List.last (y :: l) x).
  by rewrite (IH y e), (IH y x).
Qed.

End Construction.

Section Draining.
Context {T : Type} `{ValueInit T}.
Variable deq : nat -> T -> prog T (bool * T).
Hypothesis deq_empty : forall o fuel s d fl e,
  queue_rep s d [] [] fl ->
  (length o < fuel)%nat ->
  returns (deq fuel e) o s (false, e) s.
Hypothesis deq_some : forall o fuel s d n qs x vs fl e,
  queue_rep s d (n :: qs) (x :: vs) fl ->
  (length o < fuel)%nat ->
  exists s', returns (deq fuel e) o s (true, x) s' /\
    queue_rep s' n qs vs (d :: fl).

(** As many calls as there are values deliver the values, oldest first. *)
Lemma dequeue_all fuel vs : forall o s d qs fl e,
  queue_rep s d qs vs fl ->
  (length o < fuel)%nat ->
  exists s' d' fl',
    returns (dequeue_n deq fuel (length vs) e) o s (map (pair true) vs) s' /\
    queue_rep s' d' [] [] fl'.
Proof.
  induction vs as [| x vs IH]; intros o s d qs fl e Hrep Hfuel.
  - pose proof (rep_values_nil _ _ _ _ Hrep) as ->.
    exists s, d, fl. split; [apply returns_ret | done].
  - destruct (rep_values_cons _ _ _ _ _ _ Hrep) as (n & qs' & ->).
    destruct (deq_some o fuel _ _ _ _ _ _ _ e Hrep Hfuel)
      as (s1 & (o1 & Hlen1 & Hdeq) & Hrep1).
    destruct (IH o1 s1 n qs' (d :: fl) x Hrep1 ltac:(lia))
      as (s' & d' & fl' & (o2 & Hlen2 & Hrest) & Hrep').
    exists s', d', fl'. split; [| done].
    exists o2. split; [lia |]. cbn [dequeue_n length].
    rewrite exec_bind, Hdeq. cbn [snd]. rewrite exec_bind, Hrest.
    reflexivity.
Qed.

(** One call more finds the queue empty and leaves [e] alone. *)
Lemma dequeue_all_then_empty fuel vs : forall o s d qs fl e,
  queue_rep s d qs vs fl ->
  (length o < fuel)%nat ->
  exists s',
    returns (dequeue_n deq fuel (S (length vs)) e) o s
      (map (pair true) vs ++ [(false, List.last vs e)]) s'.
Proof.
  induction vs as [| x vs IH]; intros o s d qs fl e Hrep Hfuel.
  - pose proof (rep_values_nil _ _ _ _ Hrep) as ->.
    destruct (deq_empty o fuel s d fl e Hrep Hfuel) as (o1 & Hlen1 & Hdeq).
    exists s, o1. split; [done |]. cbn [dequeue_n length].
    rewrite exec_bind, Hdeq. reflexivity.
  - destruct (rep_values_cons _ _ _ _ _ _ Hrep) as (n & qs' & ->).
    destruct (deq_some o fuel _ _ _ _ _ _ _ e Hrep Hfuel)
      as (s1 & (o1 & Hlen1 & Hdeq) & Hrep1).
    destruct (IH o1 s1 n qs' (d :: fl) x Hrep1 ltac:(lia))
      as (s' & o2 & Hlen2 & Hrest).
    exists s', o2. split; [lia |].
    change (dequeue_n deq fuel (S (length (x :: vs))) e)
      with (r <- deq fuel e ;;
            rs <- dequeue_n deq fuel (S (length vs)) (snd r) ;;
            Ret (r :: rs)).
    rewrite exec_bind, Hdeq. cbn [snd]. rewrite exec_bind, Hrest.
    by rewrite last_cons_default.
Qed.

End Draining.

(** * The queue run alone *)

Section QuietClaims.
Context {T : Type} `{ValueInit T}.
Implicit Types (s : state T) (qs fl : list nat) (vs : list T).

(** C1. Single-threaded FIFO: whatever values one thread enqueues into a
    freshly constructed MPMC queue, of any capacity, the following calls of
    [try_dequeue] return them in the order they were enqueued, and the call
    after the last one returns [false] (and leaves its argument alone). *)
Theorem mpmc_fifo_single_thread (capacity : nat) (vs : list T) (e : T)
    (fuel : nat) (o : list bool) :
  (length o < fuel)%nat ->
  exists s,
    returns (MPMCQueue.construct fuel capacity ;;
             enqueue_all fuel vs ;;
             dequeue_n MPMCQueue.try_dequeue fuel (S (length vs)) e)
      o empty_state
      (map (pair true) vs ++ [(false, List.last vs e)]) s.
Proof.
  intros Hfuel.
  destruct (construct_rep o fuel capacity Hfuel)
    as (s0 & fl0 & (o1 & Hlen1 & Hcons) & Hrep0 & _).
  destruct (enqueue_all_rep fuel vs o1 s0 0%nat [] [] fl0 Hrep0 ltac:(lia))
    as (s1 & qs1 & fl1 & (o2 & Hlen2 & Henq) & Hrep1).
  destruct (dequeue_all_then_empty MPMCQueue.try_dequeue
              mpmc_try_dequeue_rep_empty mpmc_try_dequeue_rep_some
              fuel vs o2 s1 0%nat _ fl1 e Hrep1 ltac:(lia))
    as (s2 & o3 & Hlen3 & Hdeq).
  exists s2, o3. split; [lia |].
  by rewrite exec_bind, Hcons, exec_bind, Henq.
Qed.

(** C2, as amended.  Round trip on an empty queue: on a quiet queue that
    holds no value, [enqueue(v)] followed by [try_dequeue(&x)] returns
    [true] with [x == v]. *)
Theorem round_trip_on_empty_queue s d fl (v e : T) (fuel : nat)
    (o : list bool) :
  queue_rep s d [] [] fl ->
  (length o < fuel)%nat ->
  exists s',
    returns (MPMCQueue.enqueue fuel v ;; MPMCQueue.try_dequeue fuel e)
      o s (true, v) s'.
Proof.
  intros Hrep Hfuel.
  destruct (enqueue_rep o fuel s d [] [] fl v Hrep Hfuel)
    as (n & s1 & (o1 & Hlen1 & Henq) & Hrep1 & _).
  destruct (mpmc_try_dequeue_rep_some o1 fuel s1 d n [] v [] (tl fl) e
              Hrep1 ltac:(lia)) as (s2 & (o2 & Hlen2 & Hdeq) & _).
  exists s2, o2. split; [lia |]. by rewrite exec_bind, Henq.
Qed.

(** C4. Rewind law: on a quiet MPSC queue whose oldest value is [x], after
    [try_dequeue] has returned [x], [rewind(w)] makes the next
    [try_dequeue] return [w] (so [x] again for [rewind(x)]), and the values
    that were behind [x] follow in their order. *)
Theorem mpsc_rewind_law s d n qs (x : T) vs fl (w e : T) (fuel : nat)
    (o : list bool) :
  queue_rep s d (n :: qs) (x :: vs) fl ->
  (length o < fuel)%nat ->
  exists s',
    returns (r <- MPSCQueue.try_dequeue fuel e ;;
             MPSCQueue.rewind fuel w ;;
             rs <- dequeue_n MPSCQueue.try_dequeue fuel (S (length vs))
                     (snd r) ;;
             Ret (r, rs))
      o s ((true, x), (true, w) :: map (pair true) vs) s'.
Proof.
  intros Hrep Hfuel.
  destruct (mpsc_try_dequeue_rep_some o fuel s d n qs x vs fl e Hrep Hfuel)
    as (s1 & (o1 & Hlen1 & Hdeq) & Hrep1).
  destruct (rewind_rep o1 fuel s1 n qs vs (d :: fl) w Hrep1 ltac:(lia))
    as (n' & s2 & (o2 & Hlen2 & Hrew) & Hrep2).
  destruct (dequeue_all MPSCQueue.try_dequeue mpsc_try_dequeue_rep_some
              fuel (w :: vs) o2 s2 n' (n :: qs) _ x Hrep2 ltac:(lia))
    as (s3 & d3 & fl3 & (o3 & Hlen3 & Hrest) & _).
  exists s3, o3. split; [lia |].
  rewrite exec_bind, Hdeq, exec_bind, Hrew. cbn [snd].
  cbn [length] in Hrest. by rewrite exec_bind, Hrest.
Qed.

(** What [try_dequeue], of either queue, goes by is the [next] of the
    block [h] it loaded from [head]: whatever the other threads do, the
    result is [false] exactly when the last load of [h->next] yielded null.
    Run alone on a memory with a live head block the call returns, with
    [false] exactly when [head->next] is null; on a quiet queue that is
    exactly when the queue holds no value; and on a freshly constructed
    queue it returns [false].  Beside other threads [h] need not be the
    head any more when its [next] is loaded (see
    [Scenario.stale_head_phases]). *)
Theorem try_dequeue_false_iff_null_next s d b (e : T) (fuel : nat)
    (o : list bool) :
  head s = Some d ->
  heap s !! d = Some b ->
  0 < refcnt b < size_mod ->
  (forall n, block_next b = Some n -> is_Some (heap s !! n)) ->
  (length o < fuel)%nat ->
  (forall tr r x, run (MPMCQueue.try_dequeue fuel e) tr (r, x) ->
     exists nh, last_block_next tr = Some nh /\ (r = false <-> nh = None)) /\
  (forall tr r x, run (MPSCQueue.try_dequeue fuel e) tr (r, x) ->
     exists nh, last_block_next tr = Some nh /\ (r = false <-> nh = None)) /\
  (exists r s', returns (MPMCQueue.try_dequeue fuel e) o s r s' /\
     (fst r = false <-> block_next b = None)) /\
  (exists r s', returns (MPSCQueue.try_dequeue fuel e) o s r s' /\
     (fst r = false <-> block_next b = None)) /\
  (forall qs vs fl, queue_rep s d qs vs fl ->
     (block_next b = None <-> vs = [])) /\
  (forall capacity, exists s',
     returns (MPMCQueue.construct fuel capacity ;;
              MPMCQueue.try_dequeue fuel e) o empty_state (false, e) s') /\
  (forall capacity, exists s',
     returns (MPMCQueue.construct fuel capacity ;;
              MPSCQueue.try_dequeue fuel e) o empty_state (false, e) s').
Proof.
  intros Hhd Hb Ht Hnext Hfuel.
  split; [apply mpmc_try_dequeue_run |].
  split; [apply mpsc_try_dequeue_run |].
  split; [| split; [| split; [| split]]].
  - destruct (block_next b) as [n |] eqn:Hn.
    + destruct (Hnext n eq_refl) as [bn Hbn].
      eexists _, _. split; [by eapply mpmc_try_dequeue_some |].
      cbn. split; discriminate.
    + eexists _, _. split; [by eapply mpmc_try_dequeue_empty |]. done.
  - destruct (block_next b) as [n |] eqn:Hn.
    + destruct (Hnext n eq_refl) as [bn Hbn].
      eexists _, _. split; [by eapply mpsc_try_dequeue_some |].
      cbn. split; discriminate.
    + eexists _, _. split; [by eapply mpsc_try_dequeue_empty |]. done.
  - intros qs vs fl Hrep.
    destruct (rep_head_block _ _ _ _ _ Hrep) as (b' & _ & Hb' & _ & Hq).
    assert (b' = b) as -> by congruence. rewrite Hq.
    destruct Hrep as [_ _ _ Hel _ _ _].
    destruct Hel; cbn; split; done.
  - intros capacity.
    destruct (construct_rep o fuel capacity Hfuel)
      as (s0 & fl0 & (o1 & Hlen1 & Hcons) & Hrep0 & _).
    destruct (mpmc_try_dequeue_rep_empty o1 fuel s0 0%nat fl0 e Hrep0
                ltac:(lia)) as (o2 & Hlen2 & Hdeq).
    exists s0, o2. split; [lia |]. by rewrite exec_bind, Hcons.
  - intros capacity.
    destruct (construct_rep o fuel capacity Hfuel)
      as (s0 & fl0 & (o1 & Hlen1 & Hcons) & Hrep0 & _).
    destruct (mpsc_try_dequeue_rep_empty o1 fuel s0 0%nat fl0 e Hrep0
                ltac:(lia)) as (o2 & Hlen2 & Hdeq).
    exists s0, o2. split; [lia |]. by rewrite exec_bind, Hcons.
Qed.

(** C6. Pool exhaustion: whatever the other threads do, [try_enqueue]
    returns [false] exactly when the last thing it saw is a null [top], and
    has then appended nothing, and [enqueue] returns [true] and has
    appended a block.  On a quiet queue [try_enqueue] returns [false]
    exactly when the free list is empty, and then leaves the memory as it
    was; [enqueue] returns [true] and appends the value, in a block it
    allocates when the free list is empty. *)
Theorem pool_exhaustion s d qs vs fl (e : T) (fuel : nat) (o : list bool) :
  queue_rep s d qs vs fl ->
  (length o < fuel)%nat ->
  (forall tr r, run (MPMCQueue.try_enqueue fuel e) tr r ->
     (r = false <-> ends_on_empty_pool tr = true) /\
     exchanges tr = (if r then 1 else 0)%nat) /\
  (forall tr r, run (MPMCQueue.enqueue fuel e) tr r ->
     r = true /\ exchanges tr = 1%nat) /\
  (exists r s', returns (MPMCQueue.try_enqueue fuel e) o s r s' /\
     (r = false <-> top s = None) /\
     (r = false -> s' = s) /\
     (r = true -> exists n fl', queue_rep s' d (qs ++ [n]) (vs ++ [e]) fl')) /\
  (exists n s', returns (MPMCQueue.enqueue fuel e) o s true s' /\
     queue_rep s' d (qs ++ [n]) (vs ++ [e]) (tl fl) /\
     (top s = None ->
      n = length (heap s) /\ length (heap s') = S (length (heap s)))).
Proof.
  intros Hrep Hfuel.
  assert (Htop : top s = hd_error fl).
  { destruct Hrep as [_ _ _ _ Hpool _ _]. by apply lseg_start in Hpool. }
  split; [apply try_enqueue_run |]. split; [apply enqueue_run |]. split.
  - destruct fl as [| u fl].
    + exists false, s. split; [by eapply try_enqueue_rep_none |]. done.
    + destruct (try_enqueue_rep_some o fuel s d qs vs u fl e Hrep Hfuel)
        as (s' & Hret & Hrep').
      exists true, s'. split; [done |]. rewrite Htop. cbn.
      split; [split; discriminate |]. split; [discriminate |]. eauto.
  - destruct (enqueue_rep o fuel s d qs vs fl e Hrep Hfuel)
      as (n & s' & Hret & Hrep' & _ & Hfresh).
    exists n, s'. do 2 (split; [done |]). rewrite Htop.
    by destruct fl.
Qed.

End QuietClaims.

Section ReleaseClaims.
Context {T : Type} `{ValueInit T}.
Implicit Types (s : state T).

(** C7. [release_ref(n)] decrements [n.refcnt]; when the value before was
    not 1 that is all it does; when it was 1 it pushes [n]: in each round it
    loads [top], stores it into [n.next], then tries the CAS on [top], and
    after the round whose CAS succeeds it stores 1 into [n.refcnt]
    (whatever the other threads do); run alone it leaves [n] at [top] with
    [refcnt] 1 and [next] the previous top.  [push] does the same and
    returns [true]. *)
Theorem release_ref_pushes_last_reference s a b (fuel : nat)
    (o : list bool) (tr : list (observation T)) (r : unit) :
  heap s !! a = Some b ->
  (length o < fuel)%nat ->
  run (FreeList.release_ref fuel (Some a)) tr r ->
  returns (FreeList.release_ref fuel (Some a)) o s tt
    (if refcnt b =? 1 then pushed s a b else dropped s a b) /\
  returns (FreeList.push fuel (Some a)) o s true
    (if refcnt b =? 1 then pushed s a b else dropped s a b) /\
  exists old,
    (old <> 1 /\ tr = [Obs (RefFetchSub (Some a)) old]) \/
    (old = 1 /\ exists tr', tr = Obs (RefFetchSub (Some a)) 1 :: tr' /\
       push_trace (Some a) tr').
Proof.
  intros Hb Hfuel Hrun.
  split; [by apply release_ref_spec | split; [by apply push_spec |]].
  by eapply release_ref_run.
Qed.




End ReleaseClaims.

Section LinkClaims.
Context {T : Type} `{ValueInit T}.
Implicit Types (s : state T).

Lemma modify_field {X} (g : block T -> X) u (f : block T -> block T) s s' a :
  modify u f s = Some s' ->
  (forall b, g (f b) = g b) ->
  field g (heap s') a = field g (heap s) a.
Proof.
  intros Hmod Hg. unfold modify in Hmod.
  destruct u as [n |]; [| done].
  destruct (heap s !! n) as [b |] eqn:Hb; [| done]. simplify_eq/=.
  rewrite field_insert by (by eapply lookup_lt_Some).
  destruct (decide (a = n)) as [-> | _]; [| done].
  unfold field. by rewrite Hb, Hg.
Qed.



(** *** Increments are guarded *)

Lemma guarded_bind {A B} (p : prog T A) (f : A -> prog T B) :
  guarded p -> (forall r, guarded (f r)) -> guarded (bind p f).
Proof.
  intros Hp Hf. induction p as [r | X a k IH |]; cbn in *; [done | | done].
  destruct Hp as [Ha Hk]. split; [done |]. intros x. by apply IH.
Qed.

Lemma release_ref_guarded fuel u : guarded (FreeList.release_ref (T:=T) fuel u).
Proof.
  unfold FreeList.release_ref. cbn. split; [done |]. intros old.
  destruct (negb (old =? 1)); [done |].
  induction fuel as [| fuel IH]; cbn; [done |].
  split; [done |]. intros t. split; [done |]. intros _. split; [done |].
  intros [|]; cbn; [| done]. split; [done | done].
Qed.

Lemma pop_guarded fuel : guarded (FreeList.pop (T:=T) fuel).
Proof.
  induction fuel as [| fuel IH]; cbn; [done |].
  split; [done |]. intros [u |]; cbn; [| done].
  split; [done |]. intros t. destruct (t =? 0) eqn:Ht; [done |].
  cbn. split; [by apply Z.eqb_neq |]. intros [|]; cbn; [| done].
  split; [done |]. intros nv. split; [done |]. intros popped.
  apply guarded_bind; [apply release_ref_guarded |].
  intros _. by destruct popped.
Qed.

Lemma try_dequeue_guarded fuel (e : T) : guarded (MPMCQueue.try_dequeue fuel e).
Proof.
  revert e. induction fuel as [| fuel IH]; intros e; cbn; [done |].
  split; [done |]. intros h. split; [done |]. intros t.
  destruct (t =? 0) eqn:Ht; [done |].
  cbn. split; [by apply Z.eqb_neq |]. intros [|]; cbn; [| done].
  split; [done |]. intros [nh |]; cbn.
  - split; [done |]. intros e'. split; [done |]. intros [|].
    + apply guarded_bind; [apply release_ref_guarded |]. intros _.
      apply guarded_bind; [| done].
      apply guarded_bind; [apply release_ref_guarded | done].
    + apply guarded_bind; [apply release_ref_guarded | done].
  - apply guarded_bind; [apply release_ref_guarded | done].
Qed.

(** A guarded access that finds [refcnt == 0] in a block and leaves
    something else there is a plain store or a [fetch_sub], never the
    CAS that takes a reference. *)
Lemma guarded_access_on_zero {X} (a : action T X) spur s x s' n :
  cas_guarded a ->
  perform a spur s = Some (x, s') ->
  field refcnt (heap s) n = Some 0 ->
  field refcnt (heap s') n = Some 0 \/
  (exists z, acc a = acc (RefStore (Some n) z)) \/
  acc a = acc (RefFetchSub (Some n)).
Proof.
  intros Hg Hp H0.
  assert (Hmod : forall u f s1, modify u f s = Some s1 ->
            (forall b, refcnt (f b) = refcnt b) ->
            field refcnt (heap s1) n = Some 0).
  { intros u f s1 Hm Hf.
    by rewrite (modify_field refcnt u f s s1 n Hm Hf). }
  destruct a; cbn in Hp, Hg.
  all: try (simplify_eq; by left).
  all: try (destruct (_ && _); simplify_eq; by left).
  all: try (destruct (deref s u) as [b |] eqn:Hb; simplify_eq/=; by left).
  all: try (destruct (modify _ _ s) as [s1 |] eqn:Hm; simplify_eq/=;
            left; by eapply Hmod).
  - (* fetch_sub *)
    destruct u as [m |]; [| done]. cbn in Hp.
    destruct (heap s !! m) as [b |] eqn:Hb; [| done]. simplify_eq/=.
    destruct (decide (n = m)) as [-> | Hne]; [by right; right |].
    left. rewrite field_insert by (by eapply lookup_lt_Some).
    by rewrite decide_False.
  - (* store *)
    destruct u as [m |]; [| done]. cbn in Hp.
    destruct (heap s !! m) as [b |] eqn:Hb; [| done]. simplify_eq/=.
    destruct (decide (n = m)) as [-> | Hne]; [right; left; by exists z |].
    left. rewrite field_insert by (by eapply lookup_lt_Some).
    by rewrite decide_False.
  - (* the CAS *)
    destruct u as [m |]; [| done]. cbn in Hp.
    destruct (heap s !! m) as [b |] eqn:Hb; [| done]. cbn in Hp.
    destruct (negb spur && (refcnt b =? expected)) eqn:Hcas;
      simplify_eq/=; [| by left].
    apply andb_true_iff in Hcas as [_ Heq%Z.eqb_eq].
    destruct (decide (n = m)) as [-> | Hne].
    + unfold field in H0. rewrite Hb in H0. simplify_eq/=.
    + left. rewrite field_insert by (by eapply lookup_lt_Some).
      by rewrite decide_False.
  - (* new *)
    simplify_eq/=. left. rewrite field_app_old; [done |].
    by eapply field_lt.
Qed.

(** In a configuration whose threads are guarded, a step leaves them
    guarded, and takes a [refcnt] off zero only by a plain store or a
    [fetch_sub]. *)
Lemma guarded_step {R} (c c' : config T R) i spur n :
  Forall guarded (threads c) ->
  cstep i spur c = Some c' ->
  Forall guarded (threads c') /\
  (field refcnt (heap (mem c)) n = Some 0 ->
   field refcnt (heap (mem c')) n = Some 0 \/
   (exists z, next_access c i = Some (acc (RefStore (Some n) z))) \/
   next_access c i = Some (acc (RefFetchSub (Some n)))).
Proof.
  intros Hall Hstep. unfold cstep in Hstep. unfold next_access.
  destruct (threads c !! i) as [[r | X a k |] |] eqn:Hi; try done.
  destruct (perform a spur (mem c)) as [[x s'] |] eqn:Hp; [| done].
  injection Hstep as <-. cbn.
  rewrite Forall_lookup in Hall. destruct (Hall i _ Hi) as [Ha Hk].
  split.
  - apply Forall_insert; [by apply Forall_lookup | apply Hk].
  - intros H0.
    destruct (guarded_access_on_zero a spur (mem c) x s' n Ha Hp H0)
      as [Hz | [[z Hz] | Hz]]; [by left | right; left | right; right].
    + exists z. by rewrite Hz.
    + by rewrite Hz.
Qed.

Lemma guarded_run {R} sched : forall (c c' : config T R),
  Forall guarded (threads c) ->
  crun sched c = Some c' ->
  Forall guarded (threads c').
Proof.
  induction sched as [| [i spur] sched IH]; intros c c' Hall Hrun; cbn in Hrun.
  - by injection Hrun as <-.
  - destruct (cstep i spur c) as [c1 |] eqn:Hstep; [| done].
    eapply IH; [| done]. by eapply (guarded_step c c1 i spur 0%nat).
Qed.

Lemma enqueue_guarded fuel (e : T) : guarded (MPMCQueue.enqueue fuel e).
Proof.
  unfold MPMCQueue.enqueue. apply guarded_bind; [apply pop_guarded |].
  intros [n |]; cbn; repeat (split; [done |]; intros ?); done.
Qed.

Lemma enqueue_all_guarded fuel (vs : list T) : guarded (enqueue_all fuel vs).
Proof.
  induction vs as [| v vs IH]; cbn; [done |].
  apply guarded_bind; [apply enqueue_guarded | done].
Qed.

Lemma dequeue_n_guarded fuel n : forall e : T,
  guarded (dequeue_n MPMCQueue.try_dequeue fuel n e).
Proof.
  induction n as [| n IH]; intros e; cbn; [done |].
  apply guarded_bind; [apply try_dequeue_guarded |]. intros r.
  apply guarded_bind; [apply IH | done].
Qed.

End LinkClaims.

(** *** Histories *)

Section HistoryFacts.
Context {T : Type}.
Implicit Types (q : list T) (h : list (call T)).

(** A FIFO queue delivers no more values than it held or was given. *)
Lemma fifo_deliveries h : forall q,
  fifo q h -> (deliveries h <= length q + enqueues h)%nat.
Proof.
  induction h as [| [v | [[|] v]] h IH]; intros q; cbn; [lia | ..].
  - intros Hq%IH. rewrite length_app in Hq. cbn in Hq. lia.
  - destruct q as [| x q]; [done |]. intros [_ Hq%IH]. cbn. lia.
  - intros Hq%IH. lia.
Qed.

Lemma enqueues_Permutation h h' : h ≡ₚ h' -> enqueues h = enqueues h'.
Proof.
  induction 1 as [| x h h' _ IH | x y h | h1 h2 h3 _ IH1 _ IH2]; cbn.
  - done.
  - destruct x; congruence.
  - by destruct x, y.
  - congruence.
Qed.

Lemma deliveries_Permutation h h' : h ≡ₚ h' -> deliveries h = deliveries h'.
Proof.
  induction 1 as [| x h h' _ IH | x y h | h1 h2 h3 _ IH1 _ IH2]; cbn.
  - done.
  - destruct x as [v | [[|] v]]; congruence.
  - by destruct x as [v | [[|] v]], y as [w | [[|] w]].
  - congruence.
Qed.

End HistoryFacts.

(** *** The scenarios *)

Import Scenario.

(** The literal scenarios: S1 (capacity 0), S2 (FIFO), S5 (rewind) and S6
    (capacity 4, six values). *)
Example scenario_S1 :
  returned (exec (MPMCQueue.construct 1 0 ;;
                  a <- MPMCQueue.try_dequeue 1 0 ;;
                  b <- MPMCQueue.try_enqueue 1 7 ;;
                  c <- MPMCQueue.enqueue 1 7 ;;
                  d <- MPMCQueue.try_dequeue 1 0 ;;
                  e <- MPMCQueue.try_dequeue 1 0 ;;
                  Ret (fst a, b, c, d, fst e)) [] empty_state) =
  Some (false, false, true, (true, 7), false).
Proof. reflexivity. Qed.

Example scenario_S2 :
  returned (exec (MPMCQueue.construct 1 8 ;;
                  enqueue_all 1 [1; 2; 3] ;;
                  rs <- dequeue_n MPMCQueue.try_dequeue 1 4 0 ;;
                  Ret (map fst rs, map snd (take 3 rs))) [] empty_state) =
  Some ([true; true; true; false], [1; 2; 3]).
Proof. vm_compute. reflexivity. Qed.

Example scenario_S5 :
  returned (exec (MPMCQueue.construct 1 0 ;;
                  enqueue_all 1 [10; 20; 30] ;;
                  a <- MPSCQueue.try_dequeue 1 0 ;;
                  MPSCQueue.rewind 1 99 ;;
                  rs <- dequeue_n MPSCQueue.try_dequeue 1 3 0 ;;
                  Ret (a, rs)) [] empty_state) =
  Some ((true, 10), [(true, 99); (true, 20); (true, 30)]).
Proof. reflexivity. Qed.

Example scenario_S6 :
  (fun x => match x with
            | Returned rs _ s => Some (rs, length (heap s))
            | _ => None
            end)
    (exec (MPMCQueue.construct 1 4 ;;
           enqueue_all 1 [1; 2; 3; 4; 5; 6] ;;
           dequeue_n MPMCQueue.try_dequeue 1 6 0) [] empty_state) =
  Some ([(true, 1); (true, 2); (true, 3); (true, 4); (true, 5); (true, 6)],
        7%nat).
Proof. reflexivity. Qed.

(** The constructor with capacity 0 leaves the dummy alone. *)
Example construct_capacity_0 :
  exec (MPMCQueue.construct 1 0) [] empty_state = Returned tt [] dummy_only.
Proof. reflexivity. Qed.

Example one_pending_reached :
  exec (MPMCQueue.construct 1 0 ;; MPMCQueue.enqueue 1 5) [] empty_state =
  Returned true [] one_pending.
Proof. reflexivity. Qed.

(** A list segment in a memory that is written out. *)
Ltac walk :=
  cbn; repeat first [reflexivity | split; [reflexivity |]
                    | eexists; split; [reflexivity |]].

(** A quiet state that is written out. *)
Ltac quiet :=
  split; [reflexivity | walk | reflexivity | by repeat constructor | walk
         | compute_done | by repeat constructor].

Example one_pending_quiet : queue_rep one_pending 0 [1%nat] [5] [].
Proof. quiet. Qed.

Example three_pending_quiet :
  queue_rep three_pending 0 [1; 2; 3]%nat [10; 20; 30] [].
Proof. quiet. Qed.

(** The memory after each phase of [aba_phases]. *)
Example aba_memory_by_phase :
  map (fun k => mem <$> crun (steps (take k aba_phases)) aba_start)
    [1; 2; 3; 4; 5; 6; 7]%nat =
  map Some
    [ (* thread 2 has loaded head = block 0 *)
      State [Block None 1 0 None] None (Some 0%nat) (Some 0%nat);
      (* enqueue(1) *)
      State [Block None 1 0 (Some 1%nat); Block None 1 1 None]
        None (Some 0%nat) (Some 1%nat);
      (* thread 1 has dequeued 1 and pushed block 0 *)
      State [Block None 1 0 (Some 1%nat); Block None 1 1 None]
        (Some 0%nat) (Some 1%nat) (Some 1%nat);
      (* thread 2 holds a reference on block 0 and has read next = 1 *)
      State [Block None 2 0 (Some 1%nat); Block None 1 1 None]
        (Some 0%nat) (Some 1%nat) (Some 1%nat);
      (* enqueue(2) has popped block 0 and linked it behind block 1 *)
      State [Block None 2 2 None; Block None 1 1 (Some 0%nat)]
        None (Some 1%nat) (Some 0%nat);
      (* thread 1 has dequeued 2: block 0 is the head again *)
      State [Block None 2 2 None; Block None 1 1 (Some 0%nat)]
        (Some 1%nat) (Some 0%nat) (Some 0%nat);
      (* the head CAS of thread 2 has moved head to block 1 *)
      State [Block (Some 1%nat) 1 2 None; Block None 1 1 (Some 0%nat)]
        (Some 0%nat) (Some 1%nat) (Some 0%nat) ].
Proof. vm_compute. reflexivity. Qed.

(** C9.  The queue is not linearizable: under the interleaving
    [aba_phases], with sequentially consistent accesses and no spurious CAS
    failure, two values are enqueued and three calls of [try_dequeue]
    return a value, 1 twice; no order of these five calls is a history of a
    FIFO queue. *)
Theorem aba_delivers_a_value_twice :
  exists c, crun (steps aba_phases) aba_start = Some c /\
    mem c = aba_end /\
    result c 0 = Some [] /\
    result c 1 = Some [(true, 1); (true, 2)] /\
    result c 2 = Some [(true, 1)] /\
    forall h, h ≡ₚ aba_calls -> ~ fifo [] h.
Proof.
  eexists. split; [vm_compute; reflexivity |].
  do 4 (split; [vm_compute; reflexivity |]).
  intros h Hperm Hfifo%fifo_deliveries.
  rewrite (deliveries_Permutation _ _ Hperm) in Hfifo.
  rewrite (enqueues_Permutation _ _ Hperm) in Hfifo.
  cbn in Hfifo. lia.
Qed.

(** The threads of [underflow_start] take their references with guarded
    CASes only, and so do they in every configuration they reach. *)
Lemma underflow_threads_guarded sched c :
  crun sched underflow_start = Some c -> Forall guarded (threads c).
Proof.
  apply guarded_run.
  constructor; [| constructor; [| constructor; [| constructor]]].
  - apply guarded_bind; [apply enqueue_all_guarded | done].
  - apply dequeue_n_guarded.
  - apply dequeue_n_guarded.
Qed.

(** The memory after the last four phases of [underflow_phases]. *)
Example underflow_memory_by_phase :
  map (fun k => mem <$> crun (steps (take k underflow_phases)) underflow_start)
    [7; 8; 9; 10]%nat =
  map Some
    [ (* thread 2 has moved head to block 1 and given its reference on
         block 0 back *)
      State [Block None 1 2 None; Block None 1 1 (Some 0%nat)]
        (Some 1%nat) (Some 1%nat) (Some 0%nat);
      (* thread 1 has dequeued 2 again and pushed block 1 again *)
      State [Block None 1 2 None; Block (Some 1%nat) 1 1 (Some 0%nat)]
        (Some 1%nat) (Some 0%nat) (Some 0%nat);
      (* enqueue(3) has popped block 1 and linked it behind block 0 *)
      State [Block None 1 2 (Some 1%nat); Block (Some 1%nat) 1 3 None]
        (Some 1%nat) (Some 0%nat) (Some 1%nat);
      (* thread 1 has dequeued 3 and, pushing block 0, brought its refcnt
         to 0 *)
      State [Block None 0 2 (Some 1%nat); Block (Some 1%nat) 1 3 None]
        (Some 1%nat) (Some 1%nat) (Some 1%nat) ].
Proof. vm_compute. reflexivity. Qed.

(** C8.  A reference count leaves zero by another way than the pusher's
    store: under the interleaving [underflow_phases], thread 1 is in the
    loop of [release_ref] for block 0, whose [refcnt] it has brought to 0,
    when the [fetch_sub] of thread 2, in the [push(h)] of its
    [try_dequeue], takes that [refcnt] from 0 to [SIZE_MAX]. *)
Theorem refcnt_leaves_zero_by_fetch_sub :
  exists c c', crun (steps underflow_phases) underflow_start = Some c /\
    field refcnt (heap (mem c)) 0 = Some 0 /\
    next_access c 1 = Some (acc TopLoad) /\
    next_access c 2 = Some (acc (RefFetchSub (Some 0%nat))) /\
    cstep 2 false c = Some c' /\
    field refcnt (heap (mem c')) 0 = Some (size_mod - 1).
Proof.
  eexists. eexists. split; [vm_compute; reflexivity |].
  do 3 (split; [vm_compute; reflexivity |]).
  split; vm_compute; reflexivity.
Qed.

(** The memory after each phase of [stale_head_phases]. *)
Example stale_head_memory_by_phase :
  map (fun k => mem <$> crun (steps (take k stale_head_phases))
                          stale_head_start) [1; 2; 3; 4; 5]%nat =
  map Some
    [ (* the queue holds 10, 20 and 30 *)
      three_pending;
      (* thread 2 has loaded head, which is block 0 *)
      three_pending;
      (* thread 1 has dequeued 10 and pushed block 0 *)
      State [Block None 1 0 (Some 1%nat); Block None 1 10 (Some 2%nat);
             Block None 1 20 (Some 3%nat); Block None 1 30 None]
        (Some 0%nat) (Some 1%nat) (Some 3%nat);
      (* enqueue(7) has popped block 0 and linked it behind block 3 *)
      stale_head_end;
      (* thread 2 has taken its reference on block 0 and given it back *)
      stale_head_end ].
Proof. vm_compute. reflexivity. Qed.

(** C5.  [MPMCQueue::try_dequeue] returns [false] on a queue that is not
    empty at any time of the call: under the interleaving
    [stale_head_phases], with sequentially consistent accesses and no
    spurious CAS failure, the first 18 accesses are those of thread 0 and
    leave a queue that holds 10, 20 and 30, so that is where thread 2
    begins its call; in every memory from there on [head->next] is not
    null; at the end the queue is quiet and holds 20, 30 and 7; and the
    call of thread 2 has returned [false].  The [next] it found null is
    that of block 0, which was the head when thread 2 loaded [head] and is
    the tail, recycled by [enqueue(7)], when thread 2 takes its
    reference. *)
Theorem try_dequeue_false_on_a_queue_never_empty :
  exists c, crun (steps stale_head_phases) stale_head_start = Some c /\
    mem c = stale_head_end /\
    queue_rep stale_head_end 1 [2; 3; 0]%nat [20; 30; 7] [] /\
    result c 0 = Some [] /\
    result c 1 = Some [(true, 10)] /\
    result c 2 = Some [(false, 0)] /\
    take 18 (steps stale_head_phases) = repeat (0%nat, false) 18 /\
    (c' ← crun (take 18 (steps stale_head_phases)) stale_head_start;
     Some (mem c')) = Some three_pending /\
    forall k, (18 <= k)%nat ->
      (c' ← crun (take k (steps stale_head_phases)) stale_head_start;
       Some (non_empty (mem c'))) = Some true.
Proof.
  eexists. split; [vm_compute; reflexivity |].
  split; [vm_compute; reflexivity |].
  split; [quiet |].
  do 5 (split; [vm_compute; reflexivity |]).
  intros k Hk.
  assert (Hall : Forall (fun k =>
            (c' ← crun (take k (steps stale_head_phases)) stale_head_start;
             Some (non_empty (mem c'))) = Some true) (seq 18 28)).
  { let l := eval vm_compute in (seq 18 28) in change (seq 18 28) with l.
    repeat (constructor; [vm_compute; reflexivity |]). constructor. }
  destruct (decide (k < 46)%nat) as [Hlt | Hge].
  - apply (proj1 (Forall_forall _ _) Hall). apply elem_of_seq. lia.
  - rewrite take_ge by (change (length (steps stale_head_phases)) with 45%nat;
                        lia).
    vm_compute. reflexivity.
Qed.


(** C2, as stated, fails: on a quiet queue that already holds 5,
    [enqueue(7)] followed by [try_dequeue(&x)] yields [x == 5]. *)
Lemma round_trip_behind_a_pending_value :
  queue_rep one_pending 0 [1%nat] [5] [] /\
  (exists s', returns (MPMCQueue.enqueue 1 7 ;; MPMCQueue.try_dequeue 1 0)
                [] one_pending (true, 5) s') /\
  ~ (exists s', returns (MPMCQueue.enqueue 1 7 ;; MPMCQueue.try_dequeue 1 0)
                  [] one_pending (true, 7) s').
Proof.
  split; [exact one_pending_quiet |]. split.
  - eexists. exists []. split; [done |]. vm_compute. reflexivity.
  - intros (s' & o' & _ & Hex). vm_compute in Hex. discriminate.
Qed.


(** *** Instances *)

Lemma mpmc_fifo_single_thread_witness :
  (length [true; false; true] < 4)%nat /\
  exists s,
    returns (MPMCQueue.construct 4 2 ;;
             enqueue_all 4 [1; 2; 3] ;;
             dequeue_n MPMCQueue.try_dequeue 4 4 0)
      [true; false; true] empty_state
      [(true, 1); (true, 2); (true, 3); (false, 3)] s.
Proof.
  split; [cbn; lia |].
  apply (mpmc_fifo_single_thread 2 [1; 2; 3] 0 4 [true; false; true]).
  cbn; lia.
Defined.

Lemma round_trip_on_empty_queue_witness :
  queue_rep (dummy_only (T:=Z)) 0 [] [] [] /\
  (length (@nil bool) < 1)%nat /\
  exists s',
    returns (MPMCQueue.enqueue 1 7 ;; MPMCQueue.try_dequeue 1 0)
      [] dummy_only (true, 7) s'.
Proof.
  assert (Hrep : queue_rep (dummy_only (T:=Z)) 0 [] [] []) by quiet.
  assert (Hfuel : (length (@nil bool) < 1)%nat) by (cbn; lia).
  split; [exact Hrep |]. split; [exact Hfuel |].
  exact (round_trip_on_empty_queue dummy_only 0%nat [] 7 0 1%nat [] Hrep Hfuel).
Defined.


Lemma mpsc_rewind_law_witness :
  queue_rep three_pending 0 [1; 2; 3]%nat [10; 20; 30] [] /\
  (length (@nil bool) < 1)%nat /\
  exists s',
    returns (r <- MPSCQueue.try_dequeue 1 0 ;;
             MPSCQueue.rewind 1 99 ;;
             rs <- dequeue_n MPSCQueue.try_dequeue 1 3 (snd r) ;;
             Ret (r, rs))
      [] three_pending ((true, 10), [(true, 99); (true, 20); (true, 30)]) s'.
Proof.
  assert (Hrep : queue_rep three_pending 0 [1; 2; 3]%nat [10; 20; 30] [])
    by quiet.
  assert (Hfuel : (length (@nil bool) < 1)%nat) by (cbn; lia).
  split; [exact Hrep |]. split; [exact Hfuel |].
  exact (mpsc_rewind_law three_pending 0%nat 1%nat [2; 3]%nat 10 [20; 30] []
           99 0 1%nat [] Hrep Hfuel).
Defined.

Lemma try_dequeue_false_iff_null_next_witness :
  head one_pending = Some 0%nat /\
  heap one_pending !! 0%nat = Some (Block None 1 0 (Some 1%nat)) /\
  0 < 1 < size_mod /\
  (forall n, Some 1%nat = Some n -> is_Some (heap one_pending !! n)) /\
  (length (@nil bool) < 1)%nat /\
  (forall tr r x, run (MPMCQueue.try_dequeue (T:=Z) 1 0) tr (r, x) ->
     exists nh, last_block_next tr = Some nh /\ (r = false <-> nh = None)) /\
  (forall tr r x, run (MPSCQueue.try_dequeue (T:=Z) 1 0) tr (r, x) ->
     exists nh, last_block_next tr = Some nh /\ (r = false <-> nh = None)) /\
  (exists r s', returns (MPMCQueue.try_dequeue 1 0) [] one_pending r s' /\
     (fst r = false <-> Some 1%nat = None)) /\
  (exists r s', returns (MPSCQueue.try_dequeue 1 0) [] one_pending r s' /\
     (fst r = false <-> Some 1%nat = None)) /\
  (forall qs vs fl, queue_rep one_pending 0 qs vs fl ->
     (Some 1%nat = None <-> vs = [])) /\
  (forall capacity, exists s',
     returns (MPMCQueue.construct 1 capacity ;;
              MPMCQueue.try_dequeue 1 0) [] empty_state (false, 0) s') /\
  (forall capacity, exists s',
     returns (MPMCQueue.construct 1 capacity ;;
              MPSCQueue.try_dequeue 1 0) [] empty_state (false, 0) s').
Proof.
  assert (Hhd : head one_pending = Some 0%nat) by reflexivity.
  assert (Hb : heap one_pending !! 0%nat = Some (Block None 1 0 (Some 1%nat)))
    by reflexivity.
  assert (Ht : 0 < 1 < size_mod) by (split; reflexivity).
  assert (Hn : forall n, Some 1%nat = Some n ->
            is_Some (heap one_pending !! n)).
  { intros n [= <-]. by eexists. }
  assert (Hfuel : (length (@nil bool) < 1)%nat) by (cbn; lia).
  do 5 (split; [assumption |]).
  exact (try_dequeue_false_iff_null_next one_pending 0%nat
           (Block None 1 0 (Some 1%nat)) 0 1%nat [] Hhd Hb Ht Hn Hfuel).
Defined.

Lemma pool_exhaustion_witness :
  queue_rep recycled_dummy 2 [] [] [0; 1]%nat /\
  (length [true] < 2)%nat /\
  (forall tr r, run (MPMCQueue.try_enqueue (T:=Z) 2 7) tr r ->
     (r = false <-> ends_on_empty_pool tr = true) /\
     exchanges tr = (if r then 1 else 0)%nat) /\
  (forall tr r, run (MPMCQueue.enqueue (T:=Z) 2 7) tr r ->
     r = true /\ exchanges tr = 1%nat) /\
  (exists r s', returns (MPMCQueue.try_enqueue 2 7) [true] recycled_dummy r s' /\
     (r = false <-> top recycled_dummy = None) /\
     (r = false -> s' = recycled_dummy) /\
     (r = true -> exists n fl', queue_rep s' 2 ([] ++ [n]) ([] ++ [7]) fl')) /\
  (exists n s', returns (MPMCQueue.enqueue 2 7) [true] recycled_dummy true s' /\
     queue_rep s' 2 ([] ++ [n]) ([] ++ [7]) (tl [0; 1]%nat) /\
     (top recycled_dummy = None ->
      n = length (heap recycled_dummy) /\
      length (heap s') = S (length (heap recycled_dummy)))).
Proof.
  assert (Hrep : queue_rep recycled_dummy 2 [] [] [0; 1]%nat) by quiet.
  assert (Hfuel : (length [true] < 2)%nat) by (cbn; lia).
  split; [exact Hrep |]. split; [exact Hfuel |].
  exact (pool_exhaustion recycled_dummy 2%nat [] [] [0; 1]%nat 7 2%nat [true]
           Hrep Hfuel).
Defined.

Lemma release_ref_pushes_last_reference_witness :
  let tr : list (observation Z) :=
    [Obs (RefFetchSub (Some 1%nat)) 1;
     Obs TopLoad None; Obs (NodeNextStore (Some 1%nat) None) tt;
     Obs (TopCas None (Some 1%nat)) false;
     Obs TopLoad None; Obs (NodeNextStore (Some 1%nat) None) tt;
     Obs (TopCas None (Some 1%nat)) true;
     Obs (RefStore (Some 1%nat) 1) tt] in
  heap spare_block !! 1%nat = Some new_block /\
  (length [true; false] < 3)%nat /\
  run (FreeList.release_ref 3 (Some 1%nat)) tr tt /\
  returns (FreeList.release_ref 3 (Some 1%nat)) [true; false] spare_block tt
    (pushed spare_block 1 new_block) /\
  returns (FreeList.push 3 (Some 1%nat)) [true; false] spare_block true
    (pushed spare_block 1 new_block) /\
  exists old,
    (old <> 1 /\ tr = [Obs (RefFetchSub (Some 1%nat)) old]) \/
    (old = 1 /\ exists tr', tr = Obs (RefFetchSub (Some 1%nat)) 1 :: tr' /\
       push_trace (Some 1%nat) tr').
Proof.
  intros tr.
  assert (Hb : heap spare_block !! 1%nat = Some new_block) by reflexivity.
  assert (Hfuel : (length [true; false] < 3)%nat) by (cbn; lia).
  assert (Hrun : run (FreeList.release_ref 3 (Some 1%nat)) tr tt).
  { unfold FreeList.release_ref. cbn.
    repeat (eexists; eexists; split; [reflexivity |]; cbn). done. }
  split; [exact Hb |]. split; [exact Hfuel |]. split; [exact Hrun |].
  exact (release_ref_pushes_last_reference spare_block 1%nat new_block 3%nat
           [true; false] tr tt Hb Hfuel Hrun).
Defined.


(** *** The free list on its own *)

Section PoolFacts.
Context {T : Type} `{ValueInit T}.
Implicit Types (s : state T) (fl us : list nat).

(** Sequencing: what follows [p] runs on the oracle [p] has left. *)
Lemma returns_seq {A B} (p : prog T A) (f : A -> prog T B) o s r s1 :
  returns p o s r s1 ->
  exists o1, (length o1 <= length o)%nat /\
    forall r' s', returns (f r) o1 s1 r' s' -> returns (bind p f) o s r' s'.
Proof.
  intros (o1 & Hlen & Hex). exists o1. split; [done |].
  intros r' s' (o2 & Hlen2 & Hex2). exists o2. split; [lia |].
  by rewrite exec_bind, Hex.
Qed.

Lemma returns_inj {R} (p : prog T R) o s r1 s1 r2 s2 :
  returns p o s r1 s1 -> returns p o s r2 s2 -> r1 = r2 /\ s1 = s2.
Proof. intros (o1 & _ & H1) (o2 & _ & H2). rewrite H1 in H2. by simplify_eq. Qed.

Lemma pool_push s fl a b :
  pool_rep s fl ->
  a ∉ fl ->
  heap s !! a = Some b ->
  pool_rep (pushed s a b) (a :: fl) /\
  forall a', a' <> a -> heap (pushed s a b) !! a' = heap s !! a'.
Proof.
  intros (Hpool & Hnd & Href) Hout Hb.
  assert (Hlt : (a < length (heap s))%nat) by (by eapply lookup_lt_Some).
  assert (Hother : forall {X} (f : block T -> X) a', a' ∈ fl ->
            field f (heap (pushed s a b)) a' = field f (heap s) a').
  { intros X f a' Ha'. cbn. rewrite field_insert by done.
    destruct (decide (a' = a)) as [-> | _]; [done | reflexivity]. }
  split; [split; [| split] |].
  - cbn [lseg pushed top]. split; [done |]. exists (top s). split.
    + cbn. rewrite field_insert by done. by rewrite decide_True.
    + eapply lseg_ext; [| done]. intros a' Ha'. by apply Hother.
  - by apply NoDup_cons.
  - apply Forall_cons. split.
    + cbn. rewrite field_insert by done. by rewrite decide_True.
    + rewrite Forall_forall in *. intros a' Ha'. rewrite Hother by done.
      by apply Href.
  - intros a' Hne. cbn. by rewrite list_lookup_insert_ne.
Qed.

Lemma pool_pop s u fl :
  pool_rep s (u :: fl) ->
  exists b, top s = Some u /\ heap s !! u = Some b /\ refcnt b = 1 /\
    (u ∉ fl) /\
    pool_rep (State (heap s) (node_next b) (head s) (tail s)) fl.
Proof.
  intros (Hpool & Hnd & Href).
  apply Forall_cons in Href as [Hu Href].
  apply field_is_Some in Hu as (b & Hb & Hone).
  cbn in Hpool. destruct Hpool as (Htop & p' & Hp' & Hrest).
  unfold field in Hp'. rewrite Hb in Hp'. simplify_eq/=.
  apply NoDup_cons in Hnd as [Hout Hnd].
  exists b. by do 4 (split; [done |]).
Qed.

Lemma push_all_pool fuel us : forall o s fl,
  pool_rep s fl ->
  NoDup us ->
  (forall u, u ∈ us -> (u ∉ fl) /\ field refcnt (heap s) u = Some 1) ->
  (length o < fuel)%nat ->
  exists s', returns (push_all fuel us) o s tt s' /\
    pool_rep s' (rev us ++ fl) /\
    head s' = head s /\ tail s' = tail s /\
    length (heap s') = length (heap s).
Proof.
  induction us as [| u us IH]; intros o s fl Hpool Hnd Hus Hfuel.
  - exists s. split; [apply returns_ret | done].
  - apply NoDup_cons in Hnd as [Hu Hnd].
    destruct (Hus u) as [Hout Hone]; [apply elem_of_cons; by left |].
    apply field_is_Some in Hone as (b & Hb & Hone).
    destruct (pool_push s fl u b Hpool Hout Hb) as [Hpool1 Hsame].
    pose proof (push_spec o fuel s u b Hb Hfuel) as Hpush.
    rewrite Hone in Hpush. cbn in Hpush.
    destruct (returns_seq _ (fun _ => push_all fuel us) _ _ _ _ Hpush)
      as (o1 & Hlen1 & Hseq).
    destruct (IH o1 (pushed s u b) (u :: fl))
      as (s' & Hret & Hp & Hhd & Htl & Hlen); [done | done | | lia |].
    + intros u' Hu'. destruct (Hus u') as [Hout' Hone'];
        [apply elem_of_cons; by right |].
      split.
      * intros [-> | ?]%elem_of_cons; done.
      * unfold field. rewrite Hsame; [done | by intros ->].
    + exists s'. split; [by apply Hseq |].
      cbn [rev]. rewrite <- app_assoc. split; [done |].
      cbn in Hhd, Htl, Hlen. by rewrite length_insert in Hlen.
Qed.

Lemma pop_pool_some o fuel s u fl :
  pool_rep s (u :: fl) ->
  (length o < fuel)%nat ->
  returns (FreeList.pop fuel) o s (Some (Some u)) (popped s fl) /\
    pool_rep (popped s fl) fl.
Proof.
  intros Hpool Hfuel.
  destruct (pool_pop _ _ _ Hpool) as (b & Htop & Hb & Hone & Hout & Hpool').
  assert (Hnext : node_next b = hd_error fl).
  { destruct Hpool' as (Hl & _). by apply lseg_start in Hl. }
  unfold popped. rewrite <- Hnext. split; [| done].
  apply pop_spec_some; try done. rewrite Hone. apply size_t_one.
Qed.

Lemma pop_n_pool fuel fl : forall o s,
  pool_rep s fl ->
  (length o < fuel)%nat ->
  exists s', returns (pop_n fuel (S (length fl))) o s
      (map (fun u => Some (Some u)) fl ++ [None]) s' /\
    pool_rep s' [] /\ heap s' = heap s /\
    head s' = head s /\ tail s' = tail s.
Proof.
  induction fl as [| u fl IH]; intros o s Hpool Hfuel.
  - exists s. split; [| done].
    destruct Hpool as (Htop & _). cbn in Htop.
    destruct (returns_seq _ (fun r => rs <- pop_n fuel 0 ;; Ret (r :: rs))
                _ _ _ _ (pop_spec_none o fuel s Htop Hfuel))
      as (o1 & Hlen1 & Hseq).
    apply Hseq. apply returns_ret.
  - destruct (pop_pool_some o fuel s u fl Hpool Hfuel) as [Hpop Hpool1].
    destruct (returns_seq _
                (fun r => rs <- pop_n fuel (S (length fl)) ;; Ret (r :: rs))
                _ _ _ _ Hpop) as (o1 & Hlen1 & Hseq).
    destruct (IH o1 (popped s fl) Hpool1 ltac:(lia))
      as (s' & Hret & Hp & Hheap & Hhd & Htl).
    exists s'. split; [| done].
    apply Hseq.
    destruct (returns_seq _ (fun rs => Ret (Some (Some u) :: rs))
                _ _ _ _ Hret) as (o2 & Hlen2 & Hseq2).
    apply Hseq2. apply returns_ret.
Qed.

(** X2.  The free list is a stack: blocks pushed one after the other on a
    quiet pool and then popped come back in the reverse order of their
    pushes, followed by the blocks the pool held before, top first; the
    next [pop] finds the pool empty and returns [false]. *)
Theorem pool_is_a_stack s fl us fuel o :
  pool_rep s fl ->
  NoDup us ->
  (forall u, u ∈ us -> (u ∉ fl) /\ field refcnt (heap s) u = Some 1) ->
  (length o < fuel)%nat ->
  exists s',
    returns (push_all fuel us ;; pop_n fuel (S (length us + length fl))) o s
      (map (fun u => Some (Some u)) (rev us ++ fl) ++ [None]) s' /\
    pool_rep s' [] /\
    length (heap s') = length (heap s).
Proof.
  intros Hpool Hnd Hus Hfuel.
  destruct (push_all_pool fuel us o s fl Hpool Hnd Hus Hfuel)
    as (s1 & Hpush & Hpool1 & _ & _ & Hlen).
  destruct (returns_seq _
              (fun _ => pop_n fuel (S (length us + length fl)))
              _ _ _ _ Hpush) as (o1 & Hlen1 & Hseq).
  destruct (pop_n_pool fuel (rev us ++ fl) o1 s1 Hpool1 ltac:(lia))
    as (s' & Hpop & Hpool' & Hheap & _).
  exists s'. split; [| split; [done | by rewrite Hheap]].
  apply Hseq. by rewrite length_app, length_rev in Hpop.
Qed.

Lemma crun_app {R} (l1 l2 : list (nat * bool)) (c : config T R) :
  crun (l1 ++ l2) c = crun l1 c ≫= crun l2.
Proof.
  revert c. induction l1 as [| [i spur] l1 IH]; intros c; cbn; [done |].
  destruct (cstep i spur c) as [c' |]; [apply IH | done].
Qed.

(** A popper that meets a block whose [refcnt] is 0 at [top] goes round
    its loop. *)
Lemma pop_spins_on_ghost s a b sched : forall (c c' : config T unit) p,
  mem c = half_pushed s a b ->
  heap s !! a = Some b ->
  threads c !! 1%nat = Some p ->
  ((exists k, p = (FreeList.pop k ;; Ret tt)) \/
   (exists g k, p = Act (RefLoad (Some a)) g /\
      g 0 = (FreeList.pop k ;; Ret tt))) ->
  Forall (fun st => fst st = 1%nat) sched ->
  crun sched c = Some c' ->
  mem c' = half_pushed s a b /\ result c' 1 = None /\
  threads c' !! 0%nat = threads c !! 0%nat.
Proof.
  assert (Hlt : forall b0, heap s !! a = Some b0 ->
            heap (half_pushed s a b) !! a =
            Some (Block (top s) 0 (elem b) (block_next b))).
  { intros b0 Hb0. cbn. apply list_lookup_insert_eq.
    by eapply lookup_lt_Some. }
  induction sched as [| [i spur] sched IH]; intros c c' p Hmem Hb Hp Hshape Hall Hrun.
  - cbn in Hrun. simplify_eq. split; [done |]. split; [| done].
    unfold result. rewrite Hp.
    destruct Hshape as [[k ->] | (g & k & -> & _)]; [| done].
    by destruct k.
  - apply Forall_cons in Hall as [Hi Hall]. cbn in Hi. subst i.
    cbn [crun] in Hrun. unfold cstep in Hrun. rewrite Hp in Hrun.
    destruct Hshape as [[k ->] | (g & k & -> & Hg)].
    + destruct k as [| k]; [done |]. cbn in Hrun.
      rewrite Hmem in Hrun. cbn [top half_pushed is_null] in Hrun.
      eapply IH in Hrun as (Hmem' & Hres & Hth); [| done | done | | | done].
      * split; [done |]. split; [done |]. rewrite Hth. cbn.
        by rewrite list_lookup_insert_ne.
      * cbn. apply list_lookup_insert_eq. by eapply lookup_lt_Some.
      * right. eexists _, k. split; [reflexivity |]. cbn. reflexivity.
    + cbn [perform deref] in Hrun. rewrite Hmem in Hrun.
      rewrite (Hlt b Hb) in Hrun. cbn in Hrun. rewrite Hg in Hrun.
      eapply IH in Hrun as (Hmem' & Hres & Hth); [| done | done | | | done].
      * split; [done |]. split; [done |]. rewrite Hth. cbn.
        by rewrite list_lookup_insert_ne.
      * cbn. apply list_lookup_insert_eq. by eapply lookup_lt_Some.
      * left. by exists k.
Qed.

(** X3.  [pop] is blocked by a stalled [push]: once a [push] of block [a]
    has swung [top] to [a] (its fourth access) and before it stores the
    [refcnt], [a] is at the top with [refcnt] 0, and a [pop] that runs
    while the pusher is stalled, for however many steps, does not return
    and changes nothing. *)
Theorem stalled_push_blocks_pop s a b fuel fuel' sched
    (c' : config T unit) :
  heap s !! a = Some b ->
  refcnt b = 1 ->
  Forall (fun st => fst st = 1%nat) sched ->
  crun (repeat (0%nat, false) 4 ++ sched)
    (Config s [FreeList.push fuel (Some a) ;; Ret tt;
               FreeList.pop fuel' ;; Ret tt]) = Some c' ->
  mem c' = half_pushed s a b /\ result c' 1 = None.
Proof.
  intros Hb Hone Hall Hrun. rewrite crun_app in Hrun.
  destruct fuel as [| fuel].
  { exfalso. unfold FreeList.push, FreeList.release_ref in Hrun.
    cbn in Hrun. rewrite Hb in Hrun. cbn in Hrun. rewrite Hone in Hrun.
    cbn in Hrun. done. }
  unfold FreeList.push, FreeList.release_ref in Hrun.
  destruct s as [hp tp hd tl]. cbn in Hb.
  assert (Hlt : (a < length hp)%nat) by (by eapply lookup_lt_Some).
  cbn in Hrun. rewrite Hb in Hrun. cbn in Hrun. rewrite Hone in Hrun.
  cbn in Hrun. rewrite list_lookup_insert_eq in Hrun by done.
  cbn in Hrun. rewrite ptr_eqb_refl in Hrun. cbn in Hrun.
  rewrite list_insert_insert_eq in Hrun.
  eapply (pop_spins_on_ghost (State hp tp hd tl) a b) in Hrun
    as (Hmem & Hres & _); [done | | done | reflexivity | | done].
  - reflexivity.
  - left. by exists fuel'.
Qed.

End PoolFacts.

(** *** More on the quiet queue *)

Section QuietMore.
Context {T : Type} `{ValueInit T}.
Implicit Types (s : state T) (qs fl : list nat) (vs : list T).

Lemma fill_exact fuel capacity : forall o s d qs vs fl,
  queue_rep s d qs vs fl ->
  (length o < fuel)%nat ->
  exists s', returns (MPMCQueue.fill fuel capacity) o s tt s' /\
    queue_rep s' d qs vs (rev (seq (length (heap s)) capacity) ++ fl) /\
    length (heap s') = (length (heap s) + capacity)%nat.
Proof.
  induction capacity as [| capacity IH]; intros o s d qs vs fl Hrep Hfuel.
  - exists s. split; [apply returns_ret |]. split; [done | cbn; lia].
  - destruct (rep_alloc _ _ _ _ _ Hrep) as [Hout Hrep1].
    assert (Hbn : heap (allocated s) !! length (heap s) = Some new_block).
    { cbn. by rewrite lookup_app_r, Nat.sub_diag. }
    pose proof (rep_push _ _ _ _ _ _ _ Hrep1 Hout Hbn) as Hrep2.
    set (s2 := pushed (allocated s) (length (heap s)) new_block) in *.
    assert (Hgrown : length (heap s2) = S (length (heap s))).
    { subst s2. cbn. rewrite length_insert, length_app. cbn. lia. }
    destruct (returns_seq (atomic NewBlock)
                (fun n => FreeList.push fuel n ;; MPMCQueue.fill fuel capacity)
                o s (Some (length (heap s))) (allocated s))
      as (o0 & Hlen0 & Hseq0); [by apply returns_atomic |].
    pose proof (push_spec o0 fuel (allocated s) (length (heap s)) new_block
                  Hbn ltac:(lia)) as Hpush.
    cbn [refcnt new_block Z.eqb Pos.eqb] in Hpush. fold s2 in Hpush.
    destruct (returns_seq _ (fun _ => MPMCQueue.fill fuel capacity)
                _ _ _ _ Hpush) as (o1 & Hlen1 & Hseq).
    destruct (IH o1 s2 d qs vs (length (heap s) :: fl) Hrep2 ltac:(lia))
      as (s' & Hfill & Hrep' & Hlen').
    rewrite Hgrown in Hrep', Hlen'.
    exists s'. split; [| split].
    + cbn [MPMCQueue.fill]. by apply Hseq0, Hseq.
    + cbn [seq rev]. by rewrite <- app_assoc.
    + lia.
Qed.

(** X1.  The constructor, for every capacity: block 0 is the dummy, head
    and tail point to it, the queue holds no value, and the pool holds the
    [capacity] blocks 1 .. [capacity], the last one allocated on top, each
    with [refcnt] 1; [capacity + 1] blocks have been allocated. *)
Theorem construct_builds_queue_and_pool capacity fuel o :
  (length o < fuel)%nat ->
  exists s : state T,
    returns (MPMCQueue.construct fuel capacity) o empty_state tt s /\
    queue_rep s 0 [] [] (rev (seq 1 capacity)) /\
    length (heap s) = S capacity.
Proof.
  intros Hfuel.
  destruct (fill_exact fuel capacity o dummy_only 0 [] [] [] rep_dummy_only
              Hfuel) as (s & Hfill & Hrep & Hlen).
  exists s. split; [exact Hfill |]. split; [| exact Hlen].
  by rewrite app_nil_r in Hrep.
Qed.

(** [try_enqueue], [try_dequeue] and [rewind] with the size of the heap. *)
Lemma try_enqueue_exact o fuel s d qs vs u fl e :
  queue_rep s d qs vs (u :: fl) ->
  (length o < fuel)%nat ->
  exists s', returns (MPMCQueue.try_enqueue fuel e) o s true s' /\
    queue_rep s' d (qs ++ [u]) (vs ++ [e]) fl /\
    length (heap s') = length (heap s).
Proof.
  intros Hrep Hfuel. unfold MPMCQueue.try_enqueue.
  destruct (pop_rep_some o fuel _ _ _ _ _ _ Hrep Hfuel)
    as (Hpop & Hrep1 & Hout & b & Hb & Hone).
  destruct (rep_link (popped s fl) _ _ _ _ _ _ e Hrep1 Hout Hb Hone)
    as (t & bt & Htl & Hne & Hbt & Hrep2).
  eexists. split; [| split; [exact Hrep2 |]].
  - eapply returns_bind; [done |]. intros o1 _.
    eapply returns_bind; [by apply (_enqueue_spec o1 (popped s fl)) |].
    intros o2 _. apply returns_ret.
  - cbn. by rewrite !length_insert.
Qed.

Lemma mpmc_try_dequeue_exact o fuel s d n qs x vs fl e :
  queue_rep s d (n :: qs) (x :: vs) fl ->
  (length o < fuel)%nat ->
  exists s', returns (MPMCQueue.try_dequeue fuel e) o s (true, x) s' /\
    queue_rep s' n qs vs (d :: fl) /\
    length (heap s') = length (heap s).
Proof.
  intros Hrep Hfuel.
  destruct (rep_advance _ _ _ _ _ _ _ Hrep)
    as (b & bn & Hb & Hone & Hnext & Hbn & Hx & Hout & Hrep1).
  pose proof (mpmc_try_dequeue_some o fuel e s d b n bn) as Hdeq.
  rewrite Hone, Hx in Hdeq. cbn in Hdeq.
  eexists. split; [| split].
  - apply Hdeq; [by destruct Hrep | done | apply size_t_one | done..].
  - by apply (rep_push (State (heap s) (top s) (Some n) (tail s))).
  - cbn. by rewrite length_insert.
Qed.

Lemma mpsc_try_dequeue_exact o fuel s d n qs x vs fl e :
  queue_rep s d (n :: qs) (x :: vs) fl ->
  (length o < fuel)%nat ->
  exists s', returns (MPSCQueue.try_dequeue fuel e) o s (true, x) s' /\
    queue_rep s' n qs vs (d :: fl) /\
    length (heap s') = length (heap s).
Proof.
  intros Hrep Hfuel.
  destruct (rep_advance _ _ _ _ _ _ _ Hrep)
    as (b & bn & Hb & Hone & Hnext & Hbn & Hx & Hout & Hrep1).
  pose proof (mpsc_try_dequeue_some o fuel e s d b n bn) as Hdeq.
  rewrite Hone, Hx in Hdeq. cbn in Hdeq.
  eexists. split; [| split].
  - apply Hdeq; [by destruct Hrep | done..].
  - by apply (rep_push (State (heap s) (top s) (Some n) (tail s))).
  - cbn. by rewrite length_insert.
Qed.

Lemma rewind_exact o fuel s d qs vs fl e :
  queue_rep s d qs vs fl ->
  (length o < fuel)%nat ->
  exists s', returns (MPSCQueue.rewind fuel e) o s true s' /\
    queue_rep s' (hd (length (heap s)) fl) (d :: qs) (e :: vs) (tl fl) /\
    length (heap s') =
      match fl with [] => S (length (heap s)) | _ => length (heap s) end.
Proof.
  intros Hrep Hfuel. unfold MPSCQueue.rewind. destruct fl as [| u fl].
  - destruct (rep_alloc _ _ _ _ _ Hrep) as [Hout Hrep1].
    assert (Hbn : heap (allocated s) !! length (heap s) = Some new_block).
    { cbn. by rewrite lookup_app_r, Nat.sub_diag. }
    destruct (rep_relink _ _ _ _ _ _ _ e Hrep1 Hout Hbn eq_refl)
      as (b & Hb & Hrep2).
    eexists. split; [| split; [exact Hrep2 |]].
    + eapply returns_bind; [by eapply pop_rep_none |]. intros o1 _.
      eapply returns_bind; [by apply returns_atomic |]. intros o2 _.
      apply (relink_spec o2 (allocated s)); try done.
      * by destruct Hrep1.
      * intros ->. apply Hout. mem.
    + cbn. rewrite !length_insert, length_app. cbn. lia.
  - destruct (pop_rep_some o fuel _ _ _ _ _ _ Hrep Hfuel)
      as (Hpop & Hrep1 & Hout & bu & Hbu & Hone).
    destruct (rep_relink (popped s fl) _ _ _ _ _ _ e Hrep1 Hout Hbu Hone)
      as (b & Hb & Hrep2).
    eexists. split; [| split; [exact Hrep2 |]].
    + eapply returns_bind; [done |]. intros o1 _.
      eapply returns_bind; [apply returns_ret |]. intros o2 _.
      apply (relink_spec o2 (popped s fl)); try done.
      * by destruct Hrep1.
      * intros ->. apply Hout. mem.
    + cbn. by rewrite !length_insert.
Qed.

(** X4.  The block a dequeue frees is the block the next enqueue uses:
    after a [try_dequeue] that returns a value, [enqueue] allocates
    nothing and links the old dummy block behind the tail; the pool is as
    it was. *)
Theorem dequeue_frees_the_block_for_enqueue s d n qs x vs fl (v e : T)
    fuel o :
  queue_rep s d (n :: qs) (x :: vs) fl ->
  (length o < fuel)%nat ->
  exists s',
    returns (r <- MPMCQueue.try_dequeue fuel e ;;
             MPMCQueue.enqueue fuel v ;;
             Ret r) o s (true, x) s' /\
    queue_rep s' n (qs ++ [d]) (vs ++ [v]) fl /\
    length (heap s') = length (heap s).
Proof.
  intros Hrep Hfuel.
  destruct (mpmc_try_dequeue_exact o fuel s d n qs x vs fl e Hrep Hfuel)
    as (s1 & Hdeq & Hrep1 & Hlen1).
  destruct (returns_seq _ (fun r => MPMCQueue.enqueue fuel v ;; Ret r)
              _ _ _ _ Hdeq) as (o1 & Hle1 & Hseq1).
  destruct (enqueue_rep o1 fuel s1 n qs vs (d :: fl) v Hrep1 ltac:(lia))
    as (m & s2 & Henq & Hrep2 & _ & -> & Hlen2).
  destruct (returns_seq _ (fun _ => Ret (true, x)) _ _ _ _ Henq)
    as (o2 & Hle2 & Hseq2).
  exists s2. split; [| split; [done | congruence]].
  apply Hseq1, Hseq2, returns_ret.
Qed.

(** X5.  Run alone, [MPSCQueue::try_dequeue] and [MPMCQueue::try_dequeue]
    do the same: on a memory whose head block has a [refcnt] that is
    neither 0 nor about to wrap, they return the same result and leave the
    same memory, whichever weak CAS fails spuriously in either. *)
Theorem try_dequeue_variants_agree_alone s d b (e : T) fuel fuel' o o' :
  head s = Some d ->
  heap s !! d = Some b ->
  0 < refcnt b < size_mod ->
  (forall n, block_next b = Some n -> is_Some (heap s !! n)) ->
  (length o < fuel)%nat ->
  (length o' < fuel')%nat ->
  exists r s',
    returns (MPMCQueue.try_dequeue fuel e) o s r s' /\
    returns (MPSCQueue.try_dequeue fuel' e) o' s r s'.
Proof.
  intros Hhd Hb Hcnt Hnext Hfuel Hfuel'.
  destruct (block_next b) as [n |] eqn:Hbn.
  - destruct (Hnext n eq_refl) as [bn Hn].
    eexists _, _. split.
    + by eapply mpmc_try_dequeue_some.
    + by eapply mpsc_try_dequeue_some.
  - exists (false, e), s. split.
    + by eapply mpmc_try_dequeue_empty.
    + by eapply mpsc_try_dequeue_empty.
Qed.

(** X6.  [rewind] is undone by the next [try_dequeue]: on a quiet queue
    the pair returns the value rewound, and leaves the queue with the
    dummy block, the blocks and the values it had; the pool is as it was,
    but for a pool that was empty, which now holds the block [rewind]
    allocated. *)
Theorem rewind_then_try_dequeue s d qs vs fl (w e : T) fuel o :
  queue_rep s d qs vs fl ->
  (length o < fuel)%nat ->
  exists s',
    returns (MPSCQueue.rewind fuel w ;; MPSCQueue.try_dequeue fuel e)
      o s (true, w) s' /\
    queue_rep s' d qs vs
      (match fl with [] => [length (heap s)] | _ => fl end).
Proof.
  intros Hrep Hfuel.
  destruct (rewind_exact o fuel s d qs vs fl w Hrep Hfuel)
    as (s1 & Hrew & Hrep1 & _).
  destruct (returns_seq _ (fun _ => MPSCQueue.try_dequeue fuel e)
              _ _ _ _ Hrew) as (o1 & Hle1 & Hseq1).
  destruct (mpsc_try_dequeue_rep_some o1 fuel s1 _ d qs w vs (tl fl) e
              Hrep1 ltac:(lia)) as (s2 & Hdeq & Hrep2).
  exists s2. split; [by apply Hseq1 |].
  by destruct fl.
Qed.

End QuietMore.

(** *** The destructor and whole lives of a queue *)

Section Lives.
Context {T : Type} `{ValueInit T}.
Implicit Types (s : state T) (qs fl : list nat) (vs : list T).

Lemma rep_pool_rep s d qs vs fl : queue_rep s d qs vs fl -> pool_rep s fl.
Proof.
  intros [_ _ _ _ Hpool Hnd Href]. split; [done |]. split.
  - change (NoDup ((d :: qs) ++ fl)) in Hnd. by apply NoDup_app in Hnd as (_ & _ & ?).
  - change (Forall (fun a => field refcnt (heap s) a = Some 1)
              ((d :: qs) ++ fl)) in Href.
    by apply Forall_app in Href as [_ ?].
Qed.

Lemma delete_pool_S fuel :
  MPMCQueue.delete_pool (T := T) (S fuel) =
  (r <- FreeList.pop (S fuel) ;;
   match r with
   | None => Ret []
   | Some p => ds <- MPMCQueue.delete_pool fuel ;; Ret (p :: ds)
   end).
Proof. reflexivity. Qed.

Lemma delete_pool_spec fl : forall fuel o s,
  pool_rep s fl ->
  (length o + length fl < fuel)%nat ->
  returns (MPMCQueue.delete_pool fuel) o s (map Some fl)
    (State (heap s) None (head s) (tail s)).
Proof.
  induction fl as [| u fl IH]; intros fuel o s Hpool Hfuel;
    (destruct fuel as [| fuel]; [cbn in Hfuel; lia |]).
  - destruct Hpool as (Htop & _). cbn in Htop.
    replace (State (heap s) None (head s) (tail s)) with s
      by (destruct s; cbn in *; by subst).
    rewrite delete_pool_S.
    eapply returns_bind; [apply pop_spec_none; [done | cbn in Hfuel; lia] |].
    intros o1 _. apply returns_ret.
  - destruct (pop_pool_some o (S fuel) s u fl Hpool) as [Hpop Hpool1];
      [cbn in Hfuel; lia |].
    rewrite delete_pool_S.
    eapply returns_bind; [exact Hpop |]. intros o1 Hle1.
    eapply returns_bind.
    + apply IH; [exact Hpool1 | cbn in Hfuel; lia].
    + intros o2 _. apply returns_ret.
Qed.

Lemma delete_chain_spec l : forall fuel o s p,
  lseg block_next (heap s) p l None ->
  (length l < fuel)%nat ->
  returns (MPMCQueue.delete_chain fuel p) o s (map Some l) s.
Proof.
  induction l as [| a l IH]; intros fuel o s p Hl Hfuel;
    (destruct fuel as [| fuel]; [cbn in Hfuel; lia |]).
  - cbn in Hl. subst p. apply returns_ret.
  - cbn in Hl. destruct Hl as (-> & p' & Hp' & Hrest).
    apply field_is_Some in Hp' as (b & Hb & <-).
    destruct (IH fuel o s (block_next b) Hrest) as (o1 & Hle1 & Hex);
      [cbn in Hfuel; lia |].
    exists o1. split; [done |]. cbn. rewrite Hb. cbn.
    rewrite exec_bind, Hex. reflexivity.
Qed.

Lemma destroy_spec s d qs vs fl fuel o :
  queue_rep s d qs vs fl ->
  (length o + length fl + length qs + 1 < fuel)%nat ->
  returns (MPMCQueue.destroy fuel) o s (map Some (fl ++ d :: qs))
    (State (heap s) None (head s) (tail s)).
Proof.
  intros Hrep Hfuel.
  pose proof (rep_pool_rep _ _ _ _ _ Hrep) as Hpool.
  unfold MPMCQueue.destroy.
  eapply returns_bind; [apply delete_pool_spec; [done | lia] |].
  intros o1 Hle1.
  eapply returns_bind; [by apply returns_atomic |]. intros o2 _.
  cbn [head]. rewrite (rep_head _ _ _ _ _ Hrep).
  eapply returns_bind.
  - apply (delete_chain_spec (d :: qs)); [| cbn; lia].
    exact (rep_chain _ _ _ _ _ Hrep).
  - intros o3 _. rewrite map_app. apply returns_ret.
Qed.

Lemma rep_nodup_blocks s d qs vs fl :
  queue_rep s d qs vs fl -> NoDup (fl ++ d :: qs).
Proof.
  intros Hrep. pose proof (rep_nodup _ _ _ _ _ Hrep) as Hnd.
  change (NoDup ((d :: qs) ++ fl)) in Hnd.
  by rewrite (Permutation_app_comm fl (d :: qs)).
Qed.

(** X7.  The destructor of a quiet queue deletes the blocks of the pool,
    top first, then the dummy block and the blocks that still hold values,
    oldest first: every block of the queue once, and none twice. *)
Theorem destructor_deletes_each_block_once s d qs vs fl fuel o :
  queue_rep s d qs vs fl ->
  (length o + length fl + length qs + 1 < fuel)%nat ->
  exists ds s',
    returns (MPMCQueue.destroy fuel) o s ds s' /\
    ds = map Some (fl ++ d :: qs) /\
    NoDup ds.
Proof.
  intros Hrep Hfuel.
  exists (map Some (fl ++ d :: qs)), (State (heap s) None (head s) (tail s)).
  split; [by eapply destroy_spec |]. split; [done |].
  apply (NoDup_fmap_2 Some). by eapply rep_nodup_blocks.
Qed.

(** One call against the list. *)
Lemma serve_refines o fuel s d qs vs fl (c : request T) e :
  queue_rep s d qs vs fl ->
  (length o < fuel)%nat ->
  exists s' d' qs' fl',
    returns (serve fuel c e) o s
      (fst (fifo_serve c e (Fifo vs (length fl) (length (heap s))))) s' /\
    queue_rep s' d' qs'
      (held (snd (fifo_serve c e (Fifo vs (length fl) (length (heap s))))))
      fl' /\
    length fl' =
      spare (snd (fifo_serve c e (Fifo vs (length fl) (length (heap s))))) /\
    length (heap s') =
      made (snd (fifo_serve c e (Fifo vs (length fl) (length (heap s))))).
Proof.
  intros Hrep Hfuel. destruct c as [v | v | | | v]; cbn [serve].
  - destruct (enqueue_rep o fuel s d qs vs fl v Hrep Hfuel)
      as (n & s' & Henq & Hrep' & _ & Hn).
    exists s', d, (qs ++ [n]), (tl fl). split; [| split; [exact Hrep' |]].
    + eapply returns_bind; [exact Henq |]. intros o1 _. apply returns_ret.
    + destruct fl as [| u fl]; cbn; destruct Hn as [_ ->]; done.
  - destruct fl as [| u fl].
    + exists s, d, qs, []. split; [| done].
      eapply returns_bind; [by eapply try_enqueue_rep_none |].
      intros o1 _. apply returns_ret.
    + destruct (try_enqueue_exact o fuel s d qs vs u fl v Hrep Hfuel)
        as (s' & Henq & Hrep' & Hlen).
      exists s', d, (qs ++ [u]), fl. split; [| done].
      eapply returns_bind; [exact Henq |]. intros o1 _. apply returns_ret.
  - destruct vs as [| x vs].
    + pose proof (rep_values_nil _ _ _ _ Hrep) as ->.
      exists s, d, [], fl. split; [| done].
      by eapply mpmc_try_dequeue_rep_empty.
    + destruct (rep_values_cons _ _ _ _ _ _ Hrep) as (n & qs' & ->).
      destruct (mpmc_try_dequeue_exact o fuel s d n qs' x vs fl e Hrep Hfuel)
        as (s' & Hdeq & Hrep' & Hlen).
      by exists s', n, qs', (d :: fl).
  - destruct vs as [| x vs].
    + pose proof (rep_values_nil _ _ _ _ Hrep) as ->.
      exists s, d, [], fl. split; [| done].
      by eapply mpsc_try_dequeue_rep_empty.
    + destruct (rep_values_cons _ _ _ _ _ _ Hrep) as (n & qs' & ->).
      destruct (mpsc_try_dequeue_exact o fuel s d n qs' x vs fl e Hrep Hfuel)
        as (s' & Hdeq & Hrep' & Hlen).
      by exists s', n, qs', (d :: fl).
  - destruct (rewind_exact o fuel s d qs vs fl v Hrep Hfuel)
      as (s' & Hrew & Hrep' & Hlen).
    exists s', (hd (length (heap s)) fl), (d :: qs), (tl fl).
    split; [| split; [exact Hrep' |]].
    + eapply returns_bind; [exact Hrew |]. intros o1 _. apply returns_ret.
    + destruct fl as [| u fl]; cbn; done.
Qed.

Lemma serve_all_refines fuel (cs : list (request T)) :
  forall o s d qs vs fl e,
  queue_rep s d qs vs fl ->
  (length o < fuel)%nat ->
  exists s' d' qs' fl',
    returns (serve_all fuel cs e) o s
      (fst (fifo_serve_all cs e (Fifo vs (length fl) (length (heap s))))) s' /\
    queue_rep s' d' qs'
      (held (snd (fifo_serve_all cs e
                    (Fifo vs (length fl) (length (heap s)))))) fl' /\
    length fl' =
      spare (snd (fifo_serve_all cs e
                    (Fifo vs (length fl) (length (heap s))))) /\
    length (heap s') =
      made (snd (fifo_serve_all cs e
                   (Fifo vs (length fl) (length (heap s))))).
Proof.
  induction cs as [| c cs IH]; intros o s d qs vs fl e Hrep Hfuel.
  - exists s, d, qs, fl. split; [apply returns_ret | done].
  - destruct (serve_refines o fuel s d qs vs fl c e Hrep Hfuel)
      as (s1 & d1 & qs1 & fl1 & Hone & Hrep1 & Hfl1 & Hhp1).
    cbn [fifo_serve_all].
    destruct (fifo_serve c e (Fifo vs (length fl) (length (heap s))))
      as [r m1] eqn:Hstep.
    cbn [fst snd] in Hone, Hrep1, Hfl1, Hhp1.
    destruct (returns_seq _
                (fun r => rs <- serve_all fuel cs (snd r) ;; Ret (r :: rs))
                _ _ _ _ Hone) as (o1 & Hle1 & Hseq1).
    destruct (IH o1 s1 d1 qs1 (held m1) fl1 (snd r) Hrep1 ltac:(lia))
      as (s' & d' & qs' & fl' & Hall & Hrep' & Hfl' & Hhp').
    rewrite Hfl1, Hhp1 in Hall, Hrep', Hfl', Hhp'.
    replace (Fifo (held m1) (spare m1) (made m1)) with m1
      in Hall, Hrep', Hfl', Hhp' by (by destruct m1).
    destruct (fifo_serve_all cs (snd r) m1) as [rs m'] eqn:Hrest.
    cbn [fst snd] in *.
    exists s', d', qs', fl'. split; [| done].
    cbn [serve_all]. apply Hseq1.
    eapply returns_bind; [exact Hall |]. intros o2 _. apply returns_ret.
Qed.

(** X8.  Run alone on a quiet queue, any sequence of calls of [enqueue],
    [try_enqueue], the two [try_dequeue] and [rewind] returns what the
    same calls return on a list with a count of spare blocks, whichever
    weak CAS fails spuriously, and leaves a quiet queue that holds the
    values of the list: [enqueue] and [rewind] always succeed and allocate
    only when the pool is empty, [try_enqueue] succeeds exactly when the
    pool is not empty, a [try_dequeue] returns the oldest value and gives
    one block to the pool, or fails on the empty queue. *)
Theorem calls_refine_bounded_fifo s d qs vs fl (cs : list (request T)) e
    fuel o :
  queue_rep s d qs vs fl ->
  (length o < fuel)%nat ->
  exists s' d' qs' fl',
    returns (serve_all fuel cs e) o s
      (fst (fifo_serve_all cs e (Fifo vs (length fl) (length (heap s))))) s' /\
    queue_rep s' d' qs'
      (held (snd (fifo_serve_all cs e
                    (Fifo vs (length fl) (length (heap s)))))) fl' /\
    length fl' =
      spare (snd (fifo_serve_all cs e
                    (Fifo vs (length fl) (length (heap s))))) /\
    length (heap s') =
      made (snd (fifo_serve_all cs e
                   (Fifo vs (length fl) (length (heap s))))).
Proof. apply serve_all_refines. Qed.

(** On the list, every block made is the dummy, holds a value or is
    spare. *)
Lemma fifo_serve_accounts (c : request T) e m :
  S (length (held m) + spare m) = made m ->
  S (length (held (snd (fifo_serve c e m))) +
     spare (snd (fifo_serve c e m))) = made (snd (fifo_serve c e m)) /\
  (made (snd (fifo_serve c e m)) <= S (made m))%nat.
Proof.
  intros Hacc. destruct m as [q k n]. cbn in Hacc.
  destruct c as [v | v | | | v]; cbn; unfold take_block; cbn;
    try (destruct k; cbn; rewrite ?length_app; cbn; lia);
    destruct q; cbn in *; lia.
Qed.

Lemma fifo_serve_all_accounts (cs : list (request T)) : forall e m,
  S (length (held m) + spare m) = made m ->
  S (length (held (snd (fifo_serve_all cs e m))) +
     spare (snd (fifo_serve_all cs e m))) =
    made (snd (fifo_serve_all cs e m)) /\
  (made (snd (fifo_serve_all cs e m)) <= made m + length cs)%nat.
Proof.
  induction cs as [| c cs IH]; intros e m Hacc; cbn [fifo_serve_all].
  - cbn. split; [done | lia].
  - destruct (fifo_serve_accounts c e m Hacc) as [Hacc1 Hle1].
    destruct (fifo_serve c e m) as [r m1]. cbn [snd] in Hacc1, Hle1.
    destruct (IH (snd r) m1 Hacc1) as [Hacc' Hle'].
    destruct (fifo_serve_all cs (snd r) m1) as [rs m']. cbn [snd] in *.
    split; [done | cbn [length]; lia].
Qed.

Lemma rep_covers s d qs vs fl :
  queue_rep s d qs vs fl ->
  S (length qs + length fl) = length (heap s) ->
  fl ++ d :: qs ≡ₚ seq 0 (length (heap s)).
Proof.
  intros Hrep Hlen.
  apply submseteq_length_Permutation.
  - apply NoDup_submseteq.
    + by eapply rep_nodup_blocks.
    + intros a Ha. apply elem_of_seq.
      destruct (rep_allocated _ _ _ _ _ a Hrep) as (b & Hb & _); [mem |].
      apply lookup_lt_Some in Hb. lia.
  - rewrite length_seq, length_app. cbn. lia.
Qed.

(** X9.  A whole life run alone: the constructor, any sequence of calls,
    the destructor.  The calls return what the list returns, and the
    destructor deletes every block that was ever allocated, each once. *)
Theorem life_of_a_queue capacity (cs : list (request T)) e fuel o :
  (length o + capacity + length cs + 1 < fuel)%nat ->
  exists ds s',
    returns (MPMCQueue.construct fuel capacity ;;
             rs <- serve_all fuel cs e ;;
             ds <- MPMCQueue.destroy fuel ;;
             Ret (rs, ds)) o empty_state
      (fst (fifo_serve_all cs e (Fifo [] capacity (S capacity))), ds) s' /\
    ds ≡ₚ map Some (seq 0 (length (heap s'))).
Proof.
  intros Hfuel.
  destruct (fill_exact fuel capacity o dummy_only 0 [] [] [] rep_dummy_only
              ltac:(lia)) as (s0 & Hfill & Hrep0 & Hlen0).
  rewrite app_nil_r in Hrep0. cbn in Hlen0.
  assert (Hctor : returns (MPMCQueue.construct fuel capacity) o
                    empty_state tt s0) by exact Hfill.
  destruct (returns_seq _
              (fun _ => rs <- serve_all fuel cs e ;;
                        ds <- MPMCQueue.destroy fuel ;; Ret (rs, ds))
              _ _ _ _ Hctor) as (o1 & Hle1 & Hseq1).
  destruct (serve_all_refines fuel cs o1 s0 0 [] [] _ e Hrep0 ltac:(lia))
    as (s1 & d1 & qs1 & fl1 & Hall & Hrep1 & Hfl1 & Hhp1).
  rewrite length_rev, length_seq, Hlen0 in Hall, Hrep1, Hfl1, Hhp1.
  destruct (fifo_serve_all_accounts cs e (Fifo [] capacity (S capacity))
              eq_refl) as [Hacc Hmade].
  cbn [made] in Hmade.
  destruct (fifo_serve_all cs e (Fifo [] capacity (S capacity)))
    as [rs m'] eqn:Hmodel.
  cbn [fst snd] in *.
  assert (Hqs : length qs1 = length (held m')).
  { by apply (Forall2_length _ _ _ (rep_elems _ _ _ _ _ Hrep1)). }
  destruct (returns_seq _
              (fun rs => ds <- MPMCQueue.destroy fuel ;; Ret (rs, ds))
              _ _ _ _ Hall) as (o2 & Hle2 & Hseq2).
  pose proof (destroy_spec s1 d1 qs1 (held m') fl1 fuel o2 Hrep1 ltac:(lia))
    as Hdel.
  exists (map Some (fl1 ++ d1 :: qs1)), (State (heap s1) None (head s1) (tail s1)).
  split.
  - apply Hseq1, Hseq2.
    eapply returns_bind; [exact Hdel |]. intros o3 _. apply returns_ret.
  - cbn [heap]. apply Permutation_map. apply (rep_covers _ _ _ _ _ Hrep1). lia.
Qed.

End Lives.

(** *** Allocations *)

Section AllocFacts.
Context {T : Type} `{ValueInit T}.

Lemma allocs_at_most_mono {R} (p : prog T R) : forall n m,
  (n <= m)%nat -> allocs_at_most n p -> allocs_at_most m p.
Proof.
  induction p as [r | X a k IH |]; intros n m Hle; cbn; try done.
  destruct (is_alloc a).
  - destruct n as [| n]; [done |]. destruct m as [| m]; [lia |].
    intros Hk x. apply (IH x n m); [lia | done].
  - intros Hk x. by apply (IH x n m).
Qed.

Lemma allocs_at_most_bind {A B} (p : prog T A) (f : A -> prog T B) :
  forall n m,
  allocs_at_most n p ->
  (forall r, allocs_at_most m (f r)) ->
  allocs_at_most (n + m) (bind p f).
Proof.
  induction p as [r | X a k IH |]; intros n m Hp Hf; cbn in *; try done.
  - apply (allocs_at_most_mono _ m); [lia | done].
  - destruct (is_alloc a).
    + destruct n as [| n]; [done |]. cbn. intros x. by apply IH.
    + intros x. by apply IH.
Qed.

Lemma allocs_at_most_run {R} (p : prog T R) : forall n tr r,
  allocs_at_most n p -> run p tr r -> (allocations tr <= n)%nat.
Proof.
  induction p as [r0 | X a k IH |]; intros n tr r Hp; cbn.
  - intros [-> _]. cbn. lia.
  - intros (x & tr' & -> & Hrun). cbn in Hp |- *.
    destruct (is_alloc a).
    + destruct n as [| n]; [done |].
      pose proof (IH x n tr' r (Hp x) Hrun). lia.
    + exact (IH x n tr' r (Hp x) Hrun).
  - done.
Qed.

Lemma no_alloc_bind {A B} (p : prog T A) (f : A -> prog T B) n :
  allocs_at_most 0 p ->
  (forall r, allocs_at_most n (f r)) ->
  allocs_at_most n (bind p f).
Proof. intros Hp Hf. by apply (allocs_at_most_bind p f 0 n). Qed.

Lemma no_alloc_atomic {X} (a : action T X) :
  is_alloc a = false -> allocs_at_most 0 (atomic a).
Proof. intros Ha. cbn. by rewrite Ha. Qed.

Lemma release_loop_no_alloc fuel u :
  allocs_at_most 0 (FreeList.release_loop (T:=T) fuel u).
Proof.
  induction fuel as [| fuel IH]; cbn; [done |].
  intros t []. intros ok. destruct ok; [by cbn | exact IH].
Qed.

Lemma release_ref_no_alloc fuel u :
  allocs_at_most 0 (FreeList.release_ref (T:=T) fuel u).
Proof.
  unfold FreeList.release_ref. cbn. intros old.
  destruct (negb (old =? 1)); [done | apply release_loop_no_alloc].
Qed.

Lemma push_no_alloc fuel u : allocs_at_most 0 (FreeList.push (T:=T) fuel u).
Proof.
  unfold FreeList.push. apply no_alloc_bind; [apply release_ref_no_alloc | done].
Qed.

Lemma pop_no_alloc fuel : allocs_at_most 0 (FreeList.pop (T:=T) fuel).
Proof.
  induction fuel as [| fuel IH]; cbn; [done |].
  intros u. destruct (is_null u); [done |]. cbn. intros t.
  destruct (t =? 0); [exact IH |]. cbn. intros ok.
  destruct ok; [| exact IH]. cbn. intros nv popped.
  apply no_alloc_bind; [apply release_ref_no_alloc |].
  intros _. destruct popped; [done | exact IH].
Qed.

Lemma _enqueue_no_alloc nblk (e : T) :
  allocs_at_most 0 (MPMCQueue._enqueue nblk e).
Proof. cbn. done. Qed.

Lemma mpmc_try_dequeue_no_alloc fuel : forall e : T,
  allocs_at_most 0 (MPMCQueue.try_dequeue fuel e).
Proof.
  induction fuel as [| fuel IH]; intros e; cbn; [done |].
  intros h t. destruct (t =? 0); [apply IH |]. cbn. intros ok.
  destruct ok; [| apply IH]. cbn. intros nh.
  destruct (is_null nh).
  - apply no_alloc_bind; [apply release_ref_no_alloc | done].
  - cbn. intros e' moved. destruct moved.
    + apply no_alloc_bind; [apply release_ref_no_alloc |]. intros _.
      apply no_alloc_bind; [apply push_no_alloc | done].
    + apply no_alloc_bind; [apply release_ref_no_alloc |]. intros _.
      apply IH.
Qed.

Lemma delete_pool_no_alloc fuel :
  allocs_at_most 0 (MPMCQueue.delete_pool (T:=T) fuel).
Proof.
  induction fuel as [| fuel IH]; [done |]. rewrite delete_pool_S.
  apply no_alloc_bind; [apply pop_no_alloc |]. intros [p |]; [| done].
  apply no_alloc_bind; [exact IH | done].
Qed.

Lemma delete_chain_no_alloc fuel : forall p,
  allocs_at_most 0 (MPMCQueue.delete_chain (T:=T) fuel p).
Proof.
  induction fuel as [| fuel IH]; intros p; cbn; [done |].
  destruct (is_null p); [done |]. cbn. intros nptr.
  apply no_alloc_bind; [apply IH | done].
Qed.

(** X10.  Whatever the other threads do, a call of [try_enqueue], of
    either [try_dequeue], of [push], of [pop] or of the destructor
    allocates no block, and a call of [enqueue] or of [rewind] allocates
    at most one. *)
Theorem allocations_of_each_call fuel (e : T) u
    (tr : list (observation T)) :
  (forall r, run (MPMCQueue.try_enqueue fuel e) tr r -> allocations tr = O) /\
  (forall r, run (MPMCQueue.try_dequeue fuel e) tr r -> allocations tr = O) /\
  (forall r, run (MPSCQueue.try_dequeue fuel e) tr r -> allocations tr = O) /\
  (forall r, run (FreeList.push fuel u) tr r -> allocations tr = O) /\
  (forall r, run (FreeList.pop fuel) tr r -> allocations tr = O) /\
  (forall r, run (MPMCQueue.destroy fuel) tr r -> allocations tr = O) /\
  (forall r, run (MPMCQueue.enqueue fuel e) tr r ->
     (allocations tr <= 1)%nat) /\
  (forall r, run (MPSCQueue.rewind fuel e) tr r ->
     (allocations tr <= 1)%nat).
Proof.
  assert (Hzero : forall {R} (p : prog T R) r,
            allocs_at_most 0 p -> run p tr r -> allocations tr = O).
  { intros R p r Hp Hrun.
    pose proof (allocs_at_most_run p 0 tr r Hp Hrun). lia. }
  repeat split; intros r.
  - apply Hzero. unfold MPMCQueue.try_enqueue.
    apply no_alloc_bind; [apply pop_no_alloc |]. intros [nblk |]; [| done].
    apply no_alloc_bind; [apply _enqueue_no_alloc | done].
  - apply Hzero, mpmc_try_dequeue_no_alloc.
  - apply Hzero. unfold MPSCQueue.try_dequeue. cbn. intros h nh.
    destruct (is_null nh); [done |]. cbn. intros e' [].
    apply no_alloc_bind; [apply push_no_alloc | done].
  - apply Hzero, push_no_alloc.
  - apply Hzero, pop_no_alloc.
  - apply Hzero. unfold MPMCQueue.destroy.
    apply no_alloc_bind; [apply delete_pool_no_alloc |]. intros ds.
    cbn. intros h. apply no_alloc_bind; [apply delete_chain_no_alloc | done].
  - apply allocs_at_most_run. unfold MPMCQueue.enqueue.
    apply no_alloc_bind; [apply pop_no_alloc |]. intros [nblk |].
    + apply (allocs_at_most_mono _ 0); [lia |].
      apply no_alloc_bind; [done |]. intros n.
      apply no_alloc_bind; [apply _enqueue_no_alloc | done].
    + cbn. done.
  - apply allocs_at_most_run. unfold MPSCQueue.rewind.
    apply no_alloc_bind; [apply pop_no_alloc |]. intros [nblk |].
    + apply (allocs_at_most_mono _ 0); [lia |]. cbn. done.
    + cbn. done.
Qed.

End AllocFacts.

(** *** Producers in flight *)

Section Producers.
Context {T : Type} `{ValueInit T}.
Implicit Types (s : state T) (ch fl : list nat) (cv : list T)
  (ths : list (stage T * list T)) (hp : list (block T))
  (th : stage T * list T).

Lemma references_insert ths : forall i th th' a,
  ths !! i = Some th ->
  (references (<[i := th']> ths) a +
   (if decide (refers (fst th) = Some a) then 1 else 0) =
   references ths a +
   (if decide (refers (fst th') = Some a) then 1 else 0))%nat.
Proof.
  induction ths as [| x ths IH]; intros i th th' a Hi; [done |].
  destruct i as [| i]; cbn in Hi.
  - injection Hi as ->.
    change (<[0%nat := th']> (th :: ths)) with (th' :: ths).
    cbn [references].
    destruct (decide (refers (fst th) = Some a));
      destruct (decide (refers (fst th') = Some a)); lia.
  - specialize (IH i th th' a Hi). revert IH.
    change (<[S i := th']> (x :: ths)) with (x :: <[i := th']> ths).
    cbn [references].
    destruct (decide (refers (fst x) = Some a));
      destruct (decide (refers (fst th) = Some a));
      destruct (decide (refers (fst th') = Some a)); lia.
Qed.

Lemma references_insert_same ths i th th' a :
  ths !! i = Some th ->
  refers (fst th') = refers (fst th) ->
  references (<[i := th']> ths) a = references ths a.
Proof.
  intros Hi Hsame. pose proof (references_insert ths i th th' a Hi) as Hr.
  rewrite Hsame in Hr. revert Hr.
  destruct (decide (refers (fst th) = Some a)); lia.
Qed.

Lemma references_le ths a : (references ths a <= length ths)%nat.
Proof.
  induction ths as [| x ths IH]; cbn; [lia |].
  destruct (decide (refers (fst x) = Some a)); lia.
Qed.

Lemma references_lt ths : forall i th a,
  ths !! i = Some th -> refers (fst th) <> Some a ->
  (references ths a < length ths)%nat.
Proof.
  induction ths as [| x ths IH]; intros i th a Hi Hne; [done |].
  destruct i as [| i]; cbn in Hi |- *.
  - injection Hi as ->. rewrite decide_False by done.
    pose proof (references_le ths a). lia.
  - specialize (IH i th a Hi Hne).
    destruct (decide (refers (fst x) = Some a)); lia.
Qed.

Lemma references_pos ths : forall i th a,
  ths !! i = Some th -> refers (fst th) = Some a ->
  (0 < references ths a)%nat.
Proof.
  induction ths as [| x ths IH]; intros i th a Hi Hr; [done |].
  destruct i as [| i]; cbn in Hi |- *.
  - injection Hi as ->. rewrite decide_True by done. lia.
  - specialize (IH i th a Hi Hr).
    destruct (decide (refers (fst x) = Some a)); lia.
Qed.

Lemma references_none ths a :
  (forall i th, ths !! i = Some th -> refers (fst th) <> Some a) ->
  references ths a = 0%nat.
Proof.
  induction ths as [| x ths IH]; intros Hnone; [done |]. cbn.
  rewrite decide_False by (by apply (Hnone 0%nat x)).
  apply IH. intros i th Hi. by apply (Hnone (S i)).
Qed.

Lemma refers_aims (st : stage T) u : refers st = Some u -> aims st = Some u.
Proof. by destruct st. Qed.

Lemma known_grow known0 base hp hp' a :
  (length hp <= length hp')%nat ->
  known known0 base hp a -> known known0 base hp' a.
Proof. intros Hle [Hin | Hnew]; [by left | right; lia]. Qed.

Lemma known_lt known0 base s d ch cv fl ths a :
  in_flight known0 base s d ch cv fl ths ->
  known known0 base (heap s) a -> (a < length (heap s))%nat.
Proof.
  intros Hinv Ha. eapply (field_lt refcnt).
  by apply (fly_refcnt _ _ _ _ _ _ _ _ Hinv).
Qed.

(** A step that leaves the chain, the pool and the queue's pointers
    alone. *)
Lemma in_flight_update known0 base s s' d ch cv fl ths i th th' :
  in_flight known0 base s d ch cv fl ths ->
  ths !! i = Some th ->
  (forall p a, fst th <> Swapped p a) ->
  (forall p a, fst th' <> Swapped p a) ->
  head s' = head s -> top s' = top s -> tail s' = tail s ->
  (length (heap s) <= length (heap s'))%nat ->
  (forall a, (a < length (heap s))%nat ->
     field node_next (heap s') a = field node_next (heap s) a) ->
  (forall a, (a < length (heap s))%nat -> holds (fst th') <> Some a ->
     field elem (heap s') a = field elem (heap s) a /\
     field block_next (heap s') a = field block_next (heap s) a) ->
  (forall a, known known0 base (heap s') a ->
     field refcnt (heap s') a =
     Some (1 + Z.of_nat (references (<[i := th']> ths) a))) ->
  stage_ok (heap s') (d :: ch) (fst th') ->
  (forall a, holds (fst th') = Some a ->
     holds (fst th) = Some a \/
     (length (heap s) <= a < length (heap s'))%nat) ->
  (forall u, aims (fst th') = Some u -> known known0 base (heap s') u) ->
  in_flight known0 base s' d ch cv fl (<[i := th']> ths).
Proof.
  intros Hinv Hi Hold Hnew Hhd' Htop' Htl' Hgrow Hnn Hfields Href' Hok
    Hheld Haims.
  pose proof Hinv as
    [Hhd Hbase Htl Hpool Hnd Hkn Href Hbound Hel Hlast Hlinks Hst Haim
       Hhold Huniq].
  assert (Hlt : (i < length ths)%nat) by (by eapply lookup_lt_Some).
  assert (Hklt : forall a, known known0 base (heap s) a ->
            (a < length (heap s))%nat).
  { intros a. by eapply known_lt. }
  assert (Hin : forall a, a ∈ d :: ch ++ fl -> (a < length (heap s))%nat).
  { intros a Ha. by apply Hklt, Hkn. }
  assert (Hmine : forall a, holds (fst th') = Some a -> a ∉ d :: ch ++ fl).
  { intros a Ha Hina. destruct (Hheld a Ha) as [Hwas | Hfresh].
    - by destruct (Hhold i th a Hi Hwas) as [_ Hout].
    - apply Hin in Hina. lia. }
  assert (Hother : forall j thj a, j <> i -> ths !! j = Some thj ->
            holds (fst thj) = Some a -> holds (fst th') <> Some a).
  { intros j thj a Hne Hj Ha Ha'.
    destruct (Hheld a Ha') as [Hwas | Hfresh].
    - apply Hne. by apply (Huniq j i thj th a).
    - destruct (Hhold j thj a Hj Ha) as [Hk _]. apply Hklt in Hk. lia. }
  assert (Hchain : forall a, a ∈ d :: ch ->
            field elem (heap s') a = field elem (heap s) a /\
            field block_next (heap s') a = field block_next (heap s) a).
  { intros a Ha. apply Hfields.
    - apply Hin. change (a ∈ (d :: ch) ++ fl). apply elem_of_app. by left.
    - intros Hh. apply (Hmine a Hh).
      change (a ∈ (d :: ch) ++ fl). apply elem_of_app. by left. }
  split.
  - congruence.
  - lia.
  - congruence.
  - rewrite Htop'. eapply lseg_ext; [| done]. intros a Ha.
    apply Hnn, Hin. mem.
  - done.
  - intros a Ha. eapply known_grow; [done | by apply Hkn].
  - done.
  - by rewrite length_insert.
  - eapply Forall2_impl_in; [done |]. intros a v Ha Hv.
    destruct (Hchain a) as [-> _]; [apply elem_of_cons; by right | done].
  - destruct Hlast as (t & Ht & Hnone). exists t. split; [done |].
    destruct (Hchain t) as [_ ->]; [by apply last_Some_elem_of | done].
  - intros j p a Hp Ha.
    destruct (Hlinks j p a Hp Ha) as [Hlink | (i' & rest & Hi')].
    + left. destruct (Hchain p) as [_ ->];
        [by eapply list_elem_of_lookup_2 | done].
    + right. exists i', rest. rewrite list_lookup_insert_ne; [done |].
      intros ->. rewrite Hi in Hi'. injection Hi' as ->. by eapply Hold.
  - intros j thj Hj. destruct (decide (j = i)) as [-> | Hne].
    + rewrite list_lookup_insert_eq in Hj by done. by injection Hj as <-.
    + rewrite list_lookup_insert_ne in Hj by done.
      specialize (Hst j thj Hj).
      destruct thj as [st rest]. cbn [fst] in *.
      destruct st as [| k e | k u e | k u t e | k u e | k u nv e
                      | k u popped e | e | a e | a e | a e | p a];
        cbn in Hst |- *; try done.
      * rewrite Hnn; [done | by eapply (field_lt node_next)].
      * destruct (Hfields a) as [-> _]; [by eapply (field_lt elem) | | done].
        by apply (Hother j (Written a e, rest)).
      * destruct Hst as [Helem Hnext].
        destruct (Hfields a) as [-> ->];
          [by eapply (field_lt elem) | | done].
        by apply (Hother j (Cleared a e, rest)).
  - intros j thj u Hj Hu. destruct (decide (j = i)) as [-> | Hne].
    + rewrite list_lookup_insert_eq in Hj by done. injection Hj as <-.
      by apply Haims.
    + rewrite list_lookup_insert_ne in Hj by done.
      eapply known_grow; [done | by eapply Haim].
  - intros j thj a Hj Ha. destruct (decide (j = i)) as [-> | Hne].
    + rewrite list_lookup_insert_eq in Hj by done. injection Hj as <-.
      split; [| by apply Hmine].
      destruct (Hheld a Ha) as [Hwas | Hfresh].
      * eapply known_grow; [done |]. by destruct (Hhold i th a Hi Hwas).
      * right. lia.
    + rewrite list_lookup_insert_ne in Hj by done.
      destruct (Hhold j thj a Hj Ha) as [Hk Hout].
      split; [by eapply known_grow | done].
  - intros j1 j2 th1 th2 a H1 H2 Ha1 Ha2.
    destruct (decide (j1 = i)) as [-> | Hne1];
      destruct (decide (j2 = i)) as [-> | Hne2]; [done | | |].
    + rewrite list_lookup_insert_eq in H1 by done. injection H1 as <-.
      rewrite list_lookup_insert_ne in H2 by done.
      by destruct (Hother j2 th2 a Hne2 H2 Ha2).
    + rewrite list_lookup_insert_eq in H2 by done. injection H2 as <-.
      rewrite list_lookup_insert_ne in H1 by done.
      by destruct (Hother j1 th1 a Hne1 H1 Ha1).
    + rewrite list_lookup_insert_ne in H1, H2 by done.
      by eapply Huniq.
Qed.

(** The CAS of [top] that succeeds takes the top block out of the
    pool. *)
Lemma in_flight_pop known0 base s d ch cv fl ths i k u nv e rest :
  in_flight known0 base s d ch cv fl ths ->
  ths !! i = Some (Nexted k u nv e, rest) ->
  top s = Some u ->
  exists fl', fl = u :: fl' /\
    in_flight known0 base (set_top nv s) d ch cv fl'
      (<[i := (Tried k u true e, rest)]> ths).
Proof.
  intros Hinv Hi Htop.
  pose proof Hinv as
    [Hhd Hbase Htl Hpool Hnd Hkn Href Hbound Hel Hlast Hlinks Hst Haim
       Hhold Huniq].
  assert (Hlt : (i < length ths)%nat) by (by eapply lookup_lt_Some).
  pose proof (Hst i _ Hi) as Hnv. cbn in Hnv.
  destruct fl as [| u' fl']; cbn in Hpool; [congruence |].
  destruct Hpool as (Hu' & p' & Hp' & Hrest).
  rewrite Htop in Hu'. injection Hu' as <-.
  rewrite Hnv in Hp'. injection Hp' as <-.
  exists fl'. split; [done |].
  assert (Hsub : forall a, a ∈ d :: ch ++ fl' -> a ∈ d :: ch ++ u :: fl').
  { intros a. mem. }
  assert (Hnd' : NoDup (d :: ch ++ fl') /\ (u ∉ d :: ch ++ fl')).
  { change (NoDup ((d :: ch) ++ u :: fl')) in Hnd.
    rewrite <- Permutation_middle in Hnd.
    apply NoDup_cons in Hnd as [Hout Hnd]. done. }
  destruct Hnd' as [Hnd' Hout].
  split; cbn [set_top head top tail heap].
  - done.
  - done.
  - done.
  - done.
  - done.
  - intros a Ha. by apply Hkn, Hsub.
  - intros a Ha. rewrite (references_insert_same ths i _ _ a Hi); [| done].
    by apply Href.
  - by rewrite length_insert.
  - done.
  - done.
  - intros j p a Hp Ha.
    destruct (Hlinks j p a Hp Ha) as [Hlink | (i' & rest' & Hi')];
      [by left |].
    right. exists i', rest'. rewrite list_lookup_insert_ne; [done |].
    intros ->. rewrite Hi in Hi'. done.
  - intros j thj Hj. destruct (decide (j = i)) as [-> | Hne].
    + rewrite list_lookup_insert_eq in Hj by done. by injection Hj as <-.
    + rewrite list_lookup_insert_ne in Hj by done. by eapply Hst.
  - intros j thj a Hj Ha. destruct (decide (j = i)) as [-> | Hne].
    + rewrite list_lookup_insert_eq in Hj by done. injection Hj as <-.
      cbn in Ha. injection Ha as <-. by apply (Haim i _ u Hi).
    + rewrite list_lookup_insert_ne in Hj by done. by eapply Haim.
  - intros j thj a Hj Ha. destruct (decide (j = i)) as [-> | Hne].
    + rewrite list_lookup_insert_eq in Hj by done. injection Hj as <-.
      cbn in Ha. injection Ha as <-. split; [| done].
      apply Hkn. mem.
    + rewrite list_lookup_insert_ne in Hj by done.
      destruct (Hhold j thj a Hj Ha) as [Hk Hnot].
      split; [done |]. intros Hin. by apply Hnot, Hsub.
  - intros j1 j2 th1 th2 a H1 H2 Ha1 Ha2.
    assert (Hpooled : forall j thj, j <> i -> ths !! j = Some thj ->
              holds (fst thj) <> Some u).
    { intros j thj Hne Hj Hh. destruct (Hhold j thj u Hj Hh) as [_ Hnot].
      apply Hnot. mem. }
    destruct (decide (j1 = i)) as [-> | Hne1];
      destruct (decide (j2 = i)) as [-> | Hne2]; [done | | |].
    + rewrite list_lookup_insert_eq in H1 by done. injection H1 as <-.
      rewrite list_lookup_insert_ne in H2 by done.
      cbn in Ha1. injection Ha1 as <-. by destruct (Hpooled j2 th2 Hne2 H2).
    + rewrite list_lookup_insert_eq in H2 by done. injection H2 as <-.
      rewrite list_lookup_insert_ne in H1 by done.
      cbn in Ha2. injection Ha2 as <-. by destruct (Hpooled j1 th1 Hne1 H1).
    + rewrite list_lookup_insert_ne in H1, H2 by done. by eapply Huniq.
Qed.

(** The exchange of [tail] puts the block behind the chain. *)
Lemma in_flight_exchange known0 base s d ch cv fl ths i a e rest t :
  in_flight known0 base s d ch cv fl ths ->
  ths !! i = Some (Cleared a e, rest) ->
  last (d :: ch) = Some t ->
  in_flight known0 base (set_tail (Some a) s) d (ch ++ [a]) (cv ++ [e]) fl
    (<[i := (Swapped t a, rest)]> ths).
Proof.
  intros Hinv Hi Ht.
  pose proof Hinv as
    [Hhd Hbase Htl Hpool Hnd Hkn Href Hbound Hel Hlast Hlinks Hst Haim
       Hhold Huniq].
  assert (Hlt : (i < length ths)%nat) by (by eapply lookup_lt_Some).
  destruct (Hst i _ Hi) as (Helem & Hnext). cbn [fst] in *.
  destruct (Hhold i _ a Hi eq_refl) as [Hka Hout].
  assert (Hin : forall a', a' ∈ d :: (ch ++ [a]) ++ fl <->
            a' = a \/ a' ∈ d :: ch ++ fl).
  { intros a'. rewrite !elem_of_cons, !elem_of_app, list_elem_of_singleton.
    tauto. }
  split; cbn [set_tail head top tail heap].
  - done.
  - done.
  - symmetry. apply (last_snoc a (d :: ch)).
  - done.
  - rewrite <- app_assoc. cbn [app].
    change (NoDup ((d :: ch) ++ a :: fl)).
    rewrite <- Permutation_middle. by apply NoDup_cons.
  - intros a' [-> | Ha']%Hin; [done | by apply Hkn].
  - intros a' Ha'. rewrite (references_insert_same ths i _ _ a' Hi); [| done].
    by apply Href.
  - by rewrite length_insert.
  - apply Forall2_app; [done | by apply Forall2_cons].
  - exists a. split; [apply (last_snoc a (d :: ch)) | done].
  - intros j p a' Hp Ha'.
    change ((d :: ch ++ [a])) with ((d :: ch) ++ [a]) in Hp, Ha'.
    apply lookup_snoc_Some in Ha' as [[Hj Ha'] | [Hj <-]].
    + apply lookup_snoc_Some in Hp as [[_ Hp] | [? _]]; [| lia].
      destruct (Hlinks j p a' Hp Ha') as [Hlink | (i' & rest' & Hi')];
        [by left |].
      right. exists i', rest'. rewrite list_lookup_insert_ne; [done |].
      intros ->. rewrite Hi in Hi'. done.
    + apply lookup_snoc_Some in Hp as [[_ Hp] | [? _]]; [| lia].
      right. exists i, rest.
      rewrite list_lookup_insert_eq by done.
      rewrite last_lookup, <- Hj in Ht. cbn [Init.Nat.pred] in Ht.
      rewrite Hp in Ht. by injection Ht as ->.
  - intros j thj Hj. destruct (decide (j = i)) as [-> | Hne].
    + rewrite list_lookup_insert_eq in Hj by done. injection Hj as <-.
      cbn. exists (length ch).
      change ((d :: ch ++ [a])) with ((d :: ch) ++ [a]). split.
      * apply lookup_app_l_Some. by rewrite last_lookup in Ht.
      * apply lookup_snoc_Some. right. done.
    + rewrite list_lookup_insert_ne in Hj by done.
      specialize (Hst j thj Hj). destruct thj as [st rest'].
      destruct st; cbn in Hst |- *; try done.
      destruct Hst as (j' & Hp & Ha'). exists j'.
      change ((d :: ch ++ [a])) with ((d :: ch) ++ [a]).
      split; by apply lookup_app_l_Some.
  - intros j thj u Hj Hu. destruct (decide (j = i)) as [-> | Hne].
    + rewrite list_lookup_insert_eq in Hj by done. by injection Hj as <-.
    + rewrite list_lookup_insert_ne in Hj by done. by eapply Haim.
  - intros j thj a' Hj Ha'. destruct (decide (j = i)) as [-> | Hne].
    + rewrite list_lookup_insert_eq in Hj by done. by injection Hj as <-.
    + rewrite list_lookup_insert_ne in Hj by done.
      destruct (Hhold j thj a' Hj Ha') as [Hk Hnot].
      split; [done |]. intros [-> | Hin']%Hin; [| done].
      apply Hne. by apply (Huniq j i thj (Cleared a e, rest) a).
  - intros j1 j2 th1 th2 a' H1 H2 Ha1 Ha2.
    destruct (decide (j1 = i)) as [-> | Hne1].
    { rewrite list_lookup_insert_eq in H1 by done. by injection H1 as <-. }
    destruct (decide (j2 = i)) as [-> | Hne2].
    { rewrite list_lookup_insert_eq in H2 by done. by injection H2 as <-. }
    rewrite list_lookup_insert_ne in H1, H2 by done. by eapply Huniq.
Qed.

(** The store of [prev->next] puts the link in place. *)
Lemma in_flight_link known0 base s d ch cv fl ths i p a rest bp :
  in_flight known0 base s d ch cv fl ths ->
  ths !! i = Some (Swapped p a, rest) ->
  heap s !! p = Some bp ->
  in_flight known0 base
    (set_heap (<[p := set_block_next (Some a) bp]> (heap s)) s)
    d ch cv fl (<[i := (Idle, rest)]> ths).
Proof.
  intros Hinv Hi Hbp.
  pose proof Hinv as
    [Hhd Hbase Htl Hpool Hnd Hkn Href Hbound Hel Hlast Hlinks Hst Haim
       Hhold Huniq].
  assert (Hlt : (i < length ths)%nat) by (by eapply lookup_lt_Some).
  assert (Hltp : (p < length (heap s))%nat) by (by eapply lookup_lt_Some).
  destruct (Hst i _ Hi) as (j & Hjp & Hja). cbn [fst] in *.
  assert (Hndc : NoDup (d :: ch)).
  { change (NoDup ((d :: ch) ++ fl)) in Hnd.
    by apply NoDup_app in Hnd as (? & _ & _). }
  assert (Hkeep : forall {X} (f : block T -> X) a',
            (forall b, f (set_block_next (Some a) b) = f b) ->
            field f (<[p := set_block_next (Some a) bp]> (heap s)) a' =
            field f (heap s) a').
  { intros X f a' Hf. rewrite field_insert by done.
    destruct (decide (a' = p)) as [-> | _]; [| done].
    unfold field. by rewrite Hbp, Hf. }
  assert (Hfar : forall {X} (f : block T -> X) a', a' <> p ->
            field f (<[p := set_block_next (Some a) bp]> (heap s)) a' =
            field f (heap s) a').
  { intros X f a' Hne. rewrite field_insert by done.
    by rewrite decide_False. }
  assert (Hknown : forall a',
            known known0 base (<[p := set_block_next (Some a) bp]> (heap s)) a'
            <-> known known0 base (heap s) a').
  { intros a'. unfold known. by rewrite length_insert. }
  assert (Hpin : p ∈ d :: ch ++ fl).
  { change (p ∈ (d :: ch) ++ fl). apply elem_of_app. left.
    by eapply list_elem_of_lookup_2. }
  split; cbn [set_heap head top tail heap].
  - done.
  - by rewrite length_insert.
  - done.
  - eapply lseg_ext; [| done]. intros a' _. by apply Hkeep.
  - done.
  - intros a' Ha'. by apply Hknown, Hkn.
  - intros a' Ha'%Hknown. rewrite Hkeep by done.
    rewrite (references_insert_same ths i _ _ a' Hi); [| done].
    by apply Href.
  - by rewrite length_insert.
  - eapply Forall2_impl_in; [done |]. intros a' v _ Hv.
    by rewrite Hkeep.
  - destruct Hlast as (t & Ht & Hnone). exists t. split; [done |].
    rewrite Hfar; [done |]. intros ->.
    rewrite last_lookup in Ht.
    pose proof (NoDup_lookup _ _ _ _ Hndc Hjp Ht) as Hjt.
    apply lookup_lt_Some in Hja. cbn in Hjt, Hja. lia.
  - intros j' p' a' Hp' Ha'.
    destruct (decide (p' = p)) as [-> | Hne].
    + left. pose proof (NoDup_lookup _ _ _ _ Hndc Hjp Hp') as <-.
      rewrite Hja in Ha'. injection Ha' as <-.
      rewrite field_insert by done. by rewrite decide_True.
    + destruct (Hlinks j' p' a' Hp' Ha') as [Hlink | (i' & rest' & Hi')].
      * left. by rewrite Hfar.
      * right. exists i', rest'. rewrite list_lookup_insert_ne; [done |].
        intros ->. rewrite Hi in Hi'. by injection Hi' as -> _.
  - intros j' thj Hj. destruct (decide (j' = i)) as [-> | Hne].
    + rewrite list_lookup_insert_eq in Hj by done. by injection Hj as <-.
    + rewrite list_lookup_insert_ne in Hj by done.
      specialize (Hst j' thj Hj).
      assert (Hnotp : forall a', holds (fst thj) = Some a' -> a' <> p).
      { intros a' Ha' ->. by destruct (Hhold j' thj p Hj Ha'). }
      destruct thj as [st rest']. cbn [fst] in *.
      destruct st; cbn in Hst, Hnotp |- *; try done.
      * by rewrite Hkeep.
      * by rewrite Hkeep.
      * destruct Hst as [Helem Hnext]. rewrite Hkeep by done.
        rewrite Hfar; [done | by apply Hnotp].
  - intros j' thj u Hj Hu. apply Hknown.
    destruct (decide (j' = i)) as [-> | Hne].
    + rewrite list_lookup_insert_eq in Hj by done. by injection Hj as <-.
    + rewrite list_lookup_insert_ne in Hj by done. by eapply Haim.
  - intros j' thj a' Hj Ha'. rewrite Hknown.
    destruct (decide (j' = i)) as [-> | Hne].
    + rewrite list_lookup_insert_eq in Hj by done. by injection Hj as <-.
    + rewrite list_lookup_insert_ne in Hj by done. by eapply Hhold.
  - intros j1 j2 th1 th2 a' H1 H2 Ha1 Ha2.
    destruct (decide (j1 = i)) as [-> | Hne1].
    { rewrite list_lookup_insert_eq in H1 by done. by injection H1 as <-. }
    destruct (decide (j2 = i)) as [-> | Hne2].
    { rewrite list_lookup_insert_eq in H2 by done. by injection H2 as <-. }
    rewrite list_lookup_insert_ne in H1, H2 by done. by eapply Huniq.
Qed.

(** A step that writes nothing. *)
Lemma in_flight_restage known0 base s d ch cv fl ths i th th' :
  in_flight known0 base s d ch cv fl ths ->
  ths !! i = Some th ->
  (forall p a, fst th <> Swapped p a) ->
  (forall p a, fst th' <> Swapped p a) ->
  refers (fst th') = refers (fst th) ->
  stage_ok (heap s) (d :: ch) (fst th') ->
  (forall a, holds (fst th') = Some a -> holds (fst th) = Some a) ->
  (forall u, aims (fst th') = Some u -> known known0 base (heap s) u) ->
  in_flight known0 base s d ch cv fl (<[i := th']> ths).
Proof.
  intros Hinv Hi Hold Hnew Hrefers Hok Hheld Haims.
  eapply in_flight_update; try done.
  - intros a Ha. rewrite (references_insert_same ths i th th' a Hi Hrefers).
    by apply (fly_refcnt _ _ _ _ _ _ _ _ Hinv).
  - intros a Ha. left. by apply Hheld.
Qed.

(** A step that changes the [refcnt] of block [u] as it changes the
    references of the producer. *)
Lemma in_flight_recount known0 base s d ch cv fl ths i th th' u b z :
  in_flight known0 base s d ch cv fl ths ->
  ths !! i = Some th ->
  (forall p a, fst th <> Swapped p a) ->
  (forall p a, fst th' <> Swapped p a) ->
  heap s !! u = Some b ->
  z = 1 + Z.of_nat (references (<[i := th']> ths) u) ->
  (forall a, a <> u ->
     references (<[i := th']> ths) a = references ths a) ->
  (forall hp, stage_ok hp (d :: ch) (fst th')) ->
  (forall a, holds (fst th') = Some a -> holds (fst th) = Some a) ->
  (forall u, aims (fst th') = Some u -> known known0 base (heap s) u) ->
  in_flight known0 base (set_heap (<[u := set_refcnt z b]> (heap s)) s)
    d ch cv fl (<[i := th']> ths).
Proof.
  intros Hinv Hi Hold Hnew Hb Hz Hrest Hok Hheld Haims.
  assert (Hltu : (u < length (heap s))%nat) by (by eapply lookup_lt_Some).
  assert (Hkeep : forall {X} (f : block T -> X) a',
            (forall b0, f (set_refcnt z b0) = f b0) ->
            field f (<[u := set_refcnt z b]> (heap s)) a' =
            field f (heap s) a').
  { intros X f a' Hf. rewrite field_insert by done.
    destruct (decide (a' = u)) as [-> | _]; [| done].
    unfold field. by rewrite Hb, Hf. }
  assert (Hknown : forall a',
            known known0 base (<[u := set_refcnt z b]> (heap s)) a' <->
            known known0 base (heap s) a').
  { intros a'. unfold known. by rewrite length_insert. }
  eapply in_flight_update; try done; cbn [set_heap heap].
  - by rewrite length_insert.
  - intros a _. by apply Hkeep.
  - intros a _ _. split; by apply Hkeep.
  - intros a Ha%Hknown. rewrite field_insert by done.
    destruct (decide (a = u)) as [-> | Hne].
    + cbn. by rewrite Hz.
    + rewrite Hrest by done. by apply (fly_refcnt _ _ _ _ _ _ _ _ Hinv).
  - intros a Ha. left. by apply Hheld.
  - intros u' Hu'. by apply Hknown, Haims.
Qed.

(** A step that writes to the block the producer holds. *)
Lemma in_flight_write known0 base s d ch cv fl ths i th th' a b
    (f : block T -> block T) :
  in_flight known0 base s d ch cv fl ths ->
  ths !! i = Some th ->
  (forall p a, fst th <> Swapped p a) ->
  (forall p a, fst th' <> Swapped p a) ->
  holds (fst th) = Some a ->
  holds (fst th') = Some a ->
  refers (fst th') = refers (fst th) ->
  aims (fst th') = None ->
  heap s !! a = Some b ->
  (forall b0, refcnt (f b0) = refcnt b0) ->
  (forall b0, node_next (f b0) = node_next b0) ->
  stage_ok (<[a := f b]> (heap s)) (d :: ch) (fst th') ->
  in_flight known0 base (set_heap (<[a := f b]> (heap s)) s)
    d ch cv fl (<[i := th']> ths).
Proof.
  intros Hinv Hi Hold Hnew Hh Hh' Hrefers Haims Hb Hrc Hnn Hok.
  assert (Hlta : (a < length (heap s))%nat) by (by eapply lookup_lt_Some).
  assert (Hkeep : forall {X} (g : block T -> X) a',
            (forall b0, g (f b0) = g b0) ->
            field g (<[a := f b]> (heap s)) a' = field g (heap s) a').
  { intros X g a' Hg. rewrite field_insert by done.
    destruct (decide (a' = a)) as [-> | _]; [| done].
    unfold field. by rewrite Hb, Hg. }
  assert (Hknown : forall a',
            known known0 base (<[a := f b]> (heap s)) a' <->
            known known0 base (heap s) a').
  { intros a'. unfold known. by rewrite length_insert. }
  eapply in_flight_update; try done; cbn [set_heap heap].
  - by rewrite length_insert.
  - intros a' _. by apply Hkeep.
  - intros a' _ Hne. rewrite !field_insert by done.
    rewrite !decide_False; [done | congruence | congruence].
  - intros a' Ha'%Hknown. rewrite Hkeep by done.
    rewrite (references_insert_same ths i th th' a' Hi Hrefers).
    by apply (fly_refcnt _ _ _ _ _ _ _ _ Hinv).
  - intros a' Ha'. left. congruence.
  - intros u Hu. congruence.
Qed.

Lemma in_flight_top known0 base s d ch cv fl ths u :
  in_flight known0 base s d ch cv fl ths ->
  top s = Some u ->
  known known0 base (heap s) u.
Proof.
  intros Hinv Htop. pose proof (fly_pool _ _ _ _ _ _ _ _ Hinv) as Hpool.
  destruct fl as [| u' fl']; cbn in Hpool; [congruence |].
  destruct Hpool as (Hu' & _). rewrite Htop in Hu'. injection Hu' as <-.
  apply (fly_known _ _ _ _ _ _ _ _ Hinv). mem.
Qed.

Lemma in_flight_allocated known0 base s d ch cv fl ths a :
  in_flight known0 base s d ch cv fl ths ->
  known known0 base (heap s) a ->
  exists b, heap s !! a = Some b /\
    refcnt b = 1 + Z.of_nat (references ths a).
Proof.
  intros Hinv Ha. by apply field_is_Some, (fly_refcnt _ _ _ _ _ _ _ _ Hinv).
Qed.

(** The load of [top] that opens a round of [pop]. *)
Lemma in_flight_load known0 base s d ch cv fl ths i th k e rest :
  in_flight known0 base s d ch cv fl ths ->
  ths !! i = Some th ->
  fst th = Idle \/ (exists k', fst th = Popping k' e) ->
  in_flight known0 base s d ch cv fl
    (<[i := (match top s with
             | Some u => Loaded k u e
             | None => Popped e
             end, rest)]> ths).
Proof.
  intros Hinv Hi Hth.
  assert (Hplain : refers (fst th) = None /\ holds (fst th) = None /\
            forall p a, fst th <> Swapped p a).
  { destruct Hth as [-> | [k' ->]]; done. }
  destruct Hplain as (Hr & Hh & Hns).
  destruct (top s) as [u |] eqn:Htop.
  - eapply in_flight_restage; try done.
    intros u' [= <-]. by eapply in_flight_top.
  - eapply in_flight_restage; try done.
Qed.

(** One access of one producer. *)
Lemma in_flight_step known0 base fuel i spur (c c' : config T unit)
    d ch cv fl ths :
  threads c = stage_prog (S fuel) <$> ths ->
  in_flight known0 base (mem c) d ch cv fl ths ->
  cstep i spur c = Some c' ->
  exists th th' ch' cv' used fl',
    ths !! i = Some th /\
    threads c' = stage_prog (S fuel) <$> <[i := th']> ths /\
    in_flight known0 base (mem c') d (ch ++ ch') (cv ++ cv') fl'
      (<[i := th']> ths) /\
    fl = used ++ fl' /\
    remaining th = cv' ++ remaining th'.
Proof.
  intros Hth Hinv Hstep. unfold cstep in Hstep.
  rewrite Hth, list_lookup_fmap in Hstep.
  destruct (ths !! i) as [[st rest] |] eqn:Hi; [| done].
  cbn [fmap option_fmap option_map] in Hstep.
  destruct c as [s thr]. cbn [mem threads] in *. subst thr.
  pose proof (fly_stages _ _ _ _ _ _ _ _ Hinv i _ Hi) as Hok.
  cbn [fst] in Hok.
  assert (Hdone : forall th' s',
            c' = Config s' (<[i := stage_prog (S fuel) th']>
                              (stage_prog (S fuel) <$> ths)) ->
            in_flight known0 base s' d ch cv fl (<[i := th']> ths) ->
            remaining (st, rest) = remaining th' ->
            exists th th' ch' cv' used fl',
              Some (st, rest) = Some th /\
              threads c' = stage_prog (S fuel) <$> <[i := th']> ths /\
              in_flight known0 base (mem c') d (ch ++ ch') (cv ++ cv') fl'
                (<[i := th']> ths) /\
              fl = used ++ fl' /\
              remaining th = cv' ++ remaining th').
  { intros th' s' -> Hinv' Hrem.
    exists (st, rest), th', [], [], [], fl.
    rewrite !app_nil_r. cbn [mem threads].
    by rewrite list_fmap_insert. }
  destruct st as [| k e | k u e | k u t e | k u e | k u nv e
                  | k u popped e | e | a e | a e | a e | p a].
  - (* the load of top, first round *)
    destruct rest as [| e rest]; [done |].
    cbn in Hstep. injection Hstep as <-.
    pose proof (in_flight_load known0 base s d ch cv fl ths i _ fuel e rest
                  Hinv Hi (or_introl eq_refl)) as Hinv'.
    eapply Hdone; [| exact Hinv' |]; by destruct (top s).
  - (* the load of top, later rounds *)
    destruct k as [| k]; [done |].
    cbn in Hstep. injection Hstep as <-.
    pose proof (in_flight_load known0 base s d ch cv fl ths i _ k e rest
                  Hinv Hi (or_intror (ex_intro _ (S k) eq_refl))) as Hinv'.
    eapply Hdone; [| exact Hinv' |]; by destruct (top s).
  - (* the load of the refcnt *)
    destruct (in_flight_allocated _ _ _ _ _ _ _ _ u Hinv
                (fly_aims _ _ _ _ _ _ _ _ Hinv i _ u Hi eq_refl))
      as (b & Hb & Hcnt).
    cbn in Hstep. rewrite Hb in Hstep. cbn in Hstep.
    destruct (refcnt b =? 0) eqn:Hz; injection Hstep as <-.
    + eapply (Hdone (Popping k e, rest)); [reflexivity | | done].
      eapply in_flight_restage; try done.
    + eapply (Hdone (Counted k u (refcnt b) e, rest));
        [reflexivity | | done].
      eapply in_flight_restage; try done.
      intros u' [= <-]. by apply (fly_aims _ _ _ _ _ _ _ _ Hinv i _ u Hi).
  - (* the CAS of the refcnt *)
    pose proof (fly_aims _ _ _ _ _ _ _ _ Hinv i _ u Hi eq_refl) as Hku.
    destruct (in_flight_allocated _ _ _ _ _ _ _ _ u Hinv Hku)
      as (b & Hb & Hcnt).
    cbn in Hstep. rewrite Hb in Hstep. cbn in Hstep.
    destruct (negb spur && (refcnt b =? t)) eqn:Hcas;
      injection Hstep as <-.
    + apply andb_true_iff in Hcas as [_ Ht%Z.eqb_eq]. subst t.
      pose proof (references_lt ths i _ u Hi) as Hlt. cbn in Hlt.
      specialize (Hlt ltac:(done)).
      pose proof (fly_bound _ _ _ _ _ _ _ _ Hinv) as Hbound.
      pose proof (references_insert ths i _ (Reffed k u e, rest) u Hi)
        as Hins.
      cbn [fst refers] in Hins. rewrite decide_False in Hins by done.
      rewrite decide_True in Hins by done.
      eapply (Hdone (Reffed k u e, rest)); [reflexivity | | done].
      eapply in_flight_recount; try done.
      * unfold wrap. rewrite Z.mod_small by lia. lia.
      * intros a Hne.
        pose proof (references_insert ths i _ (Reffed k u e, rest) a Hi)
          as Hins'.
        cbn [fst refers] in Hins'.
        rewrite !decide_False in Hins' by congruence. lia.
      * intros u' [= <-]. done.
    + eapply (Hdone (Popping k e, rest)); [reflexivity | | done].
      eapply in_flight_restage; try done.
  - (* the load of u->next *)
    pose proof (fly_aims _ _ _ _ _ _ _ _ Hinv i _ u Hi eq_refl) as Hku.
    destruct (in_flight_allocated _ _ _ _ _ _ _ _ u Hinv Hku)
      as (b & Hb & Hcnt).
    cbn in Hstep. rewrite Hb in Hstep. cbn in Hstep. injection Hstep as <-.
    eapply (Hdone (Nexted k u (node_next b) e, rest));
      [reflexivity | | done].
    eapply in_flight_restage; try done.
    + cbn. unfold field. by rewrite Hb.
    + intros u' [= <-]. done.
  - (* the CAS of top *)
    pose proof (fly_aims _ _ _ _ _ _ _ _ Hinv i _ u Hi eq_refl) as Hku.
    cbn in Hstep.
    destruct (negb spur && ptr_eqb (top s) (Some u)) eqn:Hcas;
      injection Hstep as <-.
    + apply andb_true_iff in Hcas as [_ Htop].
      assert (top s = Some u) as Htop'.
      { destruct (top s) as [u' |]; [| done]. cbn in Htop.
        by apply Nat.eqb_eq in Htop as ->. }
      destruct (in_flight_pop known0 base s d ch cv fl ths i k u nv e rest
                  Hinv Hi Htop') as (fl' & -> & Hinv').
      exists (Nexted k u nv e, rest), (Tried k u true e, rest), [], [],
        [u], fl'.
      rewrite !app_nil_r. cbn [mem threads].
      by rewrite list_fmap_insert.
    + eapply (Hdone (Tried k u false e, rest)); [reflexivity | | done].
      eapply in_flight_restage; try done.
      intros u' [= <-]. done.
  - (* the fetch_sub of release_ref *)
    pose proof (fly_aims _ _ _ _ _ _ _ _ Hinv i _ u Hi eq_refl) as Hku.
    destruct (in_flight_allocated _ _ _ _ _ _ _ _ u Hinv Hku)
      as (b & Hb & Hcnt).
    pose proof (references_pos ths i _ u Hi eq_refl) as Hpos.
    pose proof (references_le ths u) as Hle.
    pose proof (fly_bound _ _ _ _ _ _ _ _ Hinv) as Hbound.
    assert (Hne : (refcnt b =? 1) = false) by (apply Z.eqb_neq; lia).
    cbn [stage_prog fst snd] in Hstep.
    unfold pop_tried, FreeList.release_ref in Hstep.
    cbn in Hstep. rewrite Hb in Hstep. cbn in Hstep.
    rewrite Hne in Hstep. cbn in Hstep. injection Hstep as <-.
    assert (Hrec : forall th', refers (fst th') = None ->
              wrap (refcnt b - 1) =
                1 + Z.of_nat (references (<[i := th']> ths) u) /\
              forall a, a <> u ->
                references (<[i := th']> ths) a = references ths a).
    { intros th' Hnone. split.
      - pose proof (references_insert ths i _ th' u Hi) as Hins.
        cbn [fst refers] in Hins. rewrite Hnone in Hins.
        rewrite decide_True in Hins by done.
        rewrite decide_False in Hins by done.
        unfold wrap. rewrite Z.mod_small by lia. lia.
      - intros a Hna.
        pose proof (references_insert ths i _ th' a Hi) as Hins.
        cbn [fst refers] in Hins. rewrite Hnone in Hins.
        rewrite !decide_False in Hins by congruence. lia. }
    destruct popped.
    + destruct (Hrec (Fresh u e, rest) eq_refl) as [Hz Hrest].
      eapply (Hdone (Fresh u e, rest)); [reflexivity | | done].
      eapply in_flight_recount; try done.
    + destruct (Hrec (Popping k e, rest) eq_refl) as [Hz Hrest].
      eapply (Hdone (Popping k e, rest)); [reflexivity | | done].
      eapply in_flight_recount; try done.
  - (* new Block() *)
    cbn in Hstep. injection Hstep as <-.
    eapply (Hdone (Fresh (length (heap s)) e, rest)); [reflexivity | | done].
    assert (Hklt : forall a, known known0 base (heap s) a ->
              (a < length (heap s))%nat).
    { intros a. by eapply known_lt. }
    eapply in_flight_update; try done; cbn [fst holds aims heap].
    + rewrite length_app. cbn. lia.
    + intros a Hlt. by apply field_app_old.
    + intros a Hlt _. split; by apply field_app_old.
    + intros a Ha. destruct (decide (a < length (heap s))%nat) as [Hlt | Hge].
      * rewrite field_app_old by done.
        rewrite (references_insert_same ths i _ _ a Hi); [| done].
        apply (fly_refcnt _ _ _ _ _ _ _ _ Hinv).
        destruct Ha as [Hin | [Hb _]]; [by left | right; lia].
      * assert (a = length (heap s)) as ->.
        { destruct Ha as [Hin | [_ Hlt]].
          - assert (known known0 base (heap s) a) as Hk%Hklt by (by left).
            lia.
          - rewrite length_app in Hlt. cbn in Hlt. lia. }
        unfold field. rewrite lookup_app_r, Nat.sub_diag by lia. cbn.
        rewrite references_none; [done |].
        intros j thj Hj Hr%refers_aims.
        destruct (decide (j = i)) as [-> | Hne].
        -- rewrite list_lookup_insert_eq in Hj by (by eapply lookup_lt_Some).
           by injection Hj as <-.
        -- rewrite list_lookup_insert_ne in Hj by done.
           apply (fly_aims _ _ _ _ _ _ _ _ Hinv j thj _ Hj), Hklt in Hr. lia.
    + intros a [= <-]. right. rewrite length_app. cbn. lia.
  - (* the construction of elem *)
    destruct (fly_held _ _ _ _ _ _ _ _ Hinv i _ a Hi eq_refl) as [Hka _].
    destruct (in_flight_allocated _ _ _ _ _ _ _ _ a Hinv Hka)
      as (b & Hb & _).
    assert (Hlt : (a < length (heap s))%nat) by (by eapply lookup_lt_Some).
    cbn in Hstep. rewrite Hb in Hstep. cbn in Hstep. injection Hstep as <-.
    eapply (Hdone (Written a e, rest)); [reflexivity | | done].
    eapply (in_flight_write _ _ _ _ _ _ _ _ _ _ _ a b (set_elem e));
      try done.
    cbn. rewrite field_insert by done. by rewrite decide_True.
  - (* the store of nblk->next *)
    destruct (fly_held _ _ _ _ _ _ _ _ Hinv i _ a Hi eq_refl) as [Hka _].
    destruct (in_flight_allocated _ _ _ _ _ _ _ _ a Hinv Hka)
      as (b & Hb & _).
    assert (Hlt : (a < length (heap s))%nat) by (by eapply lookup_lt_Some).
    cbn in Hok. unfold field in Hok. rewrite Hb in Hok. cbn in Hok.
    injection Hok as Helem.
    cbn in Hstep. rewrite Hb in Hstep. cbn in Hstep. injection Hstep as <-.
    eapply (Hdone (Cleared a e, rest)); [reflexivity | | done].
    eapply (in_flight_write _ _ _ _ _ _ _ _ _ _ _ a b (set_block_next None));
      try done.
    cbn. rewrite !field_insert by done. rewrite !decide_True by done.
    cbn. by rewrite Helem.
  - (* the exchange of tail *)
    destruct (fly_last _ _ _ _ _ _ _ _ Hinv) as (t & Ht & Hnone).
    cbn in Hstep. rewrite (fly_tail _ _ _ _ _ _ _ _ Hinv), Ht in Hstep.
    injection Hstep as <-.
    exists (Cleared a e, rest), (Swapped t a, rest), [a], [e], [], fl.
    split; [done |]. split; [| split; [| done]].
    + cbn [threads]. rewrite list_fmap_insert. reflexivity.
    + cbn [mem].
      exact (in_flight_exchange known0 base s d ch cv fl ths i a e rest t
               Hinv Hi Ht).
  - (* the store of prev->next *)
    destruct Hok as (j & Hjp & Hja).
    assert (Hkp : known known0 base (heap s) p).
    { apply (fly_known _ _ _ _ _ _ _ _ Hinv).
      change (p ∈ (d :: ch) ++ fl). apply elem_of_app. left.
      by eapply list_elem_of_lookup_2. }
    destruct (in_flight_allocated _ _ _ _ _ _ _ _ p Hinv Hkp)
      as (bp & Hbp & _).
    cbn in Hstep. rewrite Hbp in Hstep. cbn in Hstep. injection Hstep as <-.
    eapply (Hdone (Idle, rest)); [reflexivity | | done].
    exact (in_flight_link known0 base s d ch cv fl ths i p a rest bp
             Hinv Hi Hbp).
Qed.

Lemma merge_prefix {A} (pre : list A) : forall (rems : list (list A)) i r' l,
  rems !! i = Some (pre ++ r') ->
  merge (<[i := r']> rems) l ->
  merge rems (pre ++ l).
Proof.
  induction pre as [| x pre IH]; intros rems i r' l Hi Hm; cbn in *.
  - by rewrite list_insert_id in Hm.
  - apply (merge_next rems i x (pre ++ r')); [done |].
    apply (IH _ i r').
    + apply list_lookup_insert_eq. by eapply lookup_lt_Some.
    + by rewrite list_insert_insert_eq.
Qed.

(** Any number of accesses of any producers. *)
Lemma in_flight_run known0 base fuel d sched :
  forall (c c' : config T unit) ch cv fl ths,
  threads c = stage_prog (S fuel) <$> ths ->
  in_flight known0 base (mem c) d ch cv fl ths ->
  crun sched c = Some c' ->
  exists ch' cv' used fl' ths',
    threads c' = stage_prog (S fuel) <$> ths' /\
    in_flight known0 base (mem c') d (ch ++ ch') (cv ++ cv') fl' ths' /\
    fl = used ++ fl' /\
    length ths' = length ths /\
    (forall l, merge (remaining <$> ths') l ->
       merge (remaining <$> ths) (cv' ++ l)).
Proof.
  induction sched as [| [i spur] sched IH];
    intros c c' ch cv fl ths Hth Hinv Hrun; cbn in Hrun.
  - injection Hrun as <-. exists [], [], [], fl, ths. by rewrite !app_nil_r.
  - destruct (cstep i spur c) as [c1 |] eqn:Hstep; [| done].
    destruct (in_flight_step known0 base fuel i spur c c1 d ch cv fl ths
                Hth Hinv Hstep)
      as (th & th' & ch1 & cv1 & used1 & fl1 & Hi & Hth1 & Hinv1 & Hfl1 & Hrem).
    destruct (IH c1 c' _ _ _ _ Hth1 Hinv1 Hrun)
      as (ch' & cv' & used' & fl' & ths' & Hth' & Hinv' & Hfl' & Hlen & Hmerge).
    exists (ch1 ++ ch'), (cv1 ++ cv'), (used1 ++ used'), fl', ths'.
    rewrite !app_assoc. split; [done |]. split; [done |].
    split; [by rewrite Hfl1, Hfl', app_assoc |].
    split; [by rewrite Hlen, length_insert |].
    intros l Hl. rewrite <- app_assoc.
    apply (merge_prefix cv1 _ i (remaining th')).
    + by rewrite list_lookup_fmap, Hi, <- Hrem.
    + rewrite <- list_fmap_insert. by apply Hmerge.
Qed.

Lemma lseg_neighbours nxt hp l : forall p j a a',
  lseg nxt hp p l None ->
  l !! j = Some a -> l !! S j = Some a' ->
  field nxt hp a = Some (Some a').
Proof.
  induction l as [| x l IH]; intros p j a a' Hl Ha Ha'; [done |].
  cbn in Hl. destruct Hl as (-> & p' & Hp' & Hrest).
  destruct j as [| j]; cbn in Ha, Ha'.
  - injection Ha as <-. destruct l as [| y l]; [done |].
    cbn in Ha', Hrest. injection Ha' as <-. by destruct Hrest as (-> & _).
  - by eapply IH.
Qed.

Lemma lseg_last nxt hp l : forall p t,
  lseg nxt hp p l None -> last l = Some t -> field nxt hp t = Some None.
Proof.
  induction l as [| x l IH]; intros p t Hl Ht; [done |].
  cbn in Hl. destruct Hl as (-> & p' & Hp' & Hrest).
  destruct l as [| y l].
  - cbn in Ht, Hrest. injection Ht as <-. by subst p'.
  - rewrite last_cons_cons in Ht. by eapply IH.
Qed.

Lemma neighbours_lseg nxt hp l : forall x t,
  (forall j a a', (x :: l) !! j = Some a -> (x :: l) !! S j = Some a' ->
     field nxt hp a = Some (Some a')) ->
  last (x :: l) = Some t ->
  field nxt hp t = Some None ->
  lseg nxt hp (Some x) (x :: l) None.
Proof.
  induction l as [| y l IH]; intros x t Hlinks Ht Hnone.
  - cbn in Ht. injection Ht as <-. cbn. split; [done |]. by exists None.
  - cbn [lseg]. split; [done |]. exists (Some y). split.
    + by apply (Hlinks 0%nat).
    + apply (IH y t); [| by rewrite last_cons_cons in Ht | done].
      intros j a a' Ha Ha'. by apply (Hlinks (S j)).
Qed.

(** A quiet queue, before the producers start. *)
Lemma rep_in_flight s d qs vs fl (wss : list (list T)) :
  queue_rep s d qs vs fl ->
  Z.of_nat (length wss) + 1 < size_mod ->
  in_flight (d :: qs ++ fl) (length (heap s)) s d qs vs fl
    (pair Idle <$> wss).
Proof.
  intros [Hhd Hch Htl Hel Hpool Hnd Href] Hbound.
  assert (Hidle : forall i (th : stage T * list T),
            (pair Idle <$> wss) !! i = Some th -> fst th = Idle).
  { intros i th. rewrite list_lookup_fmap.
    destruct (wss !! i); cbn; [| done]. by intros [= <-]. }
  split; try done.
  - intros a Ha. by left.
  - intros a [Ha | Hnew]; [| lia].
    rewrite references_none.
    + rewrite Forall_forall in Href. by apply Href.
    + intros i th Hi. by rewrite (Hidle i th Hi).
  - by rewrite length_fmap.
  - destruct (last (d :: qs)) as [t |] eqn:Ht.
    + exists t. split; [done |]. by eapply lseg_last.
    + by rewrite last_cons in Ht; destruct (last qs).
  - intros j p a Hp Ha. left. by eapply lseg_neighbours.
  - intros i th Hi. by rewrite (Hidle i th Hi).
  - intros i th u Hi Hu. by rewrite (Hidle i th Hi) in Hu.
  - intros i th a Hi Ha. by rewrite (Hidle i th Hi) in Ha.
  - intros i j thi thj a Hi _ Ha. by rewrite (Hidle i thi Hi) in Ha.
Qed.

(** Once every producer has returned the queue is quiet. *)
Lemma in_flight_rep known0 base fuel s d ch cv fl ths :
  in_flight known0 base s d ch cv fl ths ->
  (forall i th, ths !! i = Some th ->
     stage_prog (S fuel) th = Ret tt) ->
  queue_rep s d ch cv fl /\ Forall (fun ws => ws = []) (remaining <$> ths).
Proof.
  intros Hinv Hdone.
  pose proof Hinv as
    [Hhd Hbase Htl Hpool Hnd Hkn Href Hbound Hel Hlast Hlinks Hst Haim
       Hhold Huniq].
  assert (Hidle : forall i th, ths !! i = Some th -> th = (Idle, [])).
  { intros i [st rest] Hi. specialize (Hdone i _ Hi).
    destruct st as [| k e | | | | | | | | | |]; try done.
    - by destruct rest.
    - by destruct k. }
  split.
  - split; try done.
    + destruct Hlast as (t & Ht & Hnone).
      apply (neighbours_lseg _ _ _ _ t); [| done | done].
      intros j p a Hp Ha.
      destruct (Hlinks j p a Hp Ha) as [Hlink | (i & rest & Hi)]; [done |].
      by apply Hidle in Hi.
    + apply Forall_forall. intros a Ha.
      rewrite (Href a (Hkn a Ha)). rewrite references_none; [done |].
      intros i th Hi. by rewrite (Hidle i th Hi).
  - apply Forall_forall. intros ws (th & -> & Hin)%list_elem_of_fmap.
    apply list_elem_of_lookup_1 in Hin as (i & Hi).
    by rewrite (Hidle i th Hi).
Qed.

Lemma producers_start fuel (wss : list (list T)) :
  map (enqueue_all fuel) wss = stage_prog fuel <$> (pair Idle <$> wss).
Proof. induction wss as [| ws wss IH]; cbn; [done |]. by rewrite IH. Qed.

Lemma producers_remaining (wss : list (list T)) :
  remaining <$> (pair Idle <$> wss) = wss.
Proof. induction wss as [| ws wss IH]; cbn; [done |]. by rewrite IH. Qed.

(** X11.  Producers alone: however the accesses of any number of threads
    (fewer than 2^64 - 1), each calling [enqueue] for the values of its
    list, are interleaved on a quiet queue, once all have returned the
    queue is quiet again and holds, behind the values it held, the values
    of all the lists, shuffled together with each list in its order; the
    blocks they took from the pool are those at its top. *)
Theorem producers_interleave s d qs vs fl (wss : list (list T)) fuel sched
    (c' : config T unit) :
  queue_rep s d qs vs fl ->
  (0 < fuel)%nat ->
  Z.of_nat (length wss) + 1 < size_mod ->
  crun sched (Config s (map (enqueue_all fuel) wss)) = Some c' ->
  (forall i, (i < length wss)%nat -> result c' i = Some tt) ->
  exists qs' vs' used fl',
    queue_rep (mem c') d (qs ++ qs') (vs ++ vs') fl' /\
    fl = used ++ fl' /\
    merge wss vs'.
Proof.
  intros Hrep Hfuel Hbound Hrun Hres.
  destruct fuel as [| fuel]; [lia |].
  destruct (in_flight_run (d :: qs ++ fl) (length (heap s)) fuel d sched
              (Config s (map (enqueue_all (S fuel)) wss)) c' qs vs fl
              (pair Idle <$> wss)
              (producers_start (S fuel) wss)
              (rep_in_flight s d qs vs fl wss Hrep Hbound) Hrun)
    as (ch' & cv' & used & fl' & ths' & Hth' & Hinv' & Hfl & Hlen & Hmerge).
  rewrite length_fmap in Hlen.
  destruct (in_flight_rep _ _ fuel _ _ _ _ _ _ Hinv') as [Hrep' Hnil].
  { intros i th Hi.
    assert (Hlt : (i < length wss)%nat)
      by (rewrite <- Hlen; by eapply lookup_lt_Some).
    specialize (Hres i Hlt). unfold result in Hres.
    rewrite Hth', list_lookup_fmap, Hi in Hres. cbn in Hres.
    destruct (stage_prog (S fuel) th) as [[] | |]; done. }
  exists ch', cv', used, fl'. split; [done |]. split; [done |].
  rewrite producers_remaining in Hmerge.
  rewrite <- (app_nil_r cv'). apply Hmerge. by apply merge_done.
Qed.

(** X12.  Producers alone never run into undefined behaviour: at every
    point of every interleaving of their [enqueue] calls on a quiet
    queue, a thread that has an access left can perform it. *)
Theorem producers_never_undefined s d qs vs fl (wss : list (list T)) fuel
    sched (c' : config T unit) i spur :
  queue_rep s d qs vs fl ->
  (0 < fuel)%nat ->
  Z.of_nat (length wss) + 1 < size_mod ->
  crun sched (Config s (map (enqueue_all fuel) wss)) = Some c' ->
  is_Some (next_access c' i) ->
  is_Some (cstep i spur c').
Proof.
  intros Hrep Hfuel Hbound Hrun Hnext.
  destruct fuel as [| fuel]; [lia |].
  destruct (in_flight_run (d :: qs ++ fl) (length (heap s)) fuel d sched
              (Config s (map (enqueue_all (S fuel)) wss)) c' qs vs fl
              (pair Idle <$> wss)
              (producers_start (S fuel) wss)
              (rep_in_flight s d qs vs fl wss Hrep Hbound) Hrun)
    as (ch' & cv' & used & fl' & ths' & Hth' & Hinv' & _).
  unfold next_access in Hnext. unfold cstep.
  rewrite Hth', list_lookup_fmap in Hnext |- *.
  destruct (ths' !! i) as [[st rest] |] eqn:Hi; [| by destruct Hnext].
  cbn [fmap option_fmap option_map] in Hnext |- *.
  pose proof (fly_stages _ _ _ _ _ _ _ _ Hinv' i _ Hi) as Hok.
  cbn [fst] in Hok.
  assert (Halloc : forall u, aims st = Some u \/ holds st = Some u ->
            exists b, heap (mem c') !! u = Some b).
  { intros u [Hu | Hu].
    - destruct (in_flight_allocated _ _ _ _ _ _ _ _ u Hinv'
                  (fly_aims _ _ _ _ _ _ _ _ Hinv' i _ u Hi Hu))
        as (b & Hb & _). by exists b.
    - destruct (fly_held _ _ _ _ _ _ _ _ Hinv' i _ u Hi Hu) as [Hk _].
      destruct (in_flight_allocated _ _ _ _ _ _ _ _ u Hinv' Hk)
        as (b & Hb & _). by exists b. }
  destruct st as [| k e | k u e | k u t e | k u e | k u nv e
                  | k u popped e | e | a e | a e | a e | p a].
  - destruct rest as [| e rest]; [by destruct Hnext |]. by cbn.
  - destruct k as [| k]; [by destruct Hnext |]. by cbn.
  - destruct (Halloc u) as (b & Hb); [by left |].
    cbn. rewrite Hb. by cbn.
  - destruct (Halloc u) as (b & Hb); [by left |].
    cbn. rewrite Hb. cbn.
    destruct (negb spur && (refcnt b =? t)); cbn; rewrite ?Hb; by cbn.
  - destruct (Halloc u) as (b & Hb); [by left |].
    cbn. rewrite Hb. by cbn.
  - cbn. by destruct (negb spur && ptr_eqb (top (mem c')) (Some u)).
  - destruct (Halloc u) as (b & Hb); [by left |].
    cbn [stage_prog fst snd]. unfold pop_tried, FreeList.release_ref.
    cbn. rewrite Hb. cbn. rewrite ?Hb. by cbn.
  - by cbn.
  - destruct (Halloc a) as (b & Hb); [by right |].
    cbn. rewrite Hb. by cbn.
  - destruct (Halloc a) as (b & Hb); [by right |].
    cbn. rewrite Hb. by cbn.
  - by cbn.
  - destruct Hok as (j & Hjp & _).
    assert (Hkp : known (d :: qs ++ fl) (length (heap s)) (heap (mem c')) p).
    { apply (fly_known _ _ _ _ _ _ _ _ Hinv').
      change (p ∈ (d :: qs ++ ch') ++ fl'). apply elem_of_app. left.
      by eapply list_elem_of_lookup_2. }
    destruct (in_flight_allocated _ _ _ _ _ _ _ _ p Hinv' Hkp)
      as (bp & Hbp & _).
    cbn. rewrite Hbp. by cbn.
Qed.

End Producers.

(** *** References that outlive a dequeue *)

Section References.
Context {T : Type} `{ValueInit T}.
Implicit Types (s : state T).

Lemma release_n_held_back fuel k : forall j o s a b,
  (a < length (heap s))%nat ->
  (j <= k)%nat ->
  (0 < k)%nat ->
  Z.of_nat k < size_mod ->
  (length o < fuel)%nat ->
  returns (release_n fuel (Some a) j) o (held_back s a b (Z.of_nat k)) tt
    (if decide (j = k) then pushed s a b
     else held_back s a b (Z.of_nat (k - j))).
Proof.
  induction k as [| k IH]; intros j o s a b Hlt Hj Hk Hmax Hfuel; [lia |].
  destruct j as [| j].
  - rewrite decide_False by lia. rewrite Nat.sub_0_r. apply returns_ret.
  - assert (Hb : heap (held_back s a b (Z.of_nat (S k))) !! a =
                 Some (Block (node_next b) (Z.of_nat (S k)) (elem b)
                         (block_next b))).
    { cbn. by apply list_lookup_insert_eq. }
    pose proof (release_ref_spec o fuel _ a _ Hb Hfuel) as Hrel.
    cbn [refcnt] in Hrel.
    destruct (returns_seq _ (fun _ => release_n fuel (Some a) j)
                _ _ _ _ Hrel) as (o1 & Hle1 & Hseq).
    cbn [release_n]. apply Hseq.
    destruct (decide (k = 0%nat)) as [-> | Hpos].
    + destruct j as [| j]; [| lia]. cbn [Z.of_nat Pos.of_succ_nat Z.eqb Pos.eqb].
      rewrite decide_True by done. cbn [release_n].
      replace (pushed (held_back s a b 1) a _) with (pushed s a b);
        [apply returns_ret |].
      unfold pushed, held_back. cbn. by rewrite list_insert_insert_eq.
    + assert (Hne : (Z.of_nat (S k) =? 1) = false) by (apply Z.eqb_neq; lia).
      rewrite Hne.
      replace (dropped (held_back s a b (Z.of_nat (S k))) a _)
        with (held_back s a b (Z.of_nat k)).
      * specialize (IH j o1 s a b Hlt ltac:(lia) ltac:(lia) ltac:(lia)
                      ltac:(lia)).
        destruct (decide (j = k)) as [-> | Hjk].
        -- by rewrite decide_True.
        -- rewrite decide_False by lia. by replace (S k - S j)%nat with (k - j)%nat by lia.
      * unfold dropped, held_back. cbn. rewrite list_insert_insert_eq.
        do 3 f_equal. unfold wrap. rewrite Z.mod_small; lia.
Qed.

(** X13.  The push of a dequeued head is delayed to the last reference:
    when [k] references to the head block are outstanding at a
    [try_dequeue] that returns a value, the call moves the head and leaves
    the old head outside the pool, and so do the [release_ref]s that give
    the references back, but for the last one, which pushes the block. *)
Theorem last_release_pushes_the_head s d b n bn (e : T) k j fuel o :
  head s = Some d ->
  heap s !! d = Some b ->
  block_next b = Some n ->
  heap s !! n = Some bn ->
  refcnt b = 1 + Z.of_nat k ->
  1 + Z.of_nat k < size_mod ->
  (j <= k)%nat ->
  (length o < fuel)%nat ->
  returns (r <- MPMCQueue.try_dequeue fuel e ;;
           release_n fuel (Some d) j ;;
           Ret r) o s (true, elem bn)
    (let s1 := State (heap s) (top s) (Some n) (tail s) in
     if decide (j = k) then pushed s1 d b
     else held_back s1 d b (Z.of_nat (k - j))).
Proof.
  intros Hhd Hb Hnext Hbn Hcnt Hmax Hj Hfuel.
  assert (Hlt : (d < length (heap s))%nat) by (by eapply lookup_lt_Some).
  pose proof (mpmc_try_dequeue_some o fuel e s d b n bn Hhd Hb ltac:(lia)
                Hnext Hbn Hfuel) as Hdeq.
  destruct (returns_seq _
              (fun r => release_n fuel (Some d) j ;; Ret r)
              _ _ _ _ Hdeq) as (o1 & Hle1 & Hseq).
  apply Hseq. cbn zeta.
  set (s1 := State (heap s) (top s) (Some n) (tail s)).
  destruct (decide (k = 0%nat)) as [-> | Hpos].
  - assert (j = 0%nat) as -> by lia. rewrite decide_True by done.
    rewrite Hcnt. cbn [Z.of_nat Z.add Z.eqb Pos.eqb]. cbn [release_n].
    eapply returns_bind; [apply returns_ret |]. intros o2 _.
    apply returns_ret.
  - assert (Hne : (refcnt b =? 1) = false) by (apply Z.eqb_neq; lia).
    rewrite Hne.
    replace (dropped s1 d b) with (held_back s1 d b (Z.of_nat k)).
    + eapply returns_bind.
      * apply (release_n_held_back fuel k j o1 s1 d b); [done | done | lia | lia | lia].
      * intros o2 _. apply returns_ret.
    + unfold dropped, held_back. do 3 f_equal. rewrite Hcnt.
      unfold wrap. rewrite Z.mod_small; lia.
Qed.

(** X14.  [pop] does not wait for references to be given back: on a
    memory whose top block has any [refcnt] but 0, run alone, it returns
    that block, moves [top] to the block's [Node::next] and leaves the
    [refcnt] as it was, whichever weak CAS fails spuriously. *)
Theorem pop_returns_a_referenced_block s u b fuel o :
  top s = Some u ->
  heap s !! u = Some b ->
  0 < refcnt b < size_mod ->
  (length o < fuel)%nat ->
  returns (FreeList.pop fuel) o s (Some (Some u))
    (State (heap s) (node_next b) (head s) (tail s)).
Proof. apply pop_spec_some. Qed.

End References.

(** *** Instances of the further properties *)

Import Instance.

Lemma construct_builds_queue_and_pool_witness :
  (length [true] < 2)%nat /\
  exists s : state Z,
    returns (MPMCQueue.construct 2 3) [true] empty_state tt s /\
    queue_rep s 0 [] [] [3; 2; 1]%nat /\
    length (heap s) = 4%nat.
Proof.
  assert (Hfuel : (length [true] < 2)%nat) by (cbn; lia).
  split; [exact Hfuel |].
  exact (construct_builds_queue_and_pool 3 2 [true] Hfuel).
Defined.

Lemma pool_is_a_stack_witness :
  pool_rep small_pool [0%nat] /\
  NoDup [1; 2]%nat /\
  (forall u, u ∈ [1; 2]%nat ->
     (u ∉ [0%nat]) /\ field refcnt (heap small_pool) u = Some 1) /\
  (length [true] < 2)%nat /\
  exists s',
    returns (push_all 2 [1; 2]%nat ;; pop_n 2 4) [true] small_pool
      [Some (Some 2%nat); Some (Some 1%nat); Some (Some 0%nat); None] s' /\
    pool_rep s' [] /\
    length (heap s') = 3%nat.
Proof.
  assert (Hpool : pool_rep small_pool [0%nat]).
  { split; [walk |]. split; [compute_done | by repeat constructor]. }
  assert (Hnd : NoDup [1; 2]%nat) by compute_done.
  assert (Hus : forall u, u ∈ [1; 2]%nat ->
            (u ∉ [0%nat]) /\ field refcnt (heap small_pool) u = Some 1).
  { intros u Hu. apply elem_of_cons in Hu as [-> | Hu].
    - split; [compute_done | reflexivity].
    - apply list_elem_of_singleton in Hu as ->.
      split; [compute_done | reflexivity]. }
  assert (Hfuel : (length [true] < 2)%nat) by (cbn; lia).
  split; [exact Hpool |]. split; [exact Hnd |]. split; [exact Hus |].
  split; [exact Hfuel |].
  exact (pool_is_a_stack small_pool [0%nat] [1; 2]%nat 2 [true]
           Hpool Hnd Hus Hfuel).
Defined.

Lemma stalled_push_blocks_pop_witness :
  heap (mem push_and_pop) !! 0%nat = Some new_block /\
  refcnt (new_block (T:=Z)) = 1 /\
  Forall (fun st => fst st = 1%nat) (repeat (1%nat, false) 3) /\
  crun stalled_push push_and_pop = Some (after stalled_push push_and_pop) /\
  mem (after stalled_push push_and_pop) =
    half_pushed (mem push_and_pop) 0 new_block /\
  result (after stalled_push push_and_pop) 1 = None.
Proof.
  assert (Hb : heap (mem push_and_pop) !! 0%nat = Some new_block)
    by reflexivity.
  assert (Hone : refcnt (new_block (T:=Z)) = 1) by reflexivity.
  assert (Hall : Forall (fun st => fst st = 1%nat) (repeat (1%nat, false) 3))
    by (by repeat constructor).
  assert (Hrun : crun stalled_push push_and_pop =
                 Some (after stalled_push push_and_pop)) by reflexivity.
  split; [exact Hb |]. split; [exact Hone |]. split; [exact Hall |].
  split; [exact Hrun |].
  exact (stalled_push_blocks_pop (mem push_and_pop) 0%nat new_block 1 2
           (repeat (1%nat, false) 3) (after stalled_push push_and_pop)
           Hb Hone Hall Hrun).
Defined.

Lemma dequeue_frees_the_block_for_enqueue_witness :
  queue_rep one_pending 0 [1%nat] [5] [] /\
  (length [true] < 2)%nat /\
  exists s',
    returns (r <- MPMCQueue.try_dequeue 2 0 ;;
             MPMCQueue.enqueue 2 7 ;;
             Ret r) [true] one_pending (true, 5) s' /\
    queue_rep s' 1 [0%nat] [7] [] /\
    length (heap s') = 2%nat.
Proof.
  assert (Hrep : queue_rep one_pending 0 [1%nat] [5] []) by quiet.
  assert (Hfuel : (length [true] < 2)%nat) by (cbn; lia).
  split; [exact Hrep |]. split; [exact Hfuel |].
  exact (dequeue_frees_the_block_for_enqueue one_pending 0%nat 1%nat [] 5 []
           [] 7 0 2 [true] Hrep Hfuel).
Defined.

Lemma try_dequeue_variants_agree_alone_witness :
  head one_pending = Some 0%nat /\
  heap one_pending !! 0%nat = Some (Block None 1 0 (Some 1%nat)) /\
  0 < 1 < size_mod /\
  (forall n, Some 1%nat = Some n -> is_Some (heap one_pending !! n)) /\
  (length [true; true] < 3)%nat /\
  (length (@nil bool) < 1)%nat /\
  exists r s',
    returns (MPMCQueue.try_dequeue 3 0) [true; true] one_pending r s' /\
    returns (MPSCQueue.try_dequeue 1 0) [] one_pending r s'.
Proof.
  assert (Hhd : head one_pending = Some 0%nat) by reflexivity.
  assert (Hb : heap one_pending !! 0%nat = Some (Block None 1 0 (Some 1%nat)))
    by reflexivity.
  assert (Ht : 0 < 1 < size_mod) by (split; reflexivity).
  assert (Hn : forall n, Some 1%nat = Some n ->
            is_Some (heap one_pending !! n)).
  { intros n [= <-]. by eexists. }
  assert (Hfuel : (length [true; true] < 3)%nat) by (cbn; lia).
  assert (Hfuel' : (length (@nil bool) < 1)%nat) by (cbn; lia).
  do 6 (split; [assumption |]).
  exact (try_dequeue_variants_agree_alone one_pending 0%nat
           (Block None 1 0 (Some 1%nat)) 0 3 1 [true; true] []
           Hhd Hb Ht Hn Hfuel Hfuel').
Defined.

Lemma rewind_then_try_dequeue_witness :
  queue_rep one_pending 0 [1%nat] [5] [] /\
  (length (@nil bool) < 1)%nat /\
  exists s',
    returns (MPSCQueue.rewind 1 9 ;; MPSCQueue.try_dequeue 1 0)
      [] one_pending (true, 9) s' /\
    queue_rep s' 0 [1%nat] [5] [2%nat].
Proof.
  assert (Hrep : queue_rep one_pending 0 [1%nat] [5] []) by quiet.
  assert (Hfuel : (length (@nil bool) < 1)%nat) by (cbn; lia).
  split; [exact Hrep |]. split; [exact Hfuel |].
  exact (rewind_then_try_dequeue one_pending 0%nat [1%nat] [5] [] 9 0 1 []
           Hrep Hfuel).
Defined.

Lemma destructor_deletes_each_block_once_witness :
  queue_rep recycled_dummy 2 [] [] [0; 1]%nat /\
  (length [true] + length [0; 1]%nat + length (@nil nat) + 1 < 5)%nat /\
  exists ds s',
    returns (MPMCQueue.destroy 5) [true] recycled_dummy ds s' /\
    ds = [Some 0; Some 1; Some 2]%nat /\
    NoDup ds.
Proof.
  assert (Hrep : queue_rep recycled_dummy 2 [] [] [0; 1]%nat) by quiet.
  assert (Hfuel : (length [true] + length [0; 1]%nat + length (@nil nat) + 1
                   < 5)%nat) by (cbn; lia).
  split; [exact Hrep |]. split; [exact Hfuel |].
  exact (destructor_deletes_each_block_once recycled_dummy 2%nat [] []
           [0; 1]%nat 5 [true] Hrep Hfuel).
Defined.

Lemma calls_refine_bounded_fifo_witness :
  queue_rep recycled_dummy 2 [] [] [0; 1]%nat /\
  (length [true] < 2)%nat /\
  exists s' d' qs' fl',
    returns (serve_all 2 session 0) [true] recycled_dummy
      [(true, 0); (true, 0); (true, 0); (true, 1); (true, 1); (true, 9);
       (true, 9); (true, 2); (true, 3); (true, 4); (false, 4)] s' /\
    queue_rep s' d' qs' [] fl' /\
    length fl' = 3%nat /\
    length (heap s') = 4%nat.
Proof.
  assert (Hrep : queue_rep recycled_dummy 2 [] [] [0; 1]%nat) by quiet.
  assert (Hfuel : (length [true] < 2)%nat) by (cbn; lia).
  split; [exact Hrep |]. split; [exact Hfuel |].
  exact (calls_refine_bounded_fifo recycled_dummy 2%nat [] [] [0; 1]%nat
           session 0 2 [true] Hrep Hfuel).
Defined.

Lemma life_of_a_queue_witness :
  (length [true] + 1 + length session + 1 < 15)%nat /\
  exists ds s',
    returns (MPMCQueue.construct 15 1 ;;
             rs <- serve_all 15 session 0 ;;
             ds <- MPMCQueue.destroy 15 ;;
             Ret (rs, ds)) [true] empty_state
      ([(true, 0); (true, 0); (true, 0); (true, 1); (true, 1); (true, 9);
        (true, 9); (true, 2); (true, 3); (true, 4); (false, 4)], ds) s' /\
    ds ≡ₚ map Some (seq 0 (length (heap s'))).
Proof.
  assert (Hfuel : (length [true] + 1 + length session + 1 < 15)%nat)
    by (cbn; lia).
  split; [exact Hfuel |].
  exact (life_of_a_queue 1 session 0 15 [true] Hfuel).
Defined.

Lemma producers_interleave_witness :
  queue_rep recycled_dummy 2 [] [] [0; 1]%nat /\
  (0 < 3)%nat /\
  Z.of_nat (length [[1; 3]; [2]]) + 1 < size_mod /\
  crun turns two_producers = Some (after turns two_producers) /\
  (forall i, (i < length [[1; 3]; [2]])%nat ->
     result (after turns two_producers) i = Some tt) /\
  exists qs' vs' used fl',
    queue_rep (mem (after turns two_producers)) 2 ([] ++ qs') ([] ++ vs')
      fl' /\
    [0; 1]%nat = used ++ fl' /\
    merge [[1; 3]; [2]] vs'.
Proof.
  assert (Hrep : queue_rep recycled_dummy 2 [] [] [0; 1]%nat) by quiet.
  assert (Hfuel : (0 < 3)%nat) by lia.
  assert (Hbound : Z.of_nat (length [[1; 3]; [2]]) + 1 < size_mod)
    by reflexivity.
  assert (Hrun : crun turns two_producers = Some (after turns two_producers))
    by reflexivity.
  assert (Hres : forall i, (i < length [[1; 3]; [2]])%nat ->
            result (after turns two_producers) i = Some tt).
  { intros [| [| i]] Hi; [reflexivity | reflexivity | cbn in Hi; lia]. }
  split; [exact Hrep |]. split; [exact Hfuel |]. split; [exact Hbound |].
  split; [exact Hrun |]. split; [exact Hres |].
  exact (producers_interleave recycled_dummy 2%nat [] [] [0; 1]%nat
           [[1; 3]; [2]] 3 turns (after turns two_producers)
           Hrep Hfuel Hbound Hrun Hres).
Defined.

Lemma producers_never_undefined_witness :
  queue_rep recycled_dummy 2 [] [] [0; 1]%nat /\
  (0 < 3)%nat /\
  Z.of_nat (length [[1; 3]; [2]]) + 1 < size_mod /\
  crun (steps contention) two_producers =
    Some (after (steps contention) two_producers) /\
  is_Some (next_access (after (steps contention) two_producers) 1) /\
  is_Some (cstep 1 false (after (steps contention) two_producers)).
Proof.
  assert (Hrep : queue_rep recycled_dummy 2 [] [] [0; 1]%nat) by quiet.
  assert (Hfuel : (0 < 3)%nat) by lia.
  assert (Hbound : Z.of_nat (length [[1; 3]; [2]]) + 1 < size_mod)
    by reflexivity.
  assert (Hrun : crun (steps contention) two_producers =
                 Some (after (steps contention) two_producers))
    by reflexivity.
  assert (Hnext : is_Some (next_access
                             (after (steps contention) two_producers) 1))
    by (by eexists).
  split; [exact Hrep |]. split; [exact Hfuel |]. split; [exact Hbound |].
  split; [exact Hrun |]. split; [exact Hnext |].
  exact (producers_never_undefined recycled_dummy 2%nat [] [] [0; 1]%nat
           [[1; 3]; [2]] 3 (steps contention)
           (after (steps contention) two_producers) 1%nat false
           Hrep Hfuel Hbound Hrun Hnext).
Defined.

Lemma last_release_pushes_the_head_witness :
  head referenced_head = Some 0%nat /\
  heap referenced_head !! 0%nat = Some (Block None 2 0 (Some 1%nat)) /\
  Some 1%nat = Some 1%nat /\
  heap referenced_head !! 1%nat = Some (Block None 1 5 None) /\
  2 = 1 + Z.of_nat 1 /\
  1 + Z.of_nat 1 < size_mod /\
  (1 <= 1)%nat /\
  (length [true] < 2)%nat /\
  returns (r <- MPMCQueue.try_dequeue 2 0 ;;
           release_n 2 (Some 0%nat) 1 ;;
           Ret r) [true] referenced_head (true, 5)
    (State [Block None 1 0 (Some 1%nat); Block None 1 5 None]
       (Some 0%nat) (Some 1%nat) (Some 1%nat)).
Proof.
  assert (Hhd : head referenced_head = Some 0%nat) by reflexivity.
  assert (Hb : heap referenced_head !! 0%nat =
               Some (Block None 2 0 (Some 1%nat))) by reflexivity.
  assert (Hnext : Some 1%nat = Some 1%nat) by reflexivity.
  assert (Hbn : heap referenced_head !! 1%nat = Some (Block None 1 5 None))
    by reflexivity.
  assert (Hcnt : 2 = 1 + Z.of_nat 1) by reflexivity.
  assert (Hmax : 1 + Z.of_nat 1 < size_mod) by reflexivity.
  assert (Hj : (1 <= 1)%nat) by lia.
  assert (Hfuel : (length [true] < 2)%nat) by (cbn; lia).
  do 8 (split; [assumption |]).
  exact (last_release_pushes_the_head referenced_head 0%nat
           (Block None 2 0 (Some 1%nat)) 1%nat (Block None 1 5 None) 0
           1 1 2 [true] Hhd Hb Hnext Hbn Hcnt Hmax Hj Hfuel).
Defined.

Lemma pop_returns_a_referenced_block_witness :
  top referenced_top = Some 0%nat /\
  heap referenced_top !! 0%nat = Some (Block None 3 0 None) /\
  0 < 3 < size_mod /\
  (length [true; true] < 3)%nat /\
  returns (FreeList.pop 3) [true; true] referenced_top (Some (Some 0%nat))
    (State [Block None 3 0 None] None None None).
Proof.
  assert (Htop : top referenced_top = Some 0%nat) by reflexivity.
  assert (Hb : heap referenced_top !! 0%nat = Some (Block None 3 0 None))
    by reflexivity.
  assert (Ht : 0 < 3 < size_mod) by (split; reflexivity).
  assert (Hfuel : (length [true; true] < 3)%nat) by (cbn; lia).
  do 4 (split; [assumption |]).
  exact (pop_returns_a_referenced_block referenced_top 0%nat
           (Block None 3 0 None) 3 [true; true] Htop Hb Ht Hfuel).
Defined.
